(** * PhysicsLLM: the 2D physics engine, embedded and verified

    A shallow embedding of the simulation core of the repository:
    [services/physics/math.ts] (Vec2), [types.ts], [constants.ts],
    [services/physics/CollisionSystem.ts], [services/physics/ConstraintSystem.ts],
    [services/physics/FluidSystem.ts] with the ping-pong runner of
    [services/gpu/GPGPU.ts], and [services/physicsEngine.ts].

    Modelling conventions.
    - A JavaScript [number] (and a GLSL [float]) is a real number of [R]:
      rounding, NaN and the infinities are outside the model.  The two
      places where the source uses [Infinity] as the start value of a
      running minimum or maximum are modelled with [option] ([None] is
      the sentinel).  Every division of the source is guarded by a test
      of its divisor, so the convention [/ 0 = 0] of [R] is never used.
    - [a || d] on numbers is [orElse]: the default [d] replaces a missing
      value as well as the falsy value [0].
    - Objects are mutated through references.  The engine's array
      [objects] is the store; a reference to a [SimObject] is its slot in
      that array (objects are only ever appended, and dropped all at once
      by [reset]).  [objectMap] maps identifiers to references.
    - A thrown JavaScript exception is a [Throw TypeError] result.  The
      methods of the scenario builder return the state reached when they
      threw, together with the result.
    - [Throw NonFinite] is not an exception of the source.  It marks the one
      input on which the source goes on with a number that [R] does not
      hold: [polygonVsPolygon] on two bodies whose cached vertex lists are
      both empty returns, in the source, a manifold with the normal (0, 0)
      and the depth [Infinity].  Nothing is stated about the source on that
      input; the statements about [polygonVsPolygon] exclude it by a
      hypothesis. *)

From Stdlib Require Import Reals Lra Lia.
From stdpp Require Import base gmap strings list pretty.

Open Scope R_scope.

(** ** Numbers *)

#[global] Instance R_eq_dec : EqDecision R := Req_dec_T.
#[global] Instance Rlt_decision (a b : R) : Decision (a < b) := Rlt_dec a b.
#[global] Instance Rgt_decision (a b : R) : Decision (a > b) := Rgt_dec a b.
#[global] Instance Rle_decision (a b : R) : Decision (a <= b) := Rle_dec a b.
#[global] Instance Rge_decision (a b : R) : Decision (a >= b) := Rge_dec a b.

(** [v || d] for an optional number: [undefined] and [0] are falsy. *)
Definition orElse (v : option R) (d : R) : R :=
  match v with
  | Some r => if decide (r = 0) then d else r
  | None => d
  end.

(** [s || d] for an optional string: [undefined] and the empty string are falsy. *)
Definition orElseStr (v : option string) (d : string) : string :=
  match v with
  | Some s => if decide (s = EmptyString) then d else s
  | None => d
  end.

(** Truthiness of an optional boolean ([!!b], [b ? _ : _]). *)
Definition truthy (b : option bool) : bool :=
  match b with Some true => true | _ => false end.

(** ** Results of computations that may throw *)

Inductive Exn :=
  | TypeError   (* a property read on [undefined] *)
  | NonFinite.  (* no exception: the source goes on with [Infinity], which
                   the real numbers cannot express *)

Inductive result (A : Type) :=
  | Ok (a : A)
  | Throw (e : Exn).
Arguments Ok {A} a.
Arguments Throw {A} e.

Definition rbind {A B} (r : result A) (k : A -> result B) : result B :=
  match r with Ok a => k a | Throw e => Throw e end.

(** ** math.ts *)

Record Vector2 := mkV { x : R; y : R }.

Module Vec2.
Definition add (v1 v2 : Vector2) : Vector2 := mkV (x v1 + x v2) (y v1 + y v2).
Definition sub (v1 v2 : Vector2) : Vector2 := mkV (x v1 - x v2) (y v1 - y v2).
Definition mul (v : Vector2) (s : R) : Vector2 := mkV (x v * s) (y v * s).
Definition div (v : Vector2) (s : R) : Vector2 := mkV (x v / s) (y v / s).
Definition dot (v1 v2 : Vector2) : R := x v1 * x v2 + y v1 * y v2.
Definition len (v : Vector2) : R := sqrt (x v * x v + y v * y v).
Definition lenSq (v : Vector2) : R := x v * x v + y v * y v.
Definition dist (v1 v2 : Vector2) : R :=
  sqrt ((x v1 - x v2) ^ 2 + (y v1 - y v2) ^ 2).
Definition normalize (v : Vector2) : Vector2 :=
  let l := sqrt (x v * x v + y v * y v) in
  if decide (l = 0) then mkV 0 0 else mkV (x v / l) (y v / l).
Definition cross (v1 v2 : Vector2) : R := x v1 * y v2 - y v1 * x v2.
Definition rotate (v : Vector2) (angle : R) : Vector2 :=
  let c := cos angle in
  let s := sin angle in
  mkV (x v * c - y v * s) (x v * s + y v * c).
Definition perp (v : Vector2) : Vector2 := mkV (- y v) (x v).
Definition clamp (val min max : R) : R := Rmax min (Rmin max val).
End Vec2.

(** ** types.ts *)

Inductive MaterialType := steel | wood | rubber | concrete | cloth_mat.
Inductive ShapeType := box | circle | plane | cloth.

#[global] Instance ShapeType_eq_dec : EqDecision ShapeType.
Proof. solve_decision. Defined.

Record SimObjectConfig := {
  cfg_mass : option R;
  cfg_material : option MaterialType;
  cfg_x : option R;
  cfg_y : option R;
  cfg_width : option R;
  cfg_height : option R;
  cfg_radius : option R;
  cfg_fixed : option bool;
  cfg_color : option string;
  cfg_vx : option R;
  cfg_vy : option R;
  cfg_angle : option R;
  cfg_segmentsX : option R;
  cfg_segmentsY : option R;
  cfg_pinTop : option bool
}.

(** The empty configuration [{}]. *)
Definition cfg0 : SimObjectConfig :=
  {| cfg_mass := None; cfg_material := None; cfg_x := None; cfg_y := None;
     cfg_width := None; cfg_height := None; cfg_radius := None;
     cfg_fixed := None; cfg_color := None; cfg_vx := None; cfg_vy := None;
     cfg_angle := None; cfg_segmentsX := None; cfg_segmentsY := None;
     cfg_pinTop := None |}.

Record SimObject := {
  o_id : string;
  o_type : ShapeType;
  mass : R;
  invMass : R;
  inertia : R;
  invInertia : R;
  pos : Vector2;
  oldPos : Vector2;
  vel : Vector2;
  force : Vector2;
  angle : R;
  oldAngle : R;
  restitution : R;
  friction : R;
  width : R;
  height : R;
  radius : R;
  fixed : bool;
  color : string;
  vertices : option (list Vector2)
}.

(** Field assignments [obj.f = v]. *)
Definition set_pos (v : Vector2) (o : SimObject) : SimObject :=
  {| o_id := o_id o; o_type := o_type o; mass := mass o; invMass := invMass o;
     inertia := inertia o; invInertia := invInertia o; pos := v;
     oldPos := oldPos o; vel := vel o; force := force o; angle := angle o;
     oldAngle := oldAngle o; restitution := restitution o;
     friction := friction o; width := width o; height := height o;
     radius := radius o; fixed := fixed o; color := color o;
     vertices := vertices o |}.

Definition set_oldPos (v : Vector2) (o : SimObject) : SimObject :=
  {| o_id := o_id o; o_type := o_type o; mass := mass o; invMass := invMass o;
     inertia := inertia o; invInertia := invInertia o; pos := pos o;
     oldPos := v; vel := vel o; force := force o; angle := angle o;
     oldAngle := oldAngle o; restitution := restitution o;
     friction := friction o; width := width o; height := height o;
     radius := radius o; fixed := fixed o; color := color o;
     vertices := vertices o |}.

Definition set_vel (v : Vector2) (o : SimObject) : SimObject :=
  {| o_id := o_id o; o_type := o_type o; mass := mass o; invMass := invMass o;
     inertia := inertia o; invInertia := invInertia o; pos := pos o;
     oldPos := oldPos o; vel := v; force := force o; angle := angle o;
     oldAngle := oldAngle o; restitution := restitution o;
     friction := friction o; width := width o; height := height o;
     radius := radius o; fixed := fixed o; color := color o;
     vertices := vertices o |}.

Definition set_force (v : Vector2) (o : SimObject) : SimObject :=
  {| o_id := o_id o; o_type := o_type o; mass := mass o; invMass := invMass o;
     inertia := inertia o; invInertia := invInertia o; pos := pos o;
     oldPos := oldPos o; vel := vel o; force := v; angle := angle o;
     oldAngle := oldAngle o; restitution := restitution o;
     friction := friction o; width := width o; height := height o;
     radius := radius o; fixed := fixed o; color := color o;
     vertices := vertices o |}.

Definition set_angles (a olda : R) (o : SimObject) : SimObject :=
  {| o_id := o_id o; o_type := o_type o; mass := mass o; invMass := invMass o;
     inertia := inertia o; invInertia := invInertia o; pos := pos o;
     oldPos := oldPos o; vel := vel o; force := force o; angle := a;
     oldAngle := olda; restitution := restitution o;
     friction := friction o; width := width o; height := height o;
     radius := radius o; fixed := fixed o; color := color o;
     vertices := vertices o |}.

Definition set_vertices (vs : option (list Vector2)) (o : SimObject) : SimObject :=
  {| o_id := o_id o; o_type := o_type o; mass := mass o; invMass := invMass o;
     inertia := inertia o; invInertia := invInertia o; pos := pos o;
     oldPos := oldPos o; vel := vel o; force := force o; angle := angle o;
     oldAngle := oldAngle o; restitution := restitution o;
     friction := friction o; width := width o; height := height o;
     radius := radius o; fixed := fixed o; color := color o;
     vertices := vs |}.

Record Constraint := {
  c_id : string;
  bodyA : string;
  bodyB : string;
  c_length : R;
  stiffness : R;
  c_color : string
}.

(** The store of simulated objects: the array [objects]; a reference is a slot. *)
Abbreviation Store := (list SimObject).

(** A manifold holds references to its two bodies. *)
Record Manifold := {
  m_bodyA : nat;
  m_bodyB : nat;
  normal : Vector2;
  depth : R;
  hasCollision : bool
}.

(** ** constants.ts *)

Definition GRAVITY : R := 981 / 100.
Definition DT : R := 1 / 60.

Record MaterialProps := {
  mat_density : R; mat_restitution : R; mat_friction : R; mat_color : string
}.

Definition MATERIALS (m : option MaterialType) : MaterialProps :=
  match m with
  | Some steel => Build_MaterialProps 7850 (5/10) (4/10) "#95a5a6"
  | Some wood => Build_MaterialProps 700 (2/10) (6/10) "#d35400"
  | Some rubber => Build_MaterialProps 1100 (8/10) (9/10) "#e74c3c"
  | Some concrete => Build_MaterialProps 2400 (1/10) (8/10) "#7f8c8d"
  | Some cloth_mat => Build_MaterialProps 500 (1/10) (9/10) "#e67e22"
  | None => Build_MaterialProps 1000 (5/10) (5/10) "#3498db"
  end.

(** ** CollisionSystem.ts *)

Module CollisionSystem.

(** [projectVertices]: the pair [min, max] of the projections; [None] is the
    pair [Infinity, -Infinity] that the loop leaves for an empty list. *)
Definition projectStep (axis : Vector2) (acc : option (R * R)) (v : Vector2)
  : option (R * R) :=
  let proj := Vec2.dot v axis in
  match acc with
  | None => Some (proj, proj)
  | Some (mn, mx) =>
      Some (if decide (proj < mn) then proj else mn,
            if decide (proj > mx) then proj else mx)
  end.

Definition projectVertices (vs : list Vector2) (axis : Vector2) : option (R * R) :=
  foldl (projectStep axis) None vs.

Definition projectCircle (c : SimObject) (axis : Vector2) : option (R * R) :=
  let centerProj := Vec2.dot (pos c) axis in
  Some (centerProj - radius c, centerProj + radius c).

(** The test [minA >= maxB || minB >= maxA].  With [Infinity, -Infinity] on
    either side the first or the second comparison is true. *)
Definition separated (pA pB : option (R * R)) : bool :=
  match pA, pB with
  | Some (minA, maxA), Some (minB, maxB) =>
      bool_decide (minA >= maxB) || bool_decide (minB >= maxA)
  | _, _ => true
  end.

(** [Math.min(maxB - minA, maxA - minB)], for projections that are not separated. *)
Definition axisDepth (pA pB : option (R * R)) : R :=
  match pA, pB with
  | Some (minA, maxA), Some (minB, maxB) => Rmin (maxB - minA) (maxA - minB)
  | _, _ => 0
  end.

(** The axes of the edge loop: for each [i], the normalized perpendicular of
    the edge from [vs[i]] to [vs[(i + 1) % vs.length]]. *)
Definition edgeAxes (vs : list Vector2) : list Vector2 :=
  imap (fun i v1 =>
          let v2 := default v1 (vs !! ((i + 1) mod length vs)%nat) in
          let edge := Vec2.sub v2 v1 in
          Vec2.normalize (Vec2.perp edge)) vs.

(** The running [normal] and [depth] of the SAT loops; [depth = None] is
    the start value [Infinity]. *)
Abbreviation Sat := (Vector2 * option R)%type.

(** One iteration of an axis loop: [None] is the early [return null]. *)
Definition satStep (projA projB : Vector2 -> option (R * R))
    (st : option Sat) (axis : Vector2) : option Sat :=
  match st with
  | None => None
  | Some (nrm, dpt) =>
      let pA := projA axis in
      let pB := projB axis in
      if separated pA pB then None
      else
        let d := axisDepth pA pB in
        match dpt with
        | None => Some (axis, Some d)
        | Some dp => if decide (d < dp) then Some (axis, Some d) else Some (nrm, dpt)
        end
  end.

Definition satLoop (projA projB : Vector2 -> option (R * R))
    (axes : list Vector2) (st : option Sat) : option Sat :=
  foldl (satStep projA projB) st axes.

(** "Ensure normal points from A to B". *)
Definition orient (direction nrm : Vector2) : Vector2 :=
  if decide (Vec2.dot direction nrm < 0) then Vec2.mul nrm (-1) else nrm.

Definition circleVsCircle (a : nat) (A : SimObject) (b : nat) (B : SimObject)
  : Manifold :=
  let n := Vec2.sub (pos B) (pos A) in
  let distSq := Vec2.lenSq n in
  let radiusSum := radius A + radius B in
  if decide (distSq > radiusSum * radiusSum) then
    {| m_bodyA := a; m_bodyB := b; normal := mkV 0 0; depth := 0;
       hasCollision := false |}
  else
    let dist := sqrt distSq in
    if decide (dist = 0) then
      {| m_bodyA := a; m_bodyB := b; normal := mkV 1 0; depth := radiusSum;
         hasCollision := true |}
    else
      {| m_bodyA := a; m_bodyB := b; normal := Vec2.div n dist;
         depth := radiusSum - dist; hasCollision := true |}.

Definition polygonVsPolygon (a : nat) (A : SimObject) (b : nat) (B : SimObject)
  : result (option Manifold) :=
  match vertices A, vertices B with
  | Some vA, Some vB =>
      let projA := projectVertices vA in
      let projB := projectVertices vB in
      let st0 := Some (mkV 0 0, None) in
      match satLoop projA projB (edgeAxes vB)
              (satLoop projA projB (edgeAxes vA) st0) with
      | None => Ok None
      | Some (nrm, Some dpt) =>
          let direction := Vec2.sub (pos B) (pos A) in
          Ok (Some {| m_bodyA := a; m_bodyB := b;
                      normal := orient direction nrm; depth := dpt;
                      hasCollision := true |})
      | Some (_, None) =>
          (* no axis was tested: both vertex lists are empty, and the source
             returns normally the manifold with the normal (0, 0), the depth
             [Infinity] and [hasCollision: true], which the model cannot
             hold *)
          Throw NonFinite
      end
  | _, _ => Ok None
  end.

(** The closest-vertex loop of [circleVsPolygon], started at [vs[0]] with
    [minDistSq = Infinity]. *)
Definition closestStep (c : Vector2) (acc : Vector2 * option R) (v : Vector2)
  : Vector2 * option R :=
  let distSq := Vec2.lenSq (Vec2.sub c v) in
  match acc.2 with
  | None => (v, Some distSq)
  | Some m => if decide (distSq < m) then (v, Some distSq) else acc
  end.

Definition circleVsPolygon (c : nat) (C : SimObject) (p : nat) (P : SimObject)
  : result (option Manifold) :=
  match vertices P with
  | None => Ok None
  | Some vP =>
      let projA := projectCircle C in
      let projB := projectVertices vP in
      match satLoop projA projB (edgeAxes vP) (Some (mkV 0 0, None)) with
      | None => Ok None
      | Some st =>
          match vP with
          | [] => Throw TypeError
          | v0 :: _ =>
              let closestVertex := (foldl (closestStep (pos C)) (v0, None) vP).1 in
              let axis := Vec2.normalize (Vec2.sub closestVertex (pos C)) in
              match satStep projA projB (Some st) axis with
              | None => Ok None
              | Some (nrm, Some dpt) =>
                  let direction := Vec2.sub (pos P) (pos C) in
                  Ok (Some {| m_bodyA := c; m_bodyB := p;
                              normal := orient direction nrm; depth := dpt;
                              hasCollision := true |})
              | Some (_, None) =>
                  (* not reached: an axis was tested, so the depth is set *)
                  Throw NonFinite
              end
          end
      end
  end.

Definition detectCollision (a : nat) (A : SimObject) (b : nat) (B : SimObject)
  : result (option Manifold) :=
  match o_type A, o_type B with
  | circle, circle => Ok (Some (circleVsCircle a A b B))
  | box, box => polygonVsPolygon a A b B
  | circle, box => circleVsPolygon a A b B
  | box, circle => circleVsPolygon b B a A
  | plane, box => polygonVsPolygon b B a A
  | box, plane => polygonVsPolygon a A b B
  | plane, circle => circleVsPolygon b B a A
  | circle, plane => circleVsPolygon a A b B
  | _, _ => Ok None
  end.

(** [applyResolution]: the bodies are read and written through the
    references of the manifold, in the order of the source. *)
Definition applyResolution (m : Manifold) (h : Store) : Store :=
  match h !! m_bodyA m, h !! m_bodyB m with
  | Some A, Some B =>
      let invMassA := invMass A in
      let invMassB := invMass B in
      let invMassSum := invMassA + invMassB in
      if decide (invMassSum = 0) then h
      else
        let separation := Vec2.mul (normal m) (depth m) in
        let moveA := Vec2.mul separation (- invMassA / invMassSum) in
        let moveB := Vec2.mul separation (invMassB / invMassSum) in
        let h1 := if fixed A then h
                  else alter (fun o => set_pos (Vec2.add (pos o) moveA) o) (m_bodyA m) h in
        let h2 := if fixed B then h1
                  else alter (fun o => set_pos (Vec2.add (pos o) moveB) o) (m_bodyB m) h1 in
        match h2 !! m_bodyA m, h2 !! m_bodyB m with
        | Some A2, Some B2 =>
            let tangent := Vec2.normalize (Vec2.perp (normal m)) in
            let velA := Vec2.sub (pos A2) (oldPos A2) in
            let velB := Vec2.sub (pos B2) (oldPos B2) in
            let relVel := Vec2.sub velB velA in
            let tanVel := Vec2.dot relVel tangent in
            let mu := Rmin (friction A2) (friction B2) in
            let frictionImpulse := Vec2.mul tangent (tanVel * mu) in
            let h3 := if fixed A then h2
                      else alter (fun o => set_oldPos
                                   (Vec2.add (oldPos o) (Vec2.mul frictionImpulse (1/2))) o)
                                 (m_bodyA m) h2 in
            if fixed B then h3
            else alter (fun o => set_oldPos
                         (Vec2.sub (oldPos o) (Vec2.mul frictionImpulse (1/2))) o)
                       (m_bodyB m) h3
        | _, _ => h2
        end
  | _, _ => h
  end.

(** One iteration of the pair loop of [resolve].  The callback that the
    engine passes has an empty body, so the impact filter has no effect. *)
Definition resolvePair (h : Store) (ij : nat * nat) : result Store :=
  match h !! ij.1, h !! ij.2 with
  | Some A, Some B =>
      if fixed A && fixed B then Ok h
      else
        rbind (detectCollision ij.1 A ij.2 B) (fun manifold =>
          match manifold with
          | Some m => if hasCollision m then Ok (applyResolution m h) else Ok h
          | None => Ok h
          end)
  | _, _ => Ok h
  end.

(** The index pairs [(i, j)], [i < j < n], in the order of the two loops. *)
Definition pairs (n : nat) : list (nat * nat) :=
  flat_map (fun i => map (fun j => (i, j)) (seq (S i) (n - S i))) (seq 0 n).

Definition resolve (objects : Store) : result Store :=
  foldl (fun r ij => rbind r (fun h => resolvePair h ij)) (Ok objects)
        (pairs (length objects)).

End CollisionSystem.

(** ** ConstraintSystem.ts *)

Module ConstraintSystem.

(** The body of the [forEach] of [solve], for one constraint.  [objects.get]
    yields a reference; the positions are read and written through it. *)
Definition solveOne (objects : gmap string nat) (h : Store) (c : Constraint) : Store :=
  match objects !! bodyA c, objects !! bodyB c with
  | Some a, Some b =>
      match h !! a, h !! b with
      | Some A, Some B =>
          if fixed A && fixed B then h
          else
            let currentDist := Vec2.dist (pos A) (pos B) in
            if decide (currentDist = 0) then h
            else
              let delta := currentDist - c_length c in
              let correction := delta / currentDist in
              let vec := Vec2.sub (pos B) (pos A) in
              let force := stiffness c * (1/2) in
              let nudge := Vec2.mul vec (correction * force) in
              let h1 := if fixed A then h
                        else alter (fun o => set_pos (Vec2.add (pos o) nudge) o) a h in
              if fixed B then h1
              else alter (fun o => set_pos (Vec2.sub (pos o) nudge) o) b h1
      | _, _ => h
      end
  | _, _ => h
  end.

Definition solve (constraints : list Constraint) (objects : gmap string nat)
    (h : Store) : Store :=
  foldl (solveOne objects) h constraints.

End ConstraintSystem.

(** ** GPGPU.ts and FluidSystem.ts *)

Record vec4 := mk4 { X : R; Y : R; Z : R; W : R }.

(** A texture is its grid of texels, row by row. *)
Abbreviation Texture := (list vec4).

(** A ping-pong state [{ in, out, fb }]; the framebuffer holds no data. *)
Record GPUState := { tex_in : Texture; tex_out : Texture }.

Module GPGPU.

(** [run]: the kernel is evaluated at every texel on the two input textures,
    the result is drawn into [output.out], then [in] and [out] are swapped. *)
Definition run (kernel : vec4 -> vec4 -> vec4) (input0 input1 : Texture)
    (output : GPUState) : GPUState :=
  let drawn := zip_with kernel input0 input1 in
  {| tex_in := drawn; tex_out := tex_in output |}.

Definition readData (t : Texture) : Texture := t.

End GPGPU.

Module FluidSystem.

Definition TEX_WIDTH : nat := 64.
Definition TEX_HEIGHT : nat := 64.

Record t := { posState : GPUState; velState : GPUState }.

(** Seeding.  [rnd k] is the value of the [k]-th call of [Math.random]. *)
Definition posData (rnd : nat -> R) : Texture :=
  map (fun i => mk4 (rnd (4 * i)%nat * 10 - 5) (rnd (4 * i + 1)%nat * 10 + 5) 0 1)
      (seq 0 (TEX_WIDTH * TEX_HEIGHT)).

Definition velData (rnd : nat -> R) : Texture :=
  map (fun i => mk4 ((rnd (4 * i + 2)%nat - 1/2) * 2)
                    ((rnd (4 * i + 3)%nat - 1/2) * 2) 0 0)
      (seq 0 (TEX_WIDTH * TEX_HEIGHT)).

(** A texture created by [createTexture] and not written yet. *)
Definition blank : Texture := replicate (TEX_WIDTH * TEX_HEIGHT) (mk4 0 0 0 0).

Definition new (rnd : nat -> R) : t :=
  {| posState := {| tex_in := posData rnd; tex_out := blank |};
     velState := {| tex_in := velData rnd; tex_out := blank |} |}.

(** The fragment shader [updateVelSource]. *)
Definition updateVel (uDT uGravity : R) (p v : vec4) : vec4 :=
  let v1 := mk4 (X v) (Y v - uGravity * uDT) (Z v) (W v) in
  let v2 := if decide (Y p < 0)
            then mk4 (X v1 * (95/100)) (Rabs (Y v1) * (6/10)) (Z v1) (W v1)
            else v1 in
  if bool_decide (X p < -10) || bool_decide (X p > 10)
  then mk4 (X v2 * (-(8/10))) (Y v2) (Z v2) (W v2)
  else v2.

(** The fragment shader [updatePosSource]. *)
Definition updatePos (uDT : R) (p v : vec4) : vec4 :=
  let p1 := mk4 (X p + X v * uDT) (Y p + Y v * uDT) (Z p) (W p) in
  let p2 := if decide (Y p1 < 0) then mk4 (X p1) 0 (Z p1) (W p1) else p1 in
  let p3 := if decide (X p2 < -10) then mk4 (-10) (Y p2) (Z p2) (W p2) else p2 in
  if decide (X p3 > 10) then mk4 10 (Y p3) (Z p3) (W p3) else p3.

Definition step (dt gravity : R) (f : t) : t :=
  let velState' :=
    GPGPU.run (updateVel dt gravity) (tex_in (posState f)) (tex_in (velState f))
              (velState f) in
  let posState' :=
    GPGPU.run (updatePos dt) (tex_in (posState f)) (tex_in velState')
              (posState f) in
  {| posState := posState'; velState := velState' |}.

Definition getParticles (f : t) : Texture := GPGPU.readData (tex_in (posState f)).

End FluidSystem.

(** ** physicsEngine.ts *)

(** A log line [`[${time.toFixed(2)}s] ${msg}`], kept as its two parts. *)
Record LogLine := { stamp : R; text : string }.

(** The fields of a [PhysicsEngine] instance.  [subSteps] and
    [constraintIterations] are initialised to 8 and 5 and never assigned. *)
Record Engine := {
  objects : Store;
  objectMap : gmap string nat;
  constraints : list Constraint;
  time : R;
  logs : list LogLine;
  draggedObj : option nat;
  fluidSystem : FluidSystem.t
}.

Definition subSteps : nat := 8.
Definition constraintIterations : nat := 5.

(** The module-level [idCounter] together with the engine instance. *)
Record World := { idCounter : nat; this : Engine }.

(** Methods that assign fields and may throw. *)
Definition M (A : Type) : Type := World -> World * result A.

Definition retM {A} (a : A) : M A := fun w => (w, Ok a).
Definition bindM {A B} (c : M A) (k : A -> M B) : M B := fun w =>
  match c w with
  | (w', Ok a) => k a w'
  | (w', Throw e) => (w', Throw e)
  end.

Notation "v <- c ;; k" := (bindM c (fun v => k))
  (at level 100, c at next level, right associativity).

Definition throw {A} (e : Exn) : M A := fun w => (w, Throw e).

Definition ShapeType_name (ty : ShapeType) : string :=
  match ty with
  | box => "box" | circle => "circle" | plane => "plane" | cloth => "cloth"
  end.

Record ConnectConfig := {
  cc_length : option R;
  cc_stiffness : option R;
  cc_color : option string
}.

Module PhysicsEngine.

(** [generateId = () => `obj_${++idCounter}`] *)
Definition generateId : M string := fun w =>
  let n := S (idCounter w) in
  ({| idCounter := n; this := this w |}, Ok ("obj_" +:+ pretty n)).

Definition reset (w : World) : World :=
  {| idCounter := 0;
     this := {| objects := []; objectMap := ∅; constraints := []; time := 0;
                logs := []; draggedObj := None;
                fluidSystem := fluidSystem (this w) |} |}.

(** [constructor]: a fresh fluid system, then [reset]. *)
Definition new (rnd : nat -> R) (idCounter0 : nat) : World :=
  reset {| idCounter := idCounter0;
           this := {| objects := []; objectMap := ∅; constraints := [];
                      time := 0; logs := []; draggedObj := None;
                      fluidSystem := FluidSystem.new rnd |} |}.

Definition log_lines (l : list LogLine) (now : R) (msg : string) : list LogLine :=
  let l' := l ++ [ {| stamp := now; text := msg |} ] in
  if decide (50 < length l')%nat then tail l' else l'.

Definition log (msg : string) : M unit := fun w =>
  let e := this w in
  ({| idCounter := idCounter w;
      this := {| objects := objects e; objectMap := objectMap e;
                 constraints := constraints e; time := time e;
                 logs := log_lines (logs e) (time e) msg;
                 draggedObj := draggedObj e; fluidSystem := fluidSystem e |} |},
   Ok tt).

Definition updateGeometry (obj : SimObject) : SimObject :=
  if decide (o_type obj = box) then
    let hw := width obj / 2 in
    let hh := height obj / 2 in
    let locals := [mkV (- hw) (- hh); mkV hw (- hh); mkV hw hh; mkV (- hw) hh] in
    set_vertices
      (Some (map (fun p => let rotated := Vec2.rotate p (angle obj) in
                           Vec2.add (pos obj) rotated) locals)) obj
  else obj.

(** The object literal built by [add], before the [plane] adjustment. *)
Definition buildObject (type : ShapeType) (config : SimObjectConfig) (id : string)
  : SimObject :=
  let matProps := MATERIALS (cfg_material config) in
  let pos := mkV (orElse (cfg_x config) 0) (orElse (cfg_y config) 0) in
  let vel := mkV (orElse (cfg_vx config) 0) (orElse (cfg_vy config) 0) in
  let width := orElse (cfg_width config) (if decide (type = box) then 1 else 0) in
  let height := orElse (cfg_height config) (if decide (type = box) then 1 else 0) in
  let radius := orElse (cfg_radius config) (if decide (type = circle) then 1/2 else 0) in
  let angle := orElse (cfg_angle config) 0 in
  let mass := if truthy (cfg_fixed config) then 0 else orElse (cfg_mass config) 1 in
  let invMass := if decide (mass = 0) then 0 else 1 / mass in
  let inertia :=
    if decide (mass > 0) then
      if decide (type = box) then mass * (width * width + height * height) / 12
      else if decide (type = circle) then mass * radius * radius / 2
      else 0
    else 0 in
  let invInertia :=
    if bool_decide (inertia = 0) || truthy (cfg_fixed config) then 0 else 1 / inertia in
  {| o_id := id; o_type := type; mass := mass; invMass := invMass;
     inertia := inertia; invInertia := invInertia; pos := pos;
     oldPos := Vec2.sub pos (Vec2.mul vel DT); vel := vel; force := mkV 0 0;
     angle := angle; oldAngle := angle;
     restitution := mat_restitution matProps; friction := mat_friction matProps;
     width := width; height := height; radius := radius;
     fixed := truthy (cfg_fixed config);
     color := orElseStr (cfg_color config) (mat_color matProps);
     vertices := Some [] |}.

(** [if (type === 'plane') { ... }] *)
Definition planeToBox (obj : SimObject) : SimObject :=
  let py := y (pos obj) - 1/2 in
  {| o_id := o_id obj; o_type := box; mass := mass obj; invMass := 0;
     inertia := inertia obj; invInertia := 0;
     pos := mkV (x (pos obj)) py; oldPos := mkV (x (oldPos obj)) py;
     vel := vel obj; force := force obj; angle := angle obj;
     oldAngle := oldAngle obj; restitution := restitution obj;
     friction := friction obj; width := 1000; height := 1; radius := radius obj;
     fixed := true; color := color obj; vertices := vertices obj |}.

(** [objects.push(obj); objectMap.set(obj.id, obj)] *)
Definition register (obj : SimObject) : M nat := fun w =>
  let e := this w in
  let r := length (objects e) in
  ({| idCounter := idCounter w;
      this := {| objects := objects e ++ [obj];
                 objectMap := <[o_id obj := r]> (objectMap e);
                 constraints := constraints e; time := time e; logs := logs e;
                 draggedObj := draggedObj e; fluidSystem := fluidSystem e |} |},
   Ok r).

(** [add] for a type other than ['cloth']: lines 46 to 106. *)
Definition addShape (type : ShapeType) (config : SimObjectConfig) : M nat :=
  id <- generateId;;
  let obj := buildObject type config id in
  let obj := if decide (type = plane) then planeToBox obj else obj in
  r <- register (updateGeometry obj);;
  _ <- log ("Added " +:+ ShapeType_name type +:+ " [" +:+ o_id obj +:+ "]");;
  retM r.

Definition pushConstraint (c : Constraint) : M unit := fun w =>
  let e := this w in
  ({| idCounter := idCounter w;
      this := {| objects := objects e; objectMap := objectMap e;
                 constraints := constraints e ++ [c]; time := time e;
                 logs := logs e; draggedObj := draggedObj e;
                 fluidSystem := fluidSystem e |} |},
   Ok tt).

Definition connect (idA idB : string) (config : ConnectConfig) : M unit := fun w =>
  let e := this w in
  match objectMap e !! idA ≫= (objects e !!.), objectMap e !! idB ≫= (objects e !!.) with
  | Some objA, Some objB =>
      let dist := Vec2.dist (pos objA) (pos objB) in
      (id <- generateId;;
       pushConstraint
         {| c_id := "c_" +:+ id; bodyA := idA; bodyB := idB;
            c_length := orElse (cc_length config) dist;
            stiffness := orElse (cc_stiffness config) (1/2);
            c_color := orElseStr (cc_color config) "#3498db" |}) w
  | _, _ => (w, Ok tt)
  end.

(** Loops with a body that assigns and may throw. *)
Fixpoint forM {A B} (l : list A) (f : A -> M B) : M (list B) :=
  match l with
  | [] => retM []
  | a :: l' => b <- f a;; bs <- forM l' f;; retM (b :: bs)
  end.

(** The number of iterations of [for (let k = 0; k <= n; k++)]. *)
Definition upto (n : R) : nat := Z.to_nat (Int_part n + 1).

(** Reading a property of an object through a reference. *)
Definition deref (r : nat) : M SimObject := fun w =>
  match objects (this w) !! r with
  | Some o => (w, Ok o)
  | None => (w, Throw TypeError)
  end.

(** [connect(ids[i], ids[j], ..)] where an index past the end of the row
    yields [undefined], which [objectMap.get] does not find. *)
Definition connectTo (idA : string) (idB : option string) (config : ConnectConfig)
  : M unit :=
  match idB with
  | Some b => connect idA b config
  | None => retM tt
  end.

(** [a && b] on an optional boolean and a boolean: [a] when [a] is falsy. *)
Definition andAlso (a : option bool) (b : bool) : option bool :=
  if truthy a then Some b else a.

Definition addCloth (config : SimObjectConfig) : M (option nat) :=
  let segX := orElse (cfg_segmentsX config) 10 in
  let segY := orElse (cfg_segmentsY config) 10 in
  let w := orElse (cfg_width config) 4 in
  let h := orElse (cfg_height config) 4 in
  let startX := orElse (cfg_x config) 0 - w / 2 in
  let startY := orElse (cfg_y config) 0 + h / 2 in
  let dx := w / segX in
  let dy := h / segY in
  let particleRadius := 1 / 10 in
  grid <- forM (seq 0 (upto segY)) (fun gy =>
    forM (seq 0 (upto segX)) (fun gx =>
      let isFixed := andAlso (cfg_pinTop config) (bool_decide (gy = 0%nat)) in
      p <- addShape circle
            {| cfg_mass := Some (1 / 10); cfg_material := Some cloth_mat;
               cfg_x := Some (startX + INR gx * dx);
               cfg_y := Some (startY - INR gy * dy);
               cfg_width := None; cfg_height := None;
               cfg_radius := Some particleRadius; cfg_fixed := isFixed;
               cfg_color := Some (orElseStr (cfg_color config) "#e67e22");
               cfg_vx := None; cfg_vy := None; cfg_angle := None;
               cfg_segmentsX := None; cfg_segmentsY := None;
               cfg_pinTop := None |};;
      o <- deref p;;
      retM (o_id o)));;
  let stiffness := 8 / 10 in
  let cc := {| cc_length := None; cc_stiffness := Some stiffness;
               cc_color := Some "#d35400" |} in
  _ <- forM (seq 0 (upto segY)) (fun gy =>
    forM (seq 0 (upto segX)) (fun gx =>
      match (grid : list (list string)) !! gy ≫= (fun row : list string => row !! gx) with
      | None => throw TypeError
      | Some here =>
          _ <- (if decide (INR gx < segX)
               then connectTo here
                      ((grid : list (list string)) !! gy
                         ≫= (fun row : list string => row !! S gx)) cc
               else retM tt);;
          if decide (INR gy < segY) then
            match (grid : list (list string)) !! S gy with
            | None => throw TypeError
            | Some below => connectTo here ((below : list string) !! gx) cc
            end
          else retM tt
      end));;
  match (grid : list (list string)) !! 0%nat with
  | None => throw TypeError
  | Some row0 =>
      fun w : World =>
        (w, Ok ((row0 : list string) !! 0%nat
                  ≫= (fun id : string => objectMap (this w) !! id)))
  end.

Definition add (type : ShapeType) (config : SimObjectConfig) : M (option nat) :=
  if decide (type = cloth) then addCloth config
  else r <- addShape type config;; retM (Some r).

(** [applyForces], [integrate]: the body of the [forEach], for the object in
    slot [i]; [obj === this.draggedObj] compares references. *)
Definition applyForces1 (dragged : option nat) (i : nat) (obj : SimObject) : SimObject :=
  if fixed obj || bool_decide (dragged = Some i) then obj
  else
    let fy := - GRAVITY * mass obj in
    set_force (mkV (x (force obj) - x (vel obj) * (1/100))
                   (fy - y (vel obj) * (1/100))) obj.

Definition applyForces (dragged : option nat) (h : Store) : Store :=
  imap (applyForces1 dragged) h.

Definition integrate1 (dragged : option nat) (dt : R) (i : nat) (obj : SimObject)
  : SimObject :=
  if fixed obj then obj
  else if bool_decide (dragged = Some i) then
    set_angles (angle obj) (angle obj) (set_oldPos (pos obj) obj)
  else
    let vel := Vec2.sub (pos obj) (oldPos obj) in
    let tempPos := pos obj in
    let acc := Vec2.mul (force obj) (invMass obj) in
    let delta := Vec2.add vel (Vec2.mul acc (dt * dt)) in
    let obj1 := set_oldPos tempPos (set_pos (Vec2.add (pos obj) delta) obj) in
    let obj2 := set_vel (Vec2.div (Vec2.sub (pos obj1) (oldPos obj1)) dt) obj1 in
    let obj3 := set_force (mkV 0 0) obj2 in
    let angVel := angle obj3 - oldAngle obj3 in
    let tempAngle := angle obj3 in
    set_angles (angle obj3 + angVel) tempAngle obj3.

Definition integrate (dragged : option nat) (dt : R) (h : Store) : Store :=
  imap (integrate1 dragged dt) h.

(** One pass of the sub-step loop of [step]. *)
Definition subStep (e : Engine) (h : Store) : result Store :=
  let subDt := DT / INR subSteps in
  let h1 := applyForces (draggedObj e) h in
  let h2 := integrate (draggedObj e) subDt h1 in
  let h3 := map updateGeometry h2 in
  let h4 := Nat.iter constraintIterations
              (ConstraintSystem.solve (constraints e) (objectMap e)) h3 in
  CollisionSystem.resolve h4.

Definition step (e : Engine) : result Engine :=
  rbind (Nat.iter subSteps (fun r => rbind r (subStep e)) (Ok (objects e)))
        (fun h =>
           Ok {| objects := h; objectMap := objectMap e;
                 constraints := constraints e; time := time e + DT;
                 logs := logs e; draggedObj := draggedObj e;
                 fluidSystem := FluidSystem.step DT GRAVITY (fluidSystem e) |}).

(** [n] calls of [step]. *)
Fixpoint steps (n : nat) (e : Engine) : result Engine :=
  match n with
  | O => Ok e
  | S k => rbind (step e) (steps k)
  end.

Definition hitTest (px py : R) (obj : SimObject) : bool :=
  let r := if decide (o_type obj = circle) then radius obj
           else Rmax (width obj) (height obj) / 2 in
  negb (fixed obj) && bool_decide (Vec2.dist (mkV px py) (pos obj) < r + 1/2).

Definition set_dragged (d : option nat) (e : Engine) : Engine :=
  {| objects := objects e; objectMap := objectMap e; constraints := constraints e;
     time := time e; logs := logs e; draggedObj := d;
     fluidSystem := fluidSystem e |}.

Definition set_objects (h : Store) (e : Engine) : Engine :=
  {| objects := h; objectMap := objectMap e; constraints := constraints e;
     time := time e; logs := logs e; draggedObj := draggedObj e;
     fluidSystem := fluidSystem e |}.

(** The newest object that passes the hit test: the loop runs from the last
    slot down. *)
Definition startDrag (px py : R) (e : Engine) : Engine :=
  match list_find (hitTest px py) (reverse (objects e)) with
  | Some (k, _) => set_dragged (Some (length (objects e) - 1 - k)%nat) e
  | None => e
  end.

Definition updateDrag (px py : R) (e : Engine) : Engine :=
  match draggedObj e with
  | Some r =>
      set_objects
        (alter (fun o =>
                  let dx := px - x (pos o) in
                  let dy := py - y (pos o) in
                  set_oldPos (mkV (px - dx * (1/10)) (py - dy * (1/10)))
                             (set_pos (mkV px py) o)) r (objects e)) e
  | None => e
  end.

Definition endDrag (e : Engine) : Engine := set_dragged None e.

Record SimulationState := {
  st_time : R;
  st_objects : list SimObject;
  st_constraints : list Constraint;
  st_particles : Texture;
  st_events : list LogLine
}.

Definition getState (e : Engine) : SimulationState :=
  {| st_time := time e; st_objects := objects e; st_constraints := constraints e;
     st_particles := FluidSystem.getParticles (fluidSystem e);
     st_events := logs e |}.

(** A scenario: the calls that a script makes on the scenario builder. *)
Inductive Call :=
  | CallAdd (type : ShapeType) (config : SimObjectConfig)
  | CallConnect (idA idB : string) (config : ConnectConfig).

Definition call (c : Call) : M unit :=
  match c with
  | CallAdd type config => _ <- add type config;; retM tt
  | CallConnect idA idB config => connect idA idB config
  end.

(** The calls are made in order; the first one that throws ends the run. *)
Fixpoint replay (cs : list Call) : M unit :=
  match cs with
  | [] => retM tt
  | c :: cs' => _ <- call c;; replay cs'
  end.

Definition Exn_name (e : Exn) : string :=
  match e with TypeError => "TypeError" | NonFinite => "NonFinite" end.

(** The [connect] of the script environment: [if (idA && idB) this.connect(..)]. *)
Definition proxyCall (c : Call) : M unit :=
  match c with
  | CallAdd type config => _ <- add type config;; retM tt
  | CallConnect idA idB config =>
      if bool_decide (idA = EmptyString) || bool_decide (idB = EmptyString)
      then retM tt
      else connect idA idB config
  end.

Fixpoint runScript (cs : list Call) : M unit :=
  match cs with
  | [] => retM tt
  | c :: cs' => _ <- proxyCall c;; runScript cs'
  end.

(** [parseAndExecute], for a script that makes the calls [cs] on its
    environment. *)
Definition parseAndExecute (cs : list Call) (w : World) : World :=
  match runScript cs (reset w) with
  | (w', Ok _) => w'
  | (w', Throw e) => (log ("Error: " +:+ Exn_name e) w').1
  end.

End PhysicsEngine.

(** ** Engine states *)

(** What the scenario builder reads and writes: everything but the fluid
    cloud. *)
Definition scene (w : World) :=
  (idCounter w, objects (this w), objectMap (this w), constraints (this w),
   time (this w), logs (this w), draggedObj (this w)).

(** The worlds that the public methods of one engine produce, from its
    construction on.  The identifier counter is a variable of the module,
    which the constructor and the methods of other engine instances assign
    between two calls ([reach_counter]). *)
Inductive reachable : World -> Prop :=
  | reach_new rnd c0 :
      (forall k, 0 <= rnd k < 1) -> reachable (PhysicsEngine.new rnd c0)
  | reach_reset w : reachable w -> reachable (PhysicsEngine.reset w)
  | reach_add w type config :
      reachable w -> reachable (PhysicsEngine.add type config w).1
  | reach_connect w idA idB config :
      reachable w -> reachable (PhysicsEngine.connect idA idB config w).1
  | reach_log w msg : reachable w -> reachable (PhysicsEngine.log msg w).1
  | reach_step w e' :
      reachable w -> PhysicsEngine.step (this w) = Ok e' ->
      reachable {| idCounter := idCounter w; this := e' |}
  | reach_startDrag w px py :
      reachable w ->
      reachable {| idCounter := idCounter w;
                   this := PhysicsEngine.startDrag px py (this w) |}
  | reach_updateDrag w px py :
      reachable w ->
      reachable {| idCounter := idCounter w;
                   this := PhysicsEngine.updateDrag px py (this w) |}
  | reach_endDrag w :
      reachable w ->
      reachable {| idCounter := idCounter w; this := PhysicsEngine.endDrag (this w) |}
  | reach_counter w n :
      reachable w -> reachable {| idCounter := n; this := this w |}.

(** What a sub-step leaves of an object: its kind, its [fixed] flag, its
    inverse mass and inertia, and the position of a fixed object. *)
Definition frame (o o' : SimObject) : Prop :=
  o_type o' = o_type o /\ fixed o' = fixed o /\
  invMass o' = invMass o /\ invInertia o' = invInertia o /\
  (fixed o = true -> pos o' = pos o).

(** The constraint solver and the collision resolution also leave the
    cached vertices. *)
Definition frameG (o o' : SimObject) : Prop :=
  frame o o' /\ vertices o' = vertices o.

(** Every body is a box or a circle, and a box has cached vertices. *)
Definition shape_ok (o : SimObject) : Prop :=
  o_type o = box \/ o_type o = circle.

Definition geom_ok (o : SimObject) : Prop :=
  shape_ok o /\
  (o_type o = box -> exists vs, vertices o = Some vs /\ vs <> []).

(** The invariant of a body of the data model. *)
Definition body_ok (o : SimObject) : Prop :=
  shape_ok o /\ (fixed o = true -> invMass o = 0 /\ invInertia o = 0).

(** A particle inside the domain of the fluid cloud. *)
Definition in_domain (p : vec4) : Prop := 0 <= Y p /\ -10 <= X p <= 10.

(** A method of the scenario builder neither reads nor writes the fluid
    cloud: from two worlds with the same scene it reaches two worlds with
    the same scene, with the same result. *)
Definition respects {A} (c : M A) : Prop :=
  forall w1 w2, scene w1 = scene w2 ->
    scene (c w1).1 = scene (c w2).1 /\ (c w1).2 = (c w2).2.

(** A method keeps a property of worlds, whether it returns or throws. *)
Definition preserves (P : World -> Prop) {A} (c : M A) : Prop :=
  forall w, P w -> P (c w).1.

(** The invariant of the worlds an engine reaches. *)
Definition Inv (w : World) : Prop :=
  Forall body_ok (objects (this w)) /\
  Forall in_domain (FluidSystem.getParticles (fluidSystem (this w))).

(** ** Example inputs *)

Module Examples.

(** A fresh engine: every [Math.random()] call returned 1/2. *)
Definition world0 : World := PhysicsEngine.new (fun _ => 1/2) 0.

(** [{ mass: m }] *)
Definition cfg_of_mass (m : R) : SimObjectConfig :=
  {| cfg_mass := Some m; cfg_material := None; cfg_x := None; cfg_y := None;
     cfg_width := None; cfg_height := None; cfg_radius := None;
     cfg_fixed := None; cfg_color := None; cfg_vx := None; cfg_vy := None;
     cfg_angle := None; cfg_segmentsX := None; cfg_segmentsY := None;
     cfg_pinTop := None |}.

(** [{ x: px, mass: m, radius: r }] *)
Definition cfg_circle (px m r : R) : SimObjectConfig :=
  {| cfg_mass := Some m; cfg_material := None; cfg_x := Some px; cfg_y := None;
     cfg_width := None; cfg_height := None; cfg_radius := Some r;
     cfg_fixed := None; cfg_color := None; cfg_vx := None; cfg_vy := None;
     cfg_angle := None; cfg_segmentsX := None; cfg_segmentsY := None;
     cfg_pinTop := None |}.

(** [{ length: l, stiffness: s }] *)
Definition cc_of (l s : option R) : ConnectConfig :=
  {| cc_length := l; cc_stiffness := s; cc_color := None |}.

(** Two circles of radius [r], mass [mA] and [mB], at [x = 0] and [x = d]:
    the script [add('circle', ..); add('circle', ..)] on a fresh engine. *)
Definition two_circles (d mA mB r : R) : World :=
  (PhysicsEngine.add circle (cfg_circle d mB r)
     (PhysicsEngine.add circle (cfg_circle 0 mA r) world0).1).1.

(** The two bodies that [two_circles] creates. *)
Definition circleA (mA r : R) : SimObject :=
  PhysicsEngine.updateGeometry
    (PhysicsEngine.buildObject circle (cfg_circle 0 mA r) "obj_1").

Definition circleB (d mB r : R) : SimObject :=
  PhysicsEngine.updateGeometry
    (PhysicsEngine.buildObject circle (cfg_circle d mB r) "obj_2").

(** [{ x: px }] and the box that [add('box', { x: px })] creates. *)
Definition cfg_at (px : R) : SimObjectConfig :=
  {| cfg_mass := None; cfg_material := None; cfg_x := Some px; cfg_y := None;
     cfg_width := None; cfg_height := None; cfg_radius := None;
     cfg_fixed := None; cfg_color := None; cfg_vx := None; cfg_vy := None;
     cfg_angle := None; cfg_segmentsX := None; cfg_segmentsY := None;
     cfg_pinTop := None |}.

Definition unitBox (px : R) (id : string) : SimObject :=
  PhysicsEngine.updateGeometry (PhysicsEngine.buildObject box (cfg_at px) id).

(** The manifold that detection returns for [circleA] and [circleB] of radius
    1/2 with centers 1/2 apart: normal (1, 0), depth 1/2. *)
Definition manifold01 : Manifold :=
  {| m_bodyA := 0; m_bodyB := 1; normal := mkV 1 0; depth := 1 / 2;
     hasCollision := true |}.

(** The script [add('plane', {})] on a fresh engine, and the floor it creates. *)
Definition floorWorld : World := (PhysicsEngine.add plane cfg0 world0).1.

Definition floor : SimObject :=
  PhysicsEngine.updateGeometry
    (PhysicsEngine.planeToBox (PhysicsEngine.buildObject plane cfg0 "obj_1")).

(** The registry of [two_circles], and the constraint that
    [connect('obj_1', 'obj_2', { length: l, stiffness: 1 })] appends to it. *)
Definition registry12 : gmap string nat :=
  <["obj_2" := 1%nat]> (<["obj_1" := 0%nat]> ∅).

Definition rod (l : R) : Constraint :=
  {| c_id := "c_obj_3"; bodyA := "obj_1"; bodyB := "obj_2"; c_length := l;
     stiffness := 1; c_color := "#3498db" |}.

End Examples.

(** ** The separating-axis test, in the words of the specification *)

Module SatSpec.

(** The projections of a vertex list onto an axis. *)
Definition projections (vs : list Vector2) (axis : Vector2) : list R :=
  map (fun v => Vec2.dot v axis) vs.

Definition is_min (m : R) (l : list R) : Prop := m ∈ l /\ forall z, z ∈ l -> m <= z.
Definition is_max (m : R) (l : list R) : Prop := m ∈ l /\ forall z, z ∈ l -> z <= m.

(** The two vertex sets have disjoint projections on the axis; projections
    that only touch (zero overlap) count as disjoint. *)
Definition disjoint_on (axis : Vector2) (vA vB : list Vector2) : Prop :=
  (forall p q, p ∈ projections vA axis -> q ∈ projections vB axis -> q <= p) \/
  (forall p q, p ∈ projections vA axis -> q ∈ projections vB axis -> p <= q).

(** [d] is the projected overlap of the two vertex sets on the axis. *)
Definition overlap_on (axis : Vector2) (vA vB : list Vector2) (d : R) : Prop :=
  exists minA maxA minB maxB,
    is_min minA (projections vA axis) /\ is_max maxA (projections vA axis) /\
    is_min minB (projections vB axis) /\ is_max maxB (projections vB axis) /\
    d = Rmin (maxB - minA) (maxA - minB).

(** [axis] is the axis of an edge of the polygon [vs]: for an edge from a
    vertex to the next one (the last vertex is followed by the first), the
    unit vector perpendicular to the edge, on the left of its direction; for
    an edge between two equal vertices, the zero vector. *)
Definition edge_axis (vs : list Vector2) (axis : Vector2) : Prop :=
  exists i v1 v2,
    vs !! i = Some v1 /\ vs !! ((i + 1) mod length vs)%nat = Some v2 /\
    ((x v2 - x v1 = 0 /\ y v2 - y v1 = 0) /\ axis = mkV 0 0 \/
     x axis * x axis + y axis * y axis = 1 /\
     x axis * (x v2 - x v1) + y axis * (y v2 - y v1) = 0 /\
     (x v2 - x v1) * y axis - (y v2 - y v1) * x axis > 0).

(** The running pair [(normal, depth)] holds a least overlap of the axes
    tested so far, and an axis that has it. *)
Definition least_overlap (ovl : Vector2 -> R) (axes : list Vector2)
    (st : Vector2 * option R) : Prop :=
  match st.2 with
  | None => axes = []
  | Some d => st.1 ∈ axes /\ d = ovl st.1 /\ forall ax, ax ∈ axes -> d <= ovl ax
  end.

End SatSpec.

(** ** Statements of the specification that the code does not meet *)

Module AsStated.
Import PhysicsEngine.

(** C5 as stated: a non-fixed body has mass [config.mass], 1 when the mass
    is not specified, and the inertia of a box or circle is given by the
    formula whatever the mass. *)
Definition C5 (type : ShapeType) (config : SimObjectConfig) (w : World) : Prop :=
  exists r o,
    (add type config w).2 = Ok (Some r) /\
    objects (this (add type config w).1) !! r = Some o /\
    mass o = (if truthy (cfg_fixed config) then 0
              else match cfg_mass config with Some m => m | None => 1 end) /\
    (invMass o = 0 <-> mass o = 0 \/ fixed o = true) /\
    (~ (mass o = 0 \/ fixed o = true) -> invMass o = 1 / mass o) /\
    inertia o = match type with
                | box => mass o * (width o * width o + height o * height o) / 12
                | circle => mass o * radius o * radius o / 2
                | _ => 0
                end /\
    (inertia o = 0 \/ fixed o = true -> invInertia o = 0) /\
    (~ (inertia o = 0 \/ fixed o = true) -> invInertia o = 1 / inertia o).

(** C6 as stated: the rest length is [config.length] whenever a length is
    supplied, the stiffness is [config.stiffness] whenever one is supplied. *)
Definition C6 (idA idB : string) (config : ConnectConfig) (w : World) : Prop :=
  forall a b A B,
    objectMap (this w) !! idA = Some a -> objects (this w) !! a = Some A ->
    objectMap (this w) !! idB = Some b -> objects (this w) !! b = Some B ->
    exists c,
      constraints (this (connect idA idB config w).1) = constraints (this w) ++ [c] /\
      c_length c = match cc_length config with
                   | Some l => l
                   | None => Vec2.dist (pos A) (pos B)
                   end /\
      stiffness c = match cc_stiffness config with
                    | Some s => s
                    | None => 1 / 2
                    end.

(** C10 as stated, for two circles: no collision when the distance of the
    centers exceeds the sum of the radii; otherwise a collision along the
    unit direction between the centers, of depth the sum minus the
    distance; for concentric circles a collision along a fixed unit normal,
    of depth the sum. *)
Definition C10 (a : nat) (A : SimObject) (b : nat) (B : SimObject) : Prop :=
  let d := Vec2.dist (pos A) (pos B) in
  let rs := radius A + radius B in
  exists m,
    CollisionSystem.detectCollision a A b B = Ok (Some m) /\
    (d > rs -> hasCollision m = false) /\
    (d <= rs -> d <> 0 ->
       hasCollision m = true /\
       normal m = Vec2.div (Vec2.sub (pos B) (pos A)) d /\
       Vec2.len (normal m) = 1 /\ depth m = rs - d) /\
    (d = 0 ->
       hasCollision m = true /\ normal m = mkV 1 0 /\ depth m = rs).

(** C2 as stated, for a manifold and the store that holds its bodies. *)
Definition C2 (m : Manifold) (h : Store) : Prop :=
  forall A B,
    h !! m_bodyA m = Some A -> h !! m_bodyB m = Some B ->
    let sum := invMass A + invMass B in
    (sum = 0 -> CollisionSystem.applyResolution m h = h) /\
    (sum <> 0 ->
       exists A' B',
         CollisionSystem.applyResolution m h !! m_bodyA m = Some A' /\
         CollisionSystem.applyResolution m h !! m_bodyB m = Some B' /\
         let dA := Vec2.sub (pos A') (pos A) in
         let dB := Vec2.sub (pos B') (pos B) in
         (fixed A = false ->
            dA = Vec2.mul (normal m) (- (depth m * (invMass A / sum)))) /\
         (fixed B = false ->
            dB = Vec2.mul (normal m) (depth m * (invMass B / sum))) /\
         Vec2.dot dA dB <= 0 /\
         Vec2.len dA + Vec2.len dB = depth m).

(** C4 as stated, the convergence part: for a constraint of stiffness 1
    between two non-fixed bodies, the distance of the bodies comes within
    every epsilon of the rest length after a bounded number of passes. *)
Definition C4 (c : Constraint) (objs : gmap string nat) (h : Store) : Prop :=
  forall a b A B,
    objs !! bodyA c = Some a -> objs !! bodyB c = Some b -> a <> b ->
    h !! a = Some A -> h !! b = Some B ->
    stiffness c = 1 -> fixed A = false -> fixed B = false ->
    forall eps, eps > 0 ->
    exists N, forall n, (N <= n)%nat ->
      exists A' B',
        Nat.iter n (ConstraintSystem.solve [c] objs) h !! a = Some A' /\
        Nat.iter n (ConstraintSystem.solve [c] objs) h !! b = Some B' /\
        Rabs (Vec2.dist (pos A') (pos B') - c_length c) < eps.

End AsStated.

(** ** Shapes and relations used to state further properties *)

(** The corners of an axis-aligned rectangle, in the order in which
    [updateGeometry] lists the corners of a box. *)
Definition rect (x0 x1 y0 y1 : R) : list Vector2 :=
  [mkV x0 y0; mkV x1 y0; mkV x1 y1; mkV x0 y1].

(** The four edge axes of such a rectangle. *)
Definition rectAxes : list Vector2 := [mkV 0 1; mkV (-1) 0; mkV 0 (-1); mkV 1 0].

(** The interval that a circle covers on an axis and the projections of a
    vertex list are disjoint, or only touch. *)
Definition circle_disjoint_on (axis : Vector2) (C : SimObject) (vP : list Vector2)
  : Prop :=
  (forall q, q ∈ SatSpec.projections vP axis ->
             q <= Vec2.dot (pos C) axis - radius C) \/
  (forall q, q ∈ SatSpec.projections vP axis ->
             Vec2.dot (pos C) axis + radius C <= q).

(** [d] is the overlap of the circle's interval and the projections. *)
Definition circle_overlap_on (axis : Vector2) (C : SimObject) (vP : list Vector2)
    (d : R) : Prop :=
  exists minB maxB,
    SatSpec.is_min minB (SatSpec.projections vP axis) /\
    SatSpec.is_max maxB (SatSpec.projections vP axis) /\
    d = Rmin (maxB - (Vec2.dot (pos C) axis - radius C))
             (Vec2.dot (pos C) axis + radius C - minB).

(** The fields of a body that describe what it is, as opposed to where it
    is and how it moves. *)
Definition statics (o : SimObject) :=
  (o_id o, o_type o, mass o, invMass o, inertia o, invInertia o,
   restitution o, friction o, width o, height o, radius o, fixed o, color o).

(** What a step keeps of a body: its static fields and, when the body does
    not turn ([angle = oldAngle]), its orientation. *)
Definition keeps (o o' : SimObject) : Prop :=
  statics o' = statics o /\
  (angle o = oldAngle o -> angle o' = angle o /\ oldAngle o' = angle o).

(** Every entry of the registry refers to a body of the list, which carries
    the identifier it is filed under. *)
Definition registry_ok (e : Engine) : Prop :=
  forall id r, objectMap e !! id = Some r ->
               exists o, objects e !! r = Some o /\ o_id o = id.

(** Both ends of every constraint are in the registry. *)
Definition constraints_ok (e : Engine) : Prop :=
  Forall (fun c => is_Some (objectMap e !! bodyA c) /\
                   is_Some (objectMap e !! bodyB c)) (constraints e).

(** The dragged body, if any, is a body of the list that is not fixed. *)
Definition drag_ok (e : Engine) : Prop :=
  forall r, draggedObj e = Some r ->
            exists o, objects e !! r = Some o /\ fixed o = false.

(** Further invariants of the worlds an engine reaches. *)
Definition Wf (w : World) : Prop :=
  (length (logs (this w)) <= 50)%nat /\
  registry_ok (this w) /\ constraints_ok (this w) /\ drag_ok (this w) /\
  Forall (fun o => angle o = oldAngle o) (objects (this w)) /\
  length (tex_in (FluidSystem.posState (fluidSystem (this w))))
    = (FluidSystem.TEX_WIDTH * FluidSystem.TEX_HEIGHT)%nat /\
  length (tex_in (FluidSystem.velState (fluidSystem (this w))))
    = (FluidSystem.TEX_WIDTH * FluidSystem.TEX_HEIGHT)%nat.

(** The identifiers of the bodies were drawn from the counter, no two
    bodies share one, and the registry files every body under its own. *)
Definition ids_ok (w : World) : Prop :=
  (forall o, o ∈ objects (this w) ->
             exists k, o_id o = "obj_" +:+ pretty k /\ (k <= idCounter w)%nat) /\
  NoDup (map o_id (objects (this w))) /\
  (forall r o, objects (this w) !! r = Some o ->
               objectMap (this w) !! o_id o = Some r).

(** The two loop bodies of [addCloth]: the creation of the particle of row
    [gy] and column [gx], which yields its identifier, and the links of that
    particle to its right and lower neighbours. *)
Definition clothParticle (config : SimObjectConfig) (gy gx : nat) : M string :=
  let segX := orElse (cfg_segmentsX config) 10 in
  let segY := orElse (cfg_segmentsY config) 10 in
  let w := orElse (cfg_width config) 4 in
  let h := orElse (cfg_height config) 4 in
  let startX := orElse (cfg_x config) 0 - w / 2 in
  let startY := orElse (cfg_y config) 0 + h / 2 in
  let dx := w / segX in
  let dy := h / segY in
  let isFixed := PhysicsEngine.andAlso (cfg_pinTop config) (bool_decide (gy = 0%nat)) in
  p <- PhysicsEngine.addShape circle
        {| cfg_mass := Some (1 / 10); cfg_material := Some cloth_mat;
           cfg_x := Some (startX + INR gx * dx);
           cfg_y := Some (startY - INR gy * dy);
           cfg_width := None; cfg_height := None;
           cfg_radius := Some (1 / 10); cfg_fixed := isFixed;
           cfg_color := Some (orElseStr (cfg_color config) "#e67e22");
           cfg_vx := None; cfg_vy := None; cfg_angle := None;
           cfg_segmentsX := None; cfg_segmentsY := None;
           cfg_pinTop := None |};;
  o <- PhysicsEngine.deref p;;
  retM (o_id o).

Definition clothConfig : ConnectConfig :=
  {| cc_length := None; cc_stiffness := Some (8 / 10); cc_color := Some "#d35400" |}.

Definition clothLinks (config : SimObjectConfig) (grid : list (list string))
    (gy gx : nat) : M unit :=
  let segX := orElse (cfg_segmentsX config) 10 in
  let segY := orElse (cfg_segmentsY config) 10 in
  match grid !! gy ≫= (fun row : list string => row !! gx) with
  | None => throw TypeError
  | Some here =>
      _ <- (if decide (INR gx < segX)
           then PhysicsEngine.connectTo here
                  (grid !! gy ≫= (fun row : list string => row !! S gx)) clothConfig
           else retM tt);;
      if decide (INR gy < segY) then
        match grid !! S gy with
        | None => throw TypeError
        | Some below => PhysicsEngine.connectTo here ((below : list string) !! gx) clothConfig
        end
      else retM tt
  end.

(** The state of the world while [addCloth] runs on [w0]: [nb] particles
    and [nc] links were appended, and every identifier of [ids] is filed
    in the registry under a body of the list. *)
Definition cloth_state (w0 : World) (nb nc : nat) (ids : list string) (w : World)
  : Prop :=
  (exists news, objects (this w) = objects (this w0) ++ news /\ length news = nb /\
                Forall (fun o => o_type o = circle /\ radius o = 1 / 10) news) /\
  (exists newc, constraints (this w) = constraints (this w0) ++ newc /\
                length newc = nc /\
                Forall (fun c => stiffness c = 8 / 10) newc) /\
  (forall id, id ∈ ids ->
     exists r o, objectMap (this w) !! id = Some r /\ objects (this w) !! r = Some o).

(** [{ x: px, vx: vx, vy: vy }], and the circle that
    [add('circle', { x: px, vx: vx, vy: vy })] creates under the identifier
    [id]. *)
Definition cfg_moving (px vx vy : R) : SimObjectConfig :=
  {| cfg_mass := None; cfg_material := None; cfg_x := Some px; cfg_y := None;
     cfg_width := None; cfg_height := None; cfg_radius := None;
     cfg_fixed := None; cfg_color := None; cfg_vx := Some vx; cfg_vy := Some vy;
     cfg_angle := None; cfg_segmentsX := None; cfg_segmentsY := None;
     cfg_pinTop := None |}.

Definition movingCircle (px vx vy : R) (id : string) : SimObject :=
  PhysicsEngine.updateGeometry
    (PhysicsEngine.buildObject circle (cfg_moving px vx vy) id).

(** ** Proof automation *)

(** Case analysis on every decision of the goal and the hypotheses, closed by
    linear real arithmetic. *)
Ltac Rdecide := repeat (case_decide || case_bool_decide); try lra; try congruence.

(** Case analysis on the decisions of the goal, innermost first, dropping the
    cases that the hypotheses contradict. *)
Ltac decide_lra :=
  repeat match goal with
         | |- context [decide ?P] =>
             lazymatch P with
             | context [@decide] => fail
             | _ => destruct (decide P); try lra
             end
         end.

(** * Verification *)

(** ** Numbers and vectors *)

Lemma orElse_None d : orElse None d = d.
Proof. reflexivity. Qed.

Lemma orElse_zero d : orElse (Some 0) d = d.
Proof. unfold orElse. case_decide; [reflexivity | contradiction]. Qed.

Lemma orElse_supplied r d : r <> 0 -> orElse (Some r) d = r.
Proof. intros Hr. unfold orElse. case_decide; [contradiction | reflexivity]. Qed.

Lemma orElse_nonzero v d : d <> 0 -> orElse v d <> 0.
Proof. intros Hd. destruct v as [r|]; simpl; [case_decide|]; assumption. Qed.

Lemma Vector2_eq (u v : Vector2) : x u = x v -> y u = y v -> u = v.
Proof. destruct u, v; simpl; intros -> ->; reflexivity. Qed.

(** ** The scenario builder: [add] and [connect] *)

Section Builder.
Import PhysicsEngine.

Lemma updateGeometry_mass_fields o :
  mass (updateGeometry o) = mass o /\ invMass (updateGeometry o) = invMass o /\
  inertia (updateGeometry o) = inertia o /\
  invInertia (updateGeometry o) = invInertia o /\
  fixed (updateGeometry o) = fixed o /\ o_type (updateGeometry o) = o_type o /\
  pos (updateGeometry o) = pos o /\ width (updateGeometry o) = width o /\
  height (updateGeometry o) = height o /\ radius (updateGeometry o) = radius o.
Proof. unfold updateGeometry. case_decide; simpl; repeat split; reflexivity. Qed.

(** What [addShape] does to the world, in one equation. *)
Lemma addShape_eq type config w :
  let id := "obj_" +:+ pretty (S (idCounter w)) in
  let obj0 := buildObject type config id in
  let obj := updateGeometry (if decide (type = plane) then planeToBox obj0 else obj0) in
  addShape type config w =
    ({| idCounter := S (idCounter w);
        this := {| objects := objects (this w) ++ [obj];
                   objectMap := <[o_id obj := length (objects (this w))]> (objectMap (this w));
                   constraints := constraints (this w); time := time (this w);
                   logs := log_lines (logs (this w)) (time (this w))
                             ("Added " +:+ ShapeType_name type +:+ " [" +:+ id +:+ "]");
                   draggedObj := draggedObj (this w);
                   fluidSystem := fluidSystem (this w) |} |},
     Ok (length (objects (this w)))).
Proof.
  unfold addShape, bindM, generateId, register, log, retM; simpl.
  repeat f_equal. case_decide; reflexivity.
Qed.

Lemma addShape_creates type config w :
  let id := "obj_" +:+ pretty (S (idCounter w)) in
  let obj0 := buildObject type config id in
  let obj := updateGeometry (if decide (type = plane) then planeToBox obj0 else obj0) in
  objects (this (addShape type config w).1) !! length (objects (this w)) = Some obj.
Proof.
  intros. rewrite addShape_eq. simpl.
  rewrite lookup_app_r by lia. rewrite Nat.sub_diag. reflexivity.
Qed.

End Builder.

Section MassProperties.
Import PhysicsEngine.

Lemma add_shape type config w :
  type <> cloth ->
  add type config w =
    ((addShape type config w).1, Ok (Some (length (objects (this w))))).
Proof.
  intros Hty. unfold add. case_decide; [contradiction|].
  unfold bindM. rewrite addShape_eq. reflexivity.
Qed.

(** C5, as amended: the mass properties that [add] derives for a box or a
    circle.  The mass is 0 for a fixed body and otherwise the configured
    mass, where a missing mass and the mass 0 both give 1; [invMass] is 0
    exactly when the mass is 0 or the body is fixed, and [1/mass] otherwise;
    the inertia follows the box and circle formulas when the mass is
    positive and is 0 otherwise; [invInertia] is 0 when the inertia is 0 or
    the body is fixed, and [1/inertia] otherwise. *)
Theorem C5_add_mass_properties (type : ShapeType) (config : SimObjectConfig) (w : World) :
  type = box \/ type = circle ->
  exists r o,
    (add type config w).2 = Ok (Some r) /\
    objects (this (add type config w).1) !! r = Some o /\
    o_type o = type /\
    fixed o = truthy (cfg_fixed config) /\
    mass o = (if fixed o then 0
              else match cfg_mass config with
                   | Some m => if decide (m = 0) then 1 else m
                   | None => 1
                   end) /\
    (invMass o = 0 <-> mass o = 0 \/ fixed o = true) /\
    (~ (mass o = 0 \/ fixed o = true) -> invMass o = 1 / mass o) /\
    inertia o = (if decide (mass o > 0) then
                   match type with
                   | box => mass o * (width o * width o + height o * height o) / 12
                   | circle => mass o * radius o * radius o / 2
                   | _ => 0
                   end
                 else 0) /\
    (inertia o = 0 \/ fixed o = true -> invInertia o = 0) /\
    (~ (inertia o = 0 \/ fixed o = true) -> invInertia o = 1 / inertia o).
Proof.
  intros Hty.
  assert (Hnc : type <> cloth) by (destruct Hty; subst; discriminate).
  assert (Hnp : type <> plane) by (destruct Hty; subst; discriminate).
  exists (length (objects (this w))).
  eexists. rewrite (add_shape _ _ _ Hnc). simpl.
  split; [reflexivity|]. split; [apply addShape_creates|].
  destruct (decide (type = plane)) as [|_]; [contradiction|].
  set (o := buildObject type config _).
  destruct (updateGeometry_mass_fields o)
    as (-> & -> & -> & -> & -> & -> & _ & -> & -> & ->).
  subst o. unfold buildObject; simpl.
  set (m := if truthy (cfg_fixed config) then 0 else orElse (cfg_mass config) 1).
  assert (Hm : truthy (cfg_fixed config) = true -> m = 0)
    by (intros Hf; subst m; rewrite Hf; reflexivity).
  split; [reflexivity|]. split; [reflexivity|].
  split. { subst m. destruct (truthy (cfg_fixed config)); reflexivity. }
  split.
  { split.
    - intros Hinv. left. destruct (decide (m = 0)) as [H0|H0]; [exact H0|].
      exfalso. apply (Rinv_neq_0_compat m H0). lra.
    - intros [H0 | Hf]; [|apply Hm in Hf];
        destruct (decide (m = 0)); try reflexivity; contradiction. }
  split.
  { intros Hn. destruct (decide (m = 0)); [|reflexivity].
    exfalso; apply Hn; left; assumption. }
  split.
  { destruct Hty; subst type; repeat case_decide; try reflexivity; try discriminate;
      try contradiction. }
  split.
  { intros [Hi | Hf].
    - rewrite Hi. rewrite bool_decide_eq_true_2 by reflexivity. reflexivity.
    - rewrite Hf. rewrite orb_true_r. reflexivity. }
  intros Hn. case_bool_decide as Hi; simpl.
  - exfalso; apply Hn; left; exact Hi.
  - destruct (truthy (cfg_fixed config)); [exfalso; apply Hn; right|]; reflexivity.
Qed.

Lemma C5_add_mass_properties_witness :
  (box = box \/ box = circle) /\
  exists r o,
    (add box (Examples.cfg_of_mass 10) Examples.world0).2 = Ok (Some r) /\
    objects (this (add box (Examples.cfg_of_mass 10) Examples.world0).1) !! r = Some o /\
    o_type o = box /\ fixed o = false /\ mass o = 10.
Proof.
  split; [left; reflexivity|].
  destruct (C5_add_mass_properties box (Examples.cfg_of_mass 10) Examples.world0
              (or_introl eq_refl))
    as (r & o & Hr & Ho & Hty & Hfx & Hm & _).
  exists r, o. repeat split; try assumption.
  rewrite Hm, Hfx. simpl. destruct (decide (10 = 0)); lra.
Defined.

End MassProperties.

Section BuilderFacts.
Import PhysicsEngine.

(** The body that [add] creates for a box or a circle. *)
Lemma add_created type config w :
  type <> cloth -> type <> plane ->
  forall r o,
    (add type config w).2 = Ok (Some r) ->
    objects (this (add type config w).1) !! r = Some o ->
    o = updateGeometry (buildObject type config ("obj_" +:+ pretty (S (idCounter w)))).
Proof.
  intros Hc Hp r o. rewrite (add_shape _ _ _ Hc). cbn [fst snd].
  intros [= <-]. rewrite addShape_creates.
  destruct (decide (type = plane)); [contradiction|]. intros [= <-]. reflexivity.
Qed.

(** C5, counterexample: [add('box', { mass: 0 })] creates a body of mass 1,
    not of the configured mass 0; and [add('box', { mass: -1 })] creates a
    body of inertia 0, not [mass * (w*w + h*h) / 12 = -1/6]. *)
Lemma C5_counterexample :
  ~ AsStated.C5 box (Examples.cfg_of_mass 0) Examples.world0 /\
  ~ AsStated.C5 box (Examples.cfg_of_mass (-1)) Examples.world0.
Proof.
  split; intros (r & o & Hr & Ho & Hm & _ & _ & Hi & _);
    apply add_created in Ho; try discriminate; try exact Hr; subst o;
    destruct (updateGeometry_mass_fields
       (buildObject box (Examples.cfg_of_mass 0)
          ("obj_" +:+ pretty (S (idCounter Examples.world0)))))
      as (Em & _ & Ei & _ & _ & _ & _ & Ew & Eh & _);
    destruct (updateGeometry_mass_fields
       (buildObject box (Examples.cfg_of_mass (-1))
          ("obj_" +:+ pretty (S (idCounter Examples.world0)))))
      as (Em' & _ & Ei' & _ & _ & _ & _ & Ew' & Eh' & _).
  - rewrite Em in Hm. simpl in Hm. Rdecide.
  - rewrite Ei', Em', Ew', Eh' in Hi. simpl in Hi. Rdecide.
Qed.

End BuilderFacts.

Section Connect.
Import PhysicsEngine.

(** What [connect] does when both bodies are found. *)
Lemma connect_found idA idB config w a b A B :
  objectMap (this w) !! idA = Some a -> objects (this w) !! a = Some A ->
  objectMap (this w) !! idB = Some b -> objects (this w) !! b = Some B ->
  connect idA idB config w =
    ({| idCounter := S (idCounter w);
        this := {| objects := objects (this w); objectMap := objectMap (this w);
                   constraints := constraints (this w) ++
                     [ {| c_id := "c_" +:+ ("obj_" +:+ pretty (S (idCounter w)));
                          bodyA := idA; bodyB := idB;
                          c_length := orElse (cc_length config)
                                        (Vec2.dist (pos A) (pos B));
                          stiffness := orElse (cc_stiffness config) (1/2);
                          c_color := orElseStr (cc_color config) "#3498db" |} ];
                   time := time (this w); logs := logs (this w);
                   draggedObj := draggedObj (this w);
                   fluidSystem := fluidSystem (this w) |} |},
     Ok tt).
Proof.
  intros Ha HA Hb HB. unfold connect.
  rewrite Ha, Hb. simpl. rewrite HA, HB. reflexivity.
Qed.

(** C6, as amended: when both bodies exist, [connect] appends one constraint
    between them; its rest length is [config.length] when a non-zero length
    is supplied, and otherwise (no length, or the length 0) the distance of
    the two positions at the time of the call; its stiffness is
    [config.stiffness] when a non-zero stiffness is supplied, and 0.5
    otherwise (no stiffness, or the stiffness 0). *)
Theorem C6_connect_rest_length (idA idB : string) (config : ConnectConfig)
    (w : World) (a b : nat) (A B : SimObject) :
  objectMap (this w) !! idA = Some a -> objects (this w) !! a = Some A ->
  objectMap (this w) !! idB = Some b -> objects (this w) !! b = Some B ->
  exists c,
    (connect idA idB config w).2 = Ok tt /\
    constraints (this (connect idA idB config w).1) = constraints (this w) ++ [c] /\
    bodyA c = idA /\ bodyB c = idB /\
    c_length c = match cc_length config with
                 | Some l => if decide (l = 0) then Vec2.dist (pos A) (pos B) else l
                 | None => Vec2.dist (pos A) (pos B)
                 end /\
    stiffness c = match cc_stiffness config with
                  | Some s => if decide (s = 0) then 1 / 2 else s
                  | None => 1 / 2
                  end.
Proof.
  intros Ha HA Hb HB.
  rewrite (connect_found _ _ config _ _ _ _ _ Ha HA Hb HB). cbn [fst snd this constraints].
  eexists. split; [reflexivity|]. split; [reflexivity|].
  repeat split.
Qed.

Lemma id_obj_1 : "obj_" +:+ pretty 1%nat = "obj_1".
Proof. vm_compute. reflexivity. Qed.

Lemma id_obj_2 : "obj_" +:+ pretty 2%nat = "obj_2".
Proof. vm_compute. reflexivity. Qed.

(** The registry after the two [add] calls of [Examples.two_circles]. *)
Lemma two_circles_registry d mA mB r :
  let w := Examples.two_circles d mA mB r in
  objects (this w) = [Examples.circleA mA r; Examples.circleB d mB r] /\
  objectMap (this w) !! "obj_1" = Some 0%nat /\
  objectMap (this w) !! "obj_2" = Some 1%nat /\
  constraints (this w) = [] /\ idCounter w = 2%nat /\
  objectMap (this w) = <["obj_2" := 1%nat]> (<["obj_1" := 0%nat]> ∅).
Proof.
  unfold Examples.two_circles.
  rewrite !add_shape by discriminate. cbn [fst snd].
  rewrite !addShape_eq. cbn [fst snd this objects objectMap constraints idCounter].
  change (idCounter Examples.world0) with 0%nat.
  rewrite id_obj_1, id_obj_2.
  repeat (destruct (decide (circle = plane)) as [?|_]; [discriminate|]).
  repeat split.
Qed.

Lemma two_circles_dist d mA mB r :
  0 < d ->
  Vec2.dist (pos (Examples.circleA mA r)) (pos (Examples.circleB d mB r)) = d.
Proof.
  intros Hd. unfold Vec2.dist, Examples.circleA, Examples.circleB.
  destruct (updateGeometry_mass_fields
              (buildObject circle (Examples.cfg_circle 0 mA r) "obj_1"))
    as (_ & _ & _ & _ & _ & _ & -> & _).
  destruct (updateGeometry_mass_fields
              (buildObject circle (Examples.cfg_circle d mB r) "obj_2"))
    as (_ & _ & _ & _ & _ & _ & -> & _).
  unfold buildObject. cbn [pos x y cfg_x cfg_y Examples.cfg_circle].
  rewrite orElse_zero, orElse_None.
  rewrite (orElse_supplied d) by lra.
  replace ((0 - d) ^ 2 + (0 - 0) ^ 2) with (d * d) by ring.
  apply sqrt_square. lra.
Qed.

(** C6, counterexample: between two bodies 3 apart, [connect] with
    [{ length: 0 }] creates a constraint of rest length 3, not 0; and with
    [{ stiffness: 0 }] it creates a constraint of stiffness 0.5, not 0. *)
Lemma C6_counterexample :
  ~ AsStated.C6 "obj_1" "obj_2" (Examples.cc_of (Some 0) None)
      (Examples.two_circles 3 1 1 (1/2)) /\
  ~ AsStated.C6 "obj_1" "obj_2" (Examples.cc_of None (Some 0))
      (Examples.two_circles 3 1 1 (1/2)).
Proof.
  destruct (two_circles_registry 3 1 1 (1/2)) as (Hobjs & H1 & H2 & Hcs & _).
  cbv zeta in Hobjs.
  split; intros Hclaim.
  - edestruct Hclaim as (c & Hc & Hlen & _); [exact H1 | rewrite Hobjs; reflexivity
      | exact H2 | rewrite Hobjs; reflexivity |].
    erewrite connect_found in Hc;
      [| exact H1 | rewrite Hobjs; reflexivity | exact H2 | rewrite Hobjs; reflexivity].
    cbn [fst this constraints] in Hc. apply app_inj_tail in Hc as [_ <-].
    cbn [c_length cc_length Examples.cc_of] in Hlen.
    rewrite orElse_zero in Hlen. rewrite two_circles_dist in Hlen; lra.
  - edestruct Hclaim as (c & Hc & _ & Hst); [exact H1 | rewrite Hobjs; reflexivity
      | exact H2 | rewrite Hobjs; reflexivity |].
    erewrite connect_found in Hc;
      [| exact H1 | rewrite Hobjs; reflexivity | exact H2 | rewrite Hobjs; reflexivity].
    cbn [fst this constraints] in Hc. apply app_inj_tail in Hc as [_ <-].
    cbn [stiffness cc_stiffness Examples.cc_of] in Hst.
    rewrite orElse_zero in Hst. lra.
Qed.

Lemma C6_connect_rest_length_witness :
  exists c,
    constraints (this (connect "obj_1" "obj_2" (Examples.cc_of (Some 2) None)
                         (Examples.two_circles 3 1 1 (1/2))).1) = [c] /\
    c_length c = 2 /\ stiffness c = 1 / 2.
Proof.
  destruct (two_circles_registry 3 1 1 (1/2)) as (Hobjs & H1 & H2 & Hcs & _).
  cbv zeta in Hobjs.
  edestruct (C6_connect_rest_length "obj_1" "obj_2" (Examples.cc_of (Some 2) None)
               (Examples.two_circles 3 1 1 (1/2)) 0 1)
    as (c & _ & Hc & _ & _ & Hlen & Hst);
    [exact H1 | rewrite Hobjs; reflexivity | exact H2 | rewrite Hobjs; reflexivity |].
  exists c. rewrite Hc, Hcs. split; [reflexivity|].
  cbn [cc_length cc_stiffness Examples.cc_of] in Hlen, Hst.
  split; [|exact Hst]. rewrite Hlen. destruct (decide (2 = 0)); [lra | reflexivity].
Defined.

(** C7: [connect] with an identifier that the registry does not hold returns
    normally and leaves the whole world as it was: the constraint list, every
    body, the identifier counter and every other field of the engine. *)
Theorem C7_connect_unknown_noop (idA idB : string) (config : ConnectConfig) (w : World) :
  objectMap (this w) !! idA = None \/ objectMap (this w) !! idB = None ->
  connect idA idB config w = (w, Ok tt).
Proof.
  intros [H | H]; unfold connect; rewrite H; simpl.
  - reflexivity.
  - destruct (objectMap (this w) !! idA ≫= _); reflexivity.
Qed.

Lemma C7_connect_unknown_noop_witness :
  connect "obj_1" "obj_7" (Examples.cc_of None None) (Examples.two_circles 3 1 1 (1/2))
  = (Examples.two_circles 3 1 1 (1/2), Ok tt).
Proof.
  apply C7_connect_unknown_noop. right.
  destruct (two_circles_registry 3 1 1 (1/2)) as (_ & _ & _ & _ & _ & ->).
  reflexivity.
Defined.

End Connect.

(** ** Vector facts *)

Section VectorFacts.

Lemma lenSq_nonneg v : 0 <= Vec2.lenSq v.
Proof. unfold Vec2.lenSq. nra. Qed.

Lemma len_sqrt_lenSq v : Vec2.len v = sqrt (Vec2.lenSq v).
Proof. reflexivity. Qed.

Lemma dist_sqrt_lenSq u v : Vec2.dist u v = sqrt (Vec2.lenSq (Vec2.sub v u)).
Proof. unfold Vec2.dist, Vec2.lenSq; simpl. f_equal. ring. Qed.

Lemma dist_nonneg u v : 0 <= Vec2.dist u v.
Proof. apply sqrt_pos. Qed.

Lemma dist_zero_iff u v : Vec2.dist u v = 0 <-> u = v.
Proof.
  rewrite dist_sqrt_lenSq. split.
  - intros H. apply sqrt_eq_0 in H; [|apply lenSq_nonneg].
    unfold Vec2.lenSq in H; simpl in H.
    destruct (Rplus_sqr_eq_0 (x v - x u) (y v - y u)) as [Hx Hy];
      [unfold Rsqr; exact H|].
    apply Vector2_eq; lra.
  - intros ->. unfold Vec2.lenSq; simpl.
    replace ((x v - x v) * (x v - x v) + (y v - y v) * (y v - y v)) with 0 by ring.
    apply sqrt_0.
Qed.

Lemma len_mul v k : Vec2.len (Vec2.mul v k) = Rabs k * Vec2.len v.
Proof.
  unfold Vec2.len; simpl.
  replace (x v * k * (x v * k) + y v * k * (y v * k))
    with (k² * (x v * x v + y v * y v)) by (unfold Rsqr; ring).
  rewrite sqrt_mult; [| apply Rle_0_sqr | nra].
  rewrite sqrt_Rsqr_abs. reflexivity.
Qed.

Lemma len_div_self v :
  Vec2.len v <> 0 -> Vec2.len (Vec2.div v (Vec2.len v)) = 1.
Proof.
  intros Hl.
  assert (Hpos : 0 < Vec2.len v) by (pose proof (sqrt_pos (Vec2.lenSq v)); unfold Vec2.len, Vec2.lenSq in *; lra).
  replace (Vec2.div v (Vec2.len v)) with (Vec2.mul v (/ Vec2.len v))
    by (unfold Vec2.div, Vec2.mul; reflexivity).
  rewrite len_mul. rewrite Rabs_right.
  - field. exact Hl.
  - left. apply Rinv_0_lt_compat. exact Hpos.
Qed.

(** Squares and square roots, for comparing a distance with a radius sum. *)
Lemma sqrt_le_iff_sq u r : 0 <= u -> 0 <= r -> (sqrt u <= r <-> u <= r * r).
Proof.
  intros Hu Hr. split; intros H.
  - rewrite <- (sqrt_sqrt u Hu). pose proof (sqrt_pos u). nra.
  - rewrite <- (sqrt_square r Hr). apply sqrt_le_1_alt. exact H.
Qed.

End VectorFacts.

(** ** Narrow phase: circle against circle *)

Section CircleVsCircle.
Import CollisionSystem.

Lemma detect_circles a A b B :
  o_type A = circle -> o_type B = circle ->
  detectCollision a A b B = Ok (Some (circleVsCircle a A b B)).
Proof. intros HA HB. unfold detectCollision. rewrite HA, HB. reflexivity. Qed.

(** The facts about the example circles that the proofs below use. *)
Lemma circle_fields pc m r id :
  r <> 0 -> m <> 0 ->
  let o := PhysicsEngine.updateGeometry
             (PhysicsEngine.buildObject circle (Examples.cfg_circle pc m r) id) in
  o_type o = circle /\ radius o = r /\ pos o = mkV (orElse (Some pc) 0) 0 /\
  fixed o = false /\ invMass o = 1 / m.
Proof.
  intros Hr Hm o.
  destruct (updateGeometry_mass_fields
              (PhysicsEngine.buildObject circle (Examples.cfg_circle pc m r) id))
    as (_ & Ei & _ & _ & Ef & Et & Ep & _ & _ & Er).
  subst o. rewrite Et, Er, Ep, Ef, Ei. unfold PhysicsEngine.buildObject.
  cbn [o_type radius pos fixed invMass cfg_radius cfg_x cfg_y cfg_fixed cfg_mass
       Examples.cfg_circle truthy].
  rewrite (orElse_supplied r) by exact Hr.
  rewrite (orElse_supplied m) by exact Hm.
  rewrite orElse_None.
  repeat split. destruct (decide (m = 0)); [contradiction | reflexivity].
Qed.

(** C10, as amended: for two circles whose radii have a non-negative sum,
    detection returns a manifold; it reports no collision when the distance
    of the centers exceeds the sum of the radii; when it does not, and the
    centers differ, the normal is the unit direction from the first center
    to the second and the depth is the sum minus the distance; for
    concentric circles the normal is the fixed unit vector (1, 0), the depth
    is the full sum, and the collision flag is set. *)
Theorem C10_circle_collision (a : nat) (A : SimObject) (b : nat) (B : SimObject) :
  o_type A = circle -> o_type B = circle ->
  0 <= radius A + radius B ->
  exists m,
    detectCollision a A b B = Ok (Some m) /\
    m_bodyA m = a /\ m_bodyB m = b /\
    (Vec2.dist (pos A) (pos B) > radius A + radius B -> hasCollision m = false) /\
    (Vec2.dist (pos A) (pos B) <= radius A + radius B ->
     Vec2.dist (pos A) (pos B) <> 0 ->
       hasCollision m = true /\
       normal m = Vec2.div (Vec2.sub (pos B) (pos A)) (Vec2.dist (pos A) (pos B)) /\
       Vec2.len (normal m) = 1 /\
       depth m = radius A + radius B - Vec2.dist (pos A) (pos B)) /\
    (Vec2.dist (pos A) (pos B) = 0 ->
       hasCollision m = true /\ normal m = mkV 1 0 /\
       Vec2.len (normal m) = 1 /\ depth m = radius A + radius B).
Proof.
  intros HA HB Hrs. rewrite (detect_circles _ _ _ _ HA HB).
  eexists. split; [reflexivity|].
  unfold circleVsCircle. rewrite dist_sqrt_lenSq.
  set (n := Vec2.sub (pos B) (pos A)).
  set (rs := radius A + radius B) in *.
  pose proof (lenSq_nonneg n) as Hn.
  pose proof (sqrt_le_iff_sq (Vec2.lenSq n) rs Hn Hrs) as Hiff.
  destruct (decide (Vec2.lenSq n > rs * rs)) as [Hfar | Hnear]; cbn.
  - repeat split; intros; try reflexivity; exfalso;
      first [ assert (Vec2.lenSq n <= rs * rs) by (apply Hiff; assumption); lra
            | assert (Vec2.lenSq n = 0) by (apply sqrt_eq_0; assumption); nra ].
  - assert (Hle : sqrt (Vec2.lenSq n) <= rs) by (apply Hiff; lra).
    destruct (decide (sqrt (Vec2.lenSq n) = 0)) as [H0 | H0]; cbn.
    + repeat split; intros; try reflexivity; try lra; try contradiction.
      unfold Vec2.len; cbn. replace (1 * 1 + 0 * 0) with 1 by ring. apply sqrt_1.
    + repeat split; intros; try reflexivity; try lra; try contradiction.
      apply (len_div_self n). exact H0.
Qed.

Lemma C10_circle_collision_witness :
  exists m,
    detectCollision 0 (Examples.circleA 1 (1/2)) 1 (Examples.circleB 3 1 (1/2))
      = Ok (Some m) /\
    hasCollision m = false.
Proof.
  destruct (circle_fields 0 1 (1/2) "obj_1") as (HtA & HrA & _); [lra | lra |].
  destruct (circle_fields 3 1 (1/2) "obj_2") as (HtB & HrB & _); [lra | lra |].
  fold (Examples.circleA 1 (1/2)) in HtA, HrA.
  fold (Examples.circleB 3 1 (1/2)) in HtB, HrB.
  destruct (C10_circle_collision 0 (Examples.circleA 1 (1/2)) 1
              (Examples.circleB 3 1 (1/2)) HtA HtB)
    as (m & Hm & _ & _ & Hfar & _).
  - rewrite HrA, HrB. lra.
  - exists m. split; [exact Hm|]. apply Hfar.
    rewrite two_circles_dist by lra. rewrite HrA, HrB. lra.
Defined.

(** C10, counterexample: two circles of radius -1 with centers 1 apart.  The
    distance 1 exceeds the sum -2 of the radii, yet the test on the squares,
    [1 > 4], fails and a collision is reported. *)
Lemma C10_counterexample :
  (exists m,
     detectCollision 0 (Examples.circleA 1 (-1)) 1 (Examples.circleB 1 1 (-1))
       = Ok (Some m) /\
     hasCollision m = true /\
     Vec2.dist (pos (Examples.circleA 1 (-1))) (pos (Examples.circleB 1 1 (-1)))
       > radius (Examples.circleA 1 (-1)) + radius (Examples.circleB 1 1 (-1))) /\
  ~ AsStated.C10 0 (Examples.circleA 1 (-1)) 1 (Examples.circleB 1 1 (-1)).
Proof.
  destruct (circle_fields 0 1 (-1) "obj_1") as (HtA & HrA & HpA & _); [lra | lra |].
  destruct (circle_fields 1 1 (-1) "obj_2") as (HtB & HrB & HpB & _); [lra | lra |].
  fold (Examples.circleA 1 (-1)) in HtA, HrA, HpA.
  fold (Examples.circleB 1 1 (-1)) in HtB, HrB, HpB.
  assert (Hd : Vec2.dist (pos (Examples.circleA 1 (-1)))
                 (pos (Examples.circleB 1 1 (-1))) = 1)
    by (apply two_circles_dist; lra).
  assert (Hcol : hasCollision (circleVsCircle 0 (Examples.circleA 1 (-1)) 1
                                 (Examples.circleB 1 1 (-1))) = true).
  { unfold circleVsCircle. rewrite HrA, HrB, HpA, HpB.
    rewrite orElse_zero, (orElse_supplied 1) by lra.
    unfold Vec2.lenSq, Vec2.sub; cbn [x y].
    destruct (decide ((1 - 0) * (1 - 0) + (0 - 0) * (0 - 0) > (-1 + -1) * (-1 + -1)));
      [lra|].
    destruct (decide (sqrt ((1 - 0) * (1 - 0) + (0 - 0) * (0 - 0)) = 0)); reflexivity. }
  split.
  - eexists. split; [apply detect_circles; assumption|].
    split; [exact Hcol|]. rewrite Hd, HrA, HrB. lra.
  - intros (m & Hm & Hfar & _).
    rewrite detect_circles in Hm by assumption. injection Hm as <-.
    rewrite Hfar in Hcol; [discriminate|]. rewrite Hd, HrA, HrB. lra.
Qed.

End CircleVsCircle.

(** ** Resolution *)

Section Resolution.
Import CollisionSystem.

Lemma applyResolution_untouched m (h : Store) A B :
  h !! m_bodyA m = Some A -> h !! m_bodyB m = Some B ->
  invMass A + invMass B = 0 ->
  applyResolution m h = h.
Proof.
  intros HA HB Hsum. unfold applyResolution. rewrite HA, HB.
  destruct (decide (invMass A + invMass B = 0)); [reflexivity | contradiction].
Qed.

(** The positions after [applyResolution], for two distinct bodies. *)
Lemma applyResolution_pos m (h : Store) A B :
  h !! m_bodyA m = Some A -> h !! m_bodyB m = Some B ->
  m_bodyA m <> m_bodyB m ->
  invMass A + invMass B <> 0 ->
  let separation := Vec2.mul (normal m) (depth m) in
  let moveA := Vec2.mul separation (- invMass A / (invMass A + invMass B)) in
  let moveB := Vec2.mul separation (invMass B / (invMass A + invMass B)) in
  exists A' B',
    applyResolution m h !! m_bodyA m = Some A' /\
    applyResolution m h !! m_bodyB m = Some B' /\
    pos A' = (if fixed A then pos A else Vec2.add (pos A) moveA) /\
    pos B' = (if fixed B then pos B else Vec2.add (pos B) moveB).
Proof.
  intros HA HB Hab Hsum. cbv zeta. unfold applyResolution. rewrite HA, HB.
  destruct (decide (invMass A + invMass B = 0)) as [|_]; [contradiction|].
  assert (Hba : m_bodyB m <> m_bodyA m) by congruence.
  destruct (fixed A) eqn:EA, (fixed B) eqn:EB;
    repeat (rewrite ?list_lookup_alter_eq, ?HA, ?HB;
            rewrite ?list_lookup_alter_ne by assumption); cbn [fmap option_fmap option_map];
    repeat (rewrite ?list_lookup_alter_eq, ?HA, ?HB;
            rewrite ?list_lookup_alter_ne by assumption); cbn [fmap option_fmap option_map];
    eexists; eexists; (split; [reflexivity|]); (split; [reflexivity|]);
    split; reflexivity.
Qed.

(** C2, as amended: for a manifold over two distinct bodies whose inverse
    masses are non-negative, a fixed body having inverse mass 0.  When the
    inverse masses sum to 0 the store is left as it is.  Otherwise the first
    body is displaced against the normal by [depth * invMassA / sum] and the
    second along the normal by [depth * invMassB / sum]; the two shares are
    non-negative and the two amounts add up to the depth, so the
    displacements point in opposite directions, and for a unit normal and a
    non-negative depth their lengths add up to the depth. *)
Theorem C2_resolution_split (m : Manifold) (h : Store) (A B : SimObject) :
  h !! m_bodyA m = Some A -> h !! m_bodyB m = Some B ->
  m_bodyA m <> m_bodyB m ->
  (fixed A = true -> invMass A = 0) -> (fixed B = true -> invMass B = 0) ->
  0 <= invMass A -> 0 <= invMass B ->
  (invMass A + invMass B = 0 -> applyResolution m h = h) /\
  (invMass A + invMass B <> 0 ->
   exists A' B',
     applyResolution m h !! m_bodyA m = Some A' /\
     applyResolution m h !! m_bodyB m = Some B' /\
     Vec2.sub (pos A') (pos A)
       = Vec2.mul (normal m) (- (depth m * (invMass A / (invMass A + invMass B)))) /\
     Vec2.sub (pos B') (pos B)
       = Vec2.mul (normal m) (depth m * (invMass B / (invMass A + invMass B))) /\
     0 <= invMass A / (invMass A + invMass B) /\
     0 <= invMass B / (invMass A + invMass B) /\
     depth m * (invMass A / (invMass A + invMass B))
       + depth m * (invMass B / (invMass A + invMass B)) = depth m /\
     Vec2.dot (Vec2.sub (pos A') (pos A)) (Vec2.sub (pos B') (pos B)) <= 0 /\
     (Vec2.len (normal m) = 1 -> 0 <= depth m ->
      Vec2.len (Vec2.sub (pos A') (pos A)) + Vec2.len (Vec2.sub (pos B') (pos B))
        = depth m)).
Proof.
  intros HA HB Hab HfA HfB HiA HiB.
  split; [apply (applyResolution_untouched m h A B HA HB)|].
  intros Hsum.
  destruct (applyResolution_pos m h A B HA HB Hab Hsum) as (A' & B' & HA' & HB' & HpA & HpB).
  exists A', B'. split; [exact HA'|]. split; [exact HB'|].
  set (s := invMass A + invMass B) in *.
  assert (Hs : 0 < s) by (subst s; lra).
  assert (HdA : Vec2.sub (pos A') (pos A)
                = Vec2.mul (normal m) (- (depth m * (invMass A / s)))).
  { rewrite HpA. destruct (fixed A) eqn:EA.
    - rewrite (HfA eq_refl). apply Vector2_eq; cbn; field; lra.
    - apply Vector2_eq; cbn; field; lra. }
  assert (HdB : Vec2.sub (pos B') (pos B)
                = Vec2.mul (normal m) (depth m * (invMass B / s))).
  { rewrite HpB. destruct (fixed B) eqn:EB.
    - rewrite (HfB eq_refl). apply Vector2_eq; cbn; field; lra.
    - apply Vector2_eq; cbn; field; lra. }
  assert (HsA : 0 <= invMass A / s)
    by (apply Rmult_le_pos; [exact HiA | left; apply Rinv_0_lt_compat; exact Hs]).
  assert (HsB : 0 <= invMass B / s)
    by (apply Rmult_le_pos; [exact HiB | left; apply Rinv_0_lt_compat; exact Hs]).
  assert (Hone : invMass A / s + invMass B / s = 1) by (subst s; field; lra).
  split; [exact HdA|]. split; [exact HdB|].
  split; [exact HsA|]. split; [exact HsB|].
  split; [rewrite <- Rmult_plus_distr_l, Hone; ring|].
  split.
  - rewrite HdA, HdB. unfold Vec2.dot, Vec2.mul; cbn [x y].
    set (ka := invMass A / s) in *. set (kb := invMass B / s) in *.
    assert (0 <= depth m * depth m * (ka * kb)) by (apply Rmult_le_pos; nra).
    nra.
  - intros Hunit Hdepth. rewrite HdA, HdB, !len_mul, Hunit.
    rewrite Rabs_Ropp. rewrite !Rabs_right by (apply Rle_ge; apply Rmult_le_pos; assumption).
    rewrite !Rmult_1_r. rewrite <- Rmult_plus_distr_l, Hone. ring.
Qed.

(** Detection on the example circles of radius 1/2, centers 1/2 apart. *)
Lemma detect_example mA mB :
  mA <> 0 -> mB <> 0 ->
  detectCollision 0 (Examples.circleA mA (1/2)) 1 (Examples.circleB (1/2) mB (1/2))
  = Ok (Some Examples.manifold01).
Proof.
  intros HmA HmB.
  destruct (circle_fields 0 mA (1/2) "obj_1") as (HtA & HrA & HpA & _); [lra | exact HmA |].
  destruct (circle_fields (1/2) mB (1/2) "obj_2") as (HtB & HrB & HpB & _);
    [lra | exact HmB |].
  fold (Examples.circleA mA (1/2)) in HtA, HrA, HpA.
  fold (Examples.circleB (1/2) mB (1/2)) in HtB, HrB, HpB.
  rewrite detect_circles by assumption. do 2 f_equal.
  unfold circleVsCircle. rewrite HrA, HrB, HpA, HpB.
  rewrite orElse_zero, (orElse_supplied (1/2)) by lra.
  unfold Vec2.lenSq, Vec2.sub; cbn [x y].
  replace ((1 / 2 - 0) * (1 / 2 - 0) + (0 - 0) * (0 - 0)) with ((1/2) * (1/2)) by ring.
  rewrite sqrt_square by lra.
  destruct (decide (1 / 2 * (1 / 2) > (1 / 2 + 1 / 2) * (1 / 2 + 1 / 2))); [lra|].
  destruct (decide (1 / 2 = 0)); [lra|].
  unfold Examples.manifold01, Vec2.div; cbn [x y].
  f_equal; [|lra]. apply Vector2_eq; cbn [x y]; field.
Qed.

Lemma C2_resolution_split_witness :
  exists A' B',
    applyResolution Examples.manifold01
      [Examples.circleA 1 (1/2); Examples.circleB (1/2) 1 (1/2)] !! 0%nat = Some A' /\
    applyResolution Examples.manifold01
      [Examples.circleA 1 (1/2); Examples.circleB (1/2) 1 (1/2)] !! 1%nat = Some B' /\
    Vec2.len (Vec2.sub (pos A') (pos (Examples.circleA 1 (1/2))))
      + Vec2.len (Vec2.sub (pos B') (pos (Examples.circleB (1/2) 1 (1/2)))) = 1 / 2.
Proof.
  destruct (circle_fields 0 1 (1/2) "obj_1") as (_ & _ & _ & HfA & HiA); [lra | lra |].
  destruct (circle_fields (1/2) 1 (1/2) "obj_2") as (_ & _ & _ & HfB & HiB); [lra | lra |].
  fold (Examples.circleA 1 (1/2)) in HfA, HiA.
  fold (Examples.circleB (1/2) 1 (1/2)) in HfB, HiB.
  destruct (C2_resolution_split Examples.manifold01
              [Examples.circleA 1 (1/2); Examples.circleB (1/2) 1 (1/2)]
              (Examples.circleA 1 (1/2)) (Examples.circleB (1/2) 1 (1/2)))
    as [_ Hmove].
  - reflexivity.
  - reflexivity.
  - cbn. lia.
  - rewrite HfA. discriminate.
  - rewrite HfB. discriminate.
  - rewrite HiA. lra.
  - rewrite HiB. lra.
  - destruct Hmove as (A' & B' & HA' & HB' & _ & _ & _ & _ & _ & _ & Hlen).
    + rewrite HiA, HiB. lra.
    + exists A', B'. split; [exact HA'|]. split; [exact HB'|].
      apply Hlen.
      * unfold Vec2.len; cbn. replace (1 * 1 + 0 * 0) with 1 by ring. apply sqrt_1.
      * cbn. lra.
Defined.

(** C2, counterexample: a circle of mass -1 (inverse mass -1) and a circle of
    mass 1/3 (inverse mass 3), overlapping by 1/2 along the normal (1, 0).
    The shares are -1/2 and 3/2: both bodies are moved along the normal, by
    1/4 and by 3/4, so the displacements do not point in opposite directions
    and their lengths add up to 1, not to the depth 1/2. *)
Lemma C2_counterexample :
  detectCollision 0 (Examples.circleA (-1) (1/2)) 1 (Examples.circleB (1/2) (1/3) (1/2))
    = Ok (Some Examples.manifold01) /\
  ~ AsStated.C2 Examples.manifold01
      [Examples.circleA (-1) (1/2); Examples.circleB (1/2) (1/3) (1/2)].
Proof.
  split; [apply detect_example; lra|].
  intros Hclaim.
  destruct (circle_fields 0 (-1) (1/2) "obj_1") as (_ & _ & _ & HfA & HiA); [lra | lra |].
  destruct (circle_fields (1/2) (1/3) (1/2) "obj_2") as (_ & _ & _ & HfB & HiB);
    [lra | lra |].
  fold (Examples.circleA (-1) (1/2)) in HfA, HiA.
  fold (Examples.circleB (1/2) (1/3) (1/2)) in HfB, HiB.
  destruct (Hclaim (Examples.circleA (-1) (1/2)) (Examples.circleB (1/2) (1/3) (1/2))
              eq_refl eq_refl) as [_ Hmove].
  rewrite HiA, HiB in Hmove.
  destruct Hmove as (A' & B' & _ & _ & HdA & HdB & Hdot & _); [lra|].
  rewrite (HdA HfA), (HdB HfB) in Hdot.
  unfold Vec2.dot, Vec2.mul in Hdot. cbn [x y normal depth Examples.manifold01] in Hdot.
  assert (E1 : 1 / -1 = -1) by (field; lra).
  assert (E2 : 1 / (1 / 3) = 3) by (field; lra).
  rewrite E1, E2 in Hdot. lra.
Qed.

End Resolution.

(** ** Narrow phase: polygon against polygon *)

Section Polygon.
Import CollisionSystem SatSpec.

Lemma is_min_unique m m' l : is_min m l -> is_min m' l -> m = m'.
Proof. intros [H1 H2] [H3 H4]. apply Rle_antisym; auto. Qed.

Lemma is_max_unique m m' l : is_max m l -> is_max m' l -> m = m'.
Proof. intros [H1 H2] [H3 H4]. apply Rle_antisym; auto. Qed.

(** [projectVertices] computes the least and the greatest projection. *)
Lemma projectStep_inv axis seen v mn mx :
  is_min mn (projections seen axis) -> is_max mx (projections seen axis) ->
  exists mn' mx',
    projectStep axis (Some (mn, mx)) v = Some (mn', mx') /\
    is_min mn' (projections (seen ++ [v]) axis) /\
    is_max mx' (projections (seen ++ [v]) axis).
Proof.
  intros [Hmn1 Hmn2] [Hmx1 Hmx2]. unfold projectStep.
  eexists; eexists. split; [reflexivity|].
  unfold projections, is_min, is_max in *. rewrite map_app; cbn [map].
  split; split.
  - destruct (decide (Vec2.dot v axis < mn)); apply elem_of_app;
      [right; apply list_elem_of_singleton; reflexivity | left; assumption].
  - intros z Hz. apply elem_of_app in Hz as [Hz | Hz%list_elem_of_singleton].
    + specialize (Hmn2 z Hz). destruct (decide (Vec2.dot v axis < mn)); lra.
    + subst z. destruct (decide (Vec2.dot v axis < mn)); lra.
  - destruct (decide (Vec2.dot v axis > mx)); apply elem_of_app;
      [right; apply list_elem_of_singleton; reflexivity | left; assumption].
  - intros z Hz. apply elem_of_app in Hz as [Hz | Hz%list_elem_of_singleton].
    + specialize (Hmx2 z Hz). destruct (decide (Vec2.dot v axis > mx)); lra.
    + subst z. destruct (decide (Vec2.dot v axis > mx)); lra.
Qed.

Lemma projectVertices_from axis vs : forall seen mn mx,
  is_min mn (projections seen axis) -> is_max mx (projections seen axis) ->
  exists mn' mx',
    foldl (projectStep axis) (Some (mn, mx)) vs = Some (mn', mx') /\
    is_min mn' (projections (seen ++ vs) axis) /\
    is_max mx' (projections (seen ++ vs) axis).
Proof.
  induction vs as [|v vs IH]; intros seen mn mx Hmn Hmx.
  - exists mn, mx. rewrite app_nil_r. auto.
  - destruct (projectStep_inv axis seen v mn mx Hmn Hmx) as (mn1 & mx1 & E & H1 & H2).
    cbn [foldl]. rewrite E.
    destruct (IH (seen ++ [v]) mn1 mx1 H1 H2) as (mn' & mx' & E' & H1' & H2').
    exists mn', mx'. rewrite <- app_assoc in H1', H2'. auto.
Qed.

Lemma projectVertices_spec vs axis :
  vs <> [] ->
  exists mn mx,
    projectVertices vs axis = Some (mn, mx) /\
    is_min mn (projections vs axis) /\ is_max mx (projections vs axis).
Proof.
  destruct vs as [|v vs]; [contradiction|]. intros _.
  unfold projectVertices. cbn [foldl projectStep].
  apply (projectVertices_from axis vs [v]).
  - split; [apply list_elem_of_singleton; reflexivity|]. intros z Hz. cbn in Hz.
    apply list_elem_of_singleton in Hz. lra.
  - split; [apply list_elem_of_singleton; reflexivity|]. intros z Hz. cbn in Hz.
    apply list_elem_of_singleton in Hz. lra.
Qed.

(** The test of the source against the words of the specification. *)
Lemma separated_spec vA vB axis :
  vA <> [] -> vB <> [] ->
  separated (projectVertices vA axis) (projectVertices vB axis) = true
  <-> disjoint_on axis vA vB.
Proof.
  intros HA HB.
  destruct (projectVertices_spec vA axis HA) as (minA & maxA & -> & [HminA LA] & [HmaxA UA]).
  destruct (projectVertices_spec vB axis HB) as (minB & maxB & -> & [HminB LB] & [HmaxB UB]).
  unfold separated, disjoint_on. rewrite orb_true_iff, !bool_decide_eq_true.
  split.
  - intros [H | H]; [left | right]; intros p q Hp Hq;
      pose proof (LA p Hp); pose proof (UA p Hp);
      pose proof (LB q Hq); pose proof (UB q Hq); lra.
  - intros [H | H]; [left | right].
    + apply Rle_ge. apply H; assumption.
    + apply Rle_ge. apply H; assumption.
Qed.

Lemma axisDepth_spec vA vB axis :
  vA <> [] -> vB <> [] ->
  overlap_on axis vA vB
    (axisDepth (projectVertices vA axis) (projectVertices vB axis)).
Proof.
  intros HA HB.
  destruct (projectVertices_spec vA axis HA) as (minA & maxA & -> & HminA & HmaxA).
  destruct (projectVertices_spec vB axis HB) as (minB & maxB & -> & HminB & HmaxB).
  exists minA, maxA, minB, maxB. cbn. auto.
Qed.

Lemma overlap_on_unique axis vA vB d d' :
  overlap_on axis vA vB d -> overlap_on axis vA vB d' -> d = d'.
Proof.
  intros (a1 & a2 & b1 & b2 & H1 & H2 & H3 & H4 & ->)
         (c1 & c2 & e1 & e2 & K1 & K2 & K3 & K4 & ->).
  rewrite (is_min_unique _ _ _ H1 K1), (is_max_unique _ _ _ H2 K2),
          (is_min_unique _ _ _ H3 K3), (is_max_unique _ _ _ H4 K4).
  reflexivity.
Qed.

Lemma satLoop_None pa pb axes : satLoop pa pb axes None = None.
Proof. induction axes as [|ax axes IH]; [reflexivity | exact IH]. Qed.

Lemma satLoop_cons pa pb ax axes st :
  satLoop pa pb (ax :: axes) st = satLoop pa pb axes (satStep pa pb st ax).
Proof. reflexivity. Qed.

(** The axis loop: it returns [null] exactly when some axis separates, and
    otherwise keeps a least overlap and an axis that has it. *)
Lemma satLoop_inv pa pb axes : forall seen st,
  least_overlap (fun ax => axisDepth (pa ax) (pb ax)) seen st ->
  match satLoop pa pb axes (Some st) with
  | None => exists ax, ax ∈ axes /\ separated (pa ax) (pb ax) = true
  | Some st' =>
      (forall ax, ax ∈ axes -> separated (pa ax) (pb ax) = false) /\
      least_overlap (fun ax => axisDepth (pa ax) (pb ax)) (seen ++ axes) st'
  end.
Proof.
  induction axes as [|ax axes IH]; intros seen [nrm dpt] Hst.
  - cbn. split; [intros ax Hax; inversion Hax|]. rewrite app_nil_r. exact Hst.
  - rewrite satLoop_cons.
    destruct (separated (pa ax) (pb ax)) eqn:Esep.
    + unfold satStep. rewrite Esep. rewrite satLoop_None.
      exists ax. split; [left|exact Esep].
    + assert (Hnext : exists st1,
                satStep pa pb (Some (nrm, dpt)) ax = Some st1 /\
                least_overlap (fun ax => axisDepth (pa ax) (pb ax)) (seen ++ [ax]) st1).
      { unfold satStep. rewrite Esep.
        unfold least_overlap in Hst; cbn [fst snd] in Hst.
        destruct dpt as [dp|].
        - destruct Hst as (Hin & Hd & Hle).
          destruct (decide (axisDepth (pa ax) (pb ax) < dp)) as [Hlt|Hge];
            eexists; (split; [reflexivity|]); unfold least_overlap; cbn [fst snd].
          + split; [apply elem_of_app; right; apply list_elem_of_singleton; reflexivity|].
            split; [reflexivity|].
            intros ax' [Hax' | Hax'%list_elem_of_singleton]%elem_of_app.
            * specialize (Hle ax' Hax'). lra.
            * subst ax'. lra.
          + split; [apply elem_of_app; left; exact Hin|].
            split; [exact Hd|].
            intros ax' [Hax' | Hax'%list_elem_of_singleton]%elem_of_app.
            * exact (Hle ax' Hax').
            * subst ax'. lra.
        - eexists; split; [reflexivity|]. unfold least_overlap; cbn [fst snd].
          subst seen. cbn.
          split; [apply list_elem_of_singleton; reflexivity|].
          split; [reflexivity|].
          intros ax' Hax'%list_elem_of_singleton. subst ax'. lra. }
      destruct Hnext as (st1 & -> & Hst1).
      specialize (IH (seen ++ [ax]) st1 Hst1).
      destruct (satLoop pa pb axes (Some st1)) as [st'|].
      * destruct IH as [Hall Hbest]. split.
        -- intros ax' [-> | Hax']%elem_of_cons; [exact Esep | exact (Hall ax' Hax')].
        -- rewrite <- app_assoc in Hbest. exact Hbest.
      * destruct IH as (ax' & Hax' & Hs). exists ax'. split; [right; exact Hax' | exact Hs].
Qed.

Lemma orient_spec direction nrm :
  (orient direction nrm = nrm \/ orient direction nrm = Vec2.mul nrm (-1)) /\
  0 <= Vec2.dot direction (orient direction nrm).
Proof.
  unfold orient. destruct (decide (Vec2.dot direction nrm < 0)) as [Hneg | Hpos].
  - split; [right; reflexivity|]. unfold Vec2.dot, Vec2.mul in *. cbn [x y]. lra.
  - split; [left; reflexivity|]. lra.
Qed.

(** The outcome of [polygonVsPolygon] in terms of the axes that its two
    loops compute. *)
Lemma polygonVsPolygon_sat (a : nat) (A : SimObject) (b : nat) (B : SimObject)
    (vA vB : list Vector2) :
  vertices A = Some vA -> vertices B = Some vB -> vA <> [] -> vB <> [] ->
  (polygonVsPolygon a A b B = Ok None <->
   exists axis, axis ∈ edgeAxes vA ++ edgeAxes vB /\ disjoint_on axis vA vB) /\
  ((forall axis, axis ∈ edgeAxes vA ++ edgeAxes vB -> ~ disjoint_on axis vA vB) ->
   exists m axis,
     polygonVsPolygon a A b B = Ok (Some m) /\
     hasCollision m = true /\ m_bodyA m = a /\ m_bodyB m = b /\
     axis ∈ edgeAxes vA ++ edgeAxes vB /\
     overlap_on axis vA vB (depth m) /\
     (forall ax d, ax ∈ edgeAxes vA ++ edgeAxes vB -> overlap_on ax vA vB d ->
                   depth m <= d) /\
     (normal m = axis \/ normal m = Vec2.mul axis (-1)) /\
     0 <= Vec2.dot (Vec2.sub (pos B) (pos A)) (normal m)).
Proof.
  intros HvA HvB HneA HneB.
  unfold polygonVsPolygon. rewrite HvA, HvB.
  change (satLoop (projectVertices vA) (projectVertices vB) (edgeAxes vB)
            (satLoop (projectVertices vA) (projectVertices vB) (edgeAxes vA)
               (Some (mkV 0 0, None))))
    with (foldl (satStep (projectVertices vA) (projectVertices vB))
            (foldl (satStep (projectVertices vA) (projectVertices vB))
               (Some (mkV 0 0, None)) (edgeAxes vA)) (edgeAxes vB)).
  rewrite <- foldl_app.
  fold (satLoop (projectVertices vA) (projectVertices vB)
          (edgeAxes vA ++ edgeAxes vB) (Some (mkV 0 0, None))).
  pose proof (satLoop_inv (projectVertices vA) (projectVertices vB)
                (edgeAxes vA ++ edgeAxes vB) [] (mkV 0 0, None) eq_refl) as Hloop.
  assert (Haxes : edgeAxes vA ++ edgeAxes vB <> []).
  { destruct vA; [contradiction|]. discriminate. }
  destruct (satLoop (projectVertices vA) (projectVertices vB)
              (edgeAxes vA ++ edgeAxes vB) (Some (mkV 0 0, None)))
    as [[nrm dpt]|].
  - destruct Hloop as [Hall Hbest]. cbn [app] in Hbest.
    unfold least_overlap in Hbest; cbn [fst snd] in Hbest.
    destruct dpt as [d|]; [|contradiction].
    destruct Hbest as (Hin & Hd & Hle).
    split.
    + split; [discriminate|].
      intros (axis & Hax & Hdis). exfalso.
      apply (separated_spec vA vB axis HneA HneB) in Hdis.
      rewrite (Hall axis Hax) in Hdis. discriminate.
    + intros _. eexists. exists nrm. split; [reflexivity|]. cbn.
      destruct (orient_spec (Vec2.sub (pos B) (pos A)) nrm) as [Hor Hdot].
      repeat split; try assumption.
      * rewrite Hd. apply axisDepth_spec; assumption.
      * intros ax d' Hax Hov.
        rewrite (overlap_on_unique _ _ _ _ _ Hov (axisDepth_spec vA vB ax HneA HneB)).
        apply Hle. exact Hax.
  - destruct Hloop as (axis & Hax & Hsep). split.
    + split; [|reflexivity]. intros _. exists axis. split; [exact Hax|].
      apply (separated_spec vA vB axis HneA HneB). exact Hsep.
    + intros Hnone. exfalso. apply (Hnone axis Hax).
      apply (separated_spec vA vB axis HneA HneB). exact Hsep.
Qed.

(** The axes that the edge loop computes are the edge axes of the polygon. *)
Lemma edgeAxes_spec (vs : list Vector2) (ax : Vector2) :
  ax ∈ edgeAxes vs <-> edge_axis vs ax.
Proof.
  unfold edgeAxes, edge_axis. rewrite elem_of_lookup_imap. split.
  - intros (i & v1 & -> & Hi).
    pose proof (lookup_lt_Some _ _ _ Hi) as Hlt.
    destruct (lookup_lt_is_Some_2 vs ((i + 1) mod length vs)) as [v2 H2];
      [apply Nat.mod_upper_bound; lia|].
    exists i, v1, v2. split; [exact Hi|]. split; [exact H2|].
    rewrite H2. change (default v1 (Some v2)) with v2. unfold Vec2.normalize, Vec2.perp, Vec2.sub. cbn [x y].
    set (ex := x v2 - x v1). set (ey := y v2 - y v1).
    assert (H0 : 0 <= - ey * - ey + ex * ex) by nra.
    destruct (decide (sqrt (- ey * - ey + ex * ex) = 0)) as [Hz | Hnz].
    + left. split; [|reflexivity]. apply sqrt_eq_0 in Hz; [|exact H0]. split; nra.
    + right. pose proof (sqrt_pos (- ey * - ey + ex * ex)) as Hp.
      pose proof (sqrt_sqrt _ H0) as Hs.
      set (l := sqrt (- ey * - ey + ex * ex)) in *. cbn [x y].
      assert (Hl : 0 < l) by lra.
      split; [|split].
      * replace (- ey / l * (- ey / l) + ex / l * (ex / l))
          with ((- ey * - ey + ex * ex) / (l * l)) by (field; lra).
        rewrite <- Hs. field. lra.
      * field. lra.
      * replace (ex * (ex / l) - ey * (- ey / l))
          with ((- ey * - ey + ex * ex) / l) by (field; lra).
        rewrite <- Hs. replace (l * l / l) with l by (field; lra). lra.
  - intros (i & v1 & v2 & Hi & H2 & Hax). exists i, v1. split; [|exact Hi].
    rewrite H2. change (default v1 (Some v2)) with v2. unfold Vec2.normalize, Vec2.perp, Vec2.sub. cbn [x y].
    set (ex := x v2 - x v1) in *. set (ey := y v2 - y v1) in *.
    destruct Hax as [[[Hex Hey] ->] | (Hunit & Hdot & Hcross)].
    + rewrite Hex, Hey. replace (- 0 * - 0 + 0 * 0) with 0 by ring. rewrite sqrt_0.
      destruct (decide (0 = 0)); [reflexivity | contradiction].
    + set (a1 := x ax) in *. set (a2 := y ax) in *.
      set (c := ex * a2 - ey * a1) in *.
      assert (HS : - ey * - ey + ex * ex = c * c).
      { transitivity ((ex * ex + ey * ey) * (a1 * a1 + a2 * a2)
                      - (a1 * ex + a2 * ey) * (a1 * ex + a2 * ey));
          [rewrite Hunit, Hdot; ring | unfold c; ring]. }
      rewrite HS, sqrt_square by lra.
      destruct (decide (c = 0)); [lra|].
      assert (E1 : a1 * c = - ey).
      { transitivity (a2 * (a1 * ex + a2 * ey) - ey * (a1 * a1 + a2 * a2));
          [unfold c; ring | rewrite Hunit, Hdot; ring]. }
      assert (E2 : a2 * c = ex).
      { transitivity (ex * (a1 * a1 + a2 * a2) - a1 * (a1 * ex + a2 * ey));
          [unfold c; ring | rewrite Hunit, Hdot; ring]. }
      apply Vector2_eq; cbn [x y]; fold a1 a2; [rewrite <- E1 | rewrite <- E2];
        field; lra.
Qed.

Lemma edge_axes_mem (vA vB : list Vector2) (ax : Vector2) :
  ax ∈ edgeAxes vA ++ edgeAxes vB <-> edge_axis vA ax \/ edge_axis vB ax.
Proof. rewrite elem_of_app, !edgeAxes_spec. reflexivity. Qed.

(** C3: polygon against polygon, for two bodies with non-empty cached vertex
    lists.  The axes tested are the edge axes of the two polygons: for every
    edge of either polygon, from a vertex to the next one and from the last
    to the first, the unit vector perpendicular to the edge (the zero vector
    for an edge between two equal vertices).  No collision is reported
    exactly when the two vertex sets have disjoint projections (touching
    counts as disjoint) on one of these axes.  Otherwise a collision is
    reported: its depth is the projected overlap on one of these axes and is
    least among the overlaps on all of them, and its normal is that axis or
    its opposite, with a non-negative dot product with the vector from the
    first center to the second. *)
Theorem C3_polygon_sat (a : nat) (A : SimObject) (b : nat) (B : SimObject)
    (vA vB : list Vector2) :
  vertices A = Some vA -> vertices B = Some vB -> vA <> [] -> vB <> [] ->
  (polygonVsPolygon a A b B = Ok None <->
   exists axis, (edge_axis vA axis \/ edge_axis vB axis) /\ disjoint_on axis vA vB) /\
  ((forall axis, edge_axis vA axis \/ edge_axis vB axis -> ~ disjoint_on axis vA vB) ->
   exists m axis,
     polygonVsPolygon a A b B = Ok (Some m) /\
     hasCollision m = true /\ m_bodyA m = a /\ m_bodyB m = b /\
     (edge_axis vA axis \/ edge_axis vB axis) /\
     overlap_on axis vA vB (depth m) /\
     (forall ax d, edge_axis vA ax \/ edge_axis vB ax -> overlap_on ax vA vB d ->
                   depth m <= d) /\
     (normal m = axis \/ normal m = Vec2.mul axis (-1)) /\
     0 <= Vec2.dot (Vec2.sub (pos B) (pos A)) (normal m)).
Proof.
  intros HvA HvB HneA HneB.
  destruct (polygonVsPolygon_sat a A b B vA vB HvA HvB HneA HneB) as [Hnone Hsome].
  split.
  - rewrite Hnone. split; intros (axis & Hax & Hdis); exists axis;
      (split; [apply edge_axes_mem; exact Hax | exact Hdis]).
  - intros Hall.
    destruct Hsome as (m & axis & Hm & Hc & Ha & Hb & Hax & Hov & Hle & Hn & Hd).
    { intros axis Hax. apply Hall. apply edge_axes_mem. exact Hax. }
    exists m, axis. split; [exact Hm|]. split; [exact Hc|]. split; [exact Ha|].
    split; [exact Hb|]. split; [apply edge_axes_mem; exact Hax|].
    split; [exact Hov|]. split; [|split; assumption].
    intros ax d Hax' Hov'. apply (Hle ax d); [|exact Hov'].
    apply edge_axes_mem. exact Hax'.
Qed.

End Polygon.

(** ** The constraint solver *)

Section Constraints.
Import ConstraintSystem.

Lemma solveOne_skip c (objs : gmap string nat) (h : Store) a b A B :
  objs !! bodyA c = Some a -> objs !! bodyB c = Some b ->
  h !! a = Some A -> h !! b = Some B ->
  Vec2.dist (pos A) (pos B) = 0 ->
  solveOne objs h c = h.
Proof.
  intros Ha Hb HA HB Hd. unfold solveOne. rewrite Ha, Hb, HA, HB.
  destruct (fixed A && fixed B); [reflexivity|].
  destruct (decide (Vec2.dist (pos A) (pos B) = 0)); [reflexivity | contradiction].
Qed.

(** The move of one pass over one constraint, for endpoints that are apart. *)
Lemma solveOne_move c (objs : gmap string nat) (h : Store) a b A B :
  objs !! bodyA c = Some a -> objs !! bodyB c = Some b ->
  h !! a = Some A -> h !! b = Some B ->
  Vec2.dist (pos A) (pos B) <> 0 ->
  let d := Vec2.dist (pos A) (pos B) in
  let nudge := Vec2.mul (Vec2.sub (pos B) (pos A))
                 ((d - c_length c) / d * (stiffness c * (1/2))) in
  solveOne objs h c !! a
    = Some (if fixed A then A else set_pos (Vec2.add (pos A) nudge) A) /\
  solveOne objs h c !! b
    = Some (if fixed B then B else set_pos (Vec2.sub (pos B) nudge) B).
Proof.
  intros Ha Hb HA HB Hd. cbv zeta.
  assert (Hab : a <> b).
  { intros ->. rewrite HA in HB. injection HB as ->.
    apply Hd. apply dist_zero_iff. reflexivity. }
  assert (Hba : b <> a) by congruence.
  unfold solveOne. rewrite Ha, Hb, HA, HB.
  destruct (fixed A) eqn:EA, (fixed B) eqn:EB; cbn [andb];
    try (destruct (decide (Vec2.dist (pos A) (pos B) = 0)) as [|_]; [contradiction|]);
    repeat (rewrite ?list_lookup_alter_eq, ?HA, ?HB;
            rewrite ?list_lookup_alter_ne by assumption);
    cbn [fmap option_fmap option_map]; split; reflexivity.
Qed.

Lemma solve_single c objs (h : Store) : solve [c] objs h = solveOne objs h c.
Proof. reflexivity. Qed.

(** With stiffness 1 and both endpoints free, one pass over endpoints that
    are apart puts them at the rest length. *)
Lemma solveOne_exact c (objs : gmap string nat) (h : Store) a b A B :
  objs !! bodyA c = Some a -> objs !! bodyB c = Some b ->
  h !! a = Some A -> h !! b = Some B ->
  stiffness c = 1 -> fixed A = false -> fixed B = false -> 0 <= c_length c ->
  Vec2.dist (pos A) (pos B) <> 0 \/ Vec2.dist (pos A) (pos B) = c_length c ->
  exists A' B',
    solveOne objs h c !! a = Some A' /\ solveOne objs h c !! b = Some B' /\
    fixed A' = false /\ fixed B' = false /\
    Vec2.dist (pos A') (pos B') = c_length c.
Proof.
  intros Ha Hb HA HB Hst HfA HfB HL Hd.
  destruct (decide (Vec2.dist (pos A) (pos B) = 0)) as [H0 | Hn0].
  - rewrite (solveOne_skip c objs h a b A B Ha Hb HA HB H0).
    exists A, B. repeat split; try assumption.
    destruct Hd as [Hd | Hd]; [contradiction | exact Hd].
  - destruct (solveOne_move c objs h a b A B Ha Hb HA HB Hn0) as [EA EB].
    rewrite HfA in EA. rewrite HfB in EB. rewrite EA, EB.
    eexists; eexists. split; [reflexivity|]. split; [reflexivity|].
    split; [exact HfA|]. split; [exact HfB|].
    cbn [pos set_pos]. rewrite dist_sqrt_lenSq. rewrite <- len_sqrt_lenSq.
    set (d := Vec2.dist (pos A) (pos B)) in *.
    pose proof (dist_nonneg (pos A) (pos B)) as Hd0. fold d in Hd0.
    replace (Vec2.sub _ _)
      with (Vec2.mul (Vec2.sub (pos B) (pos A)) (c_length c / d)).
    + rewrite len_mul. rewrite len_sqrt_lenSq, <- dist_sqrt_lenSq. fold d.
      rewrite Rabs_right.
      * field. exact Hn0.
      * apply Rle_ge. apply Rmult_le_pos; [exact HL|].
        left. apply Rinv_0_lt_compat. lra.
    + rewrite Hst. apply Vector2_eq; cbn [x y Vec2.sub Vec2.mul Vec2.add]; field; exact Hn0.
Qed.

(** C4, as amended.  For a constraint whose two endpoint bodies exist: a
    pass skips it when the endpoints coincide (distance 0); otherwise the
    first endpoint, unless fixed, moves by
    [(posB - posA) * ((d - restLength) / d * (stiffness * 0.5))] and the
    second, unless fixed, by the opposite vector.  With stiffness 1, both
    endpoints free, a non-negative rest length and endpoints that do not
    coincide at the start, the distance equals the rest length after one
    pass and after every further pass. *)
Theorem C4_constraint_pass (c : Constraint) (objs : gmap string nat) (h : Store)
    (a b : nat) (A B : SimObject) :
  objs !! bodyA c = Some a -> objs !! bodyB c = Some b ->
  h !! a = Some A -> h !! b = Some B ->
  (Vec2.dist (pos A) (pos B) = 0 -> solveOne objs h c = h) /\
  (Vec2.dist (pos A) (pos B) <> 0 ->
   exists A' B',
     solveOne objs h c !! a = Some A' /\ solveOne objs h c !! b = Some B' /\
     pos A' = (if fixed A then pos A
               else Vec2.add (pos A)
                      (Vec2.mul (Vec2.sub (pos B) (pos A))
                         ((Vec2.dist (pos A) (pos B) - c_length c)
                            / Vec2.dist (pos A) (pos B) * (stiffness c * (1/2))))) /\
     pos B' = (if fixed B then pos B
               else Vec2.sub (pos B)
                      (Vec2.mul (Vec2.sub (pos B) (pos A))
                         ((Vec2.dist (pos A) (pos B) - c_length c)
                            / Vec2.dist (pos A) (pos B) * (stiffness c * (1/2)))))) /\
  (stiffness c = 1 -> fixed A = false -> fixed B = false ->
   0 <= c_length c -> Vec2.dist (pos A) (pos B) <> 0 ->
   forall n, (1 <= n)%nat ->
   exists A' B',
     Nat.iter n (solve [c] objs) h !! a = Some A' /\
     Nat.iter n (solve [c] objs) h !! b = Some B' /\
     Vec2.dist (pos A') (pos B') = c_length c).
Proof.
  intros Ha Hb HA HB. split; [|split].
  - apply (solveOne_skip c objs h a b A B Ha Hb HA HB).
  - intros Hd.
    destruct (solveOne_move c objs h a b A B Ha Hb HA HB Hd) as [EA EB].
    eexists; eexists. split; [exact EA|]. split; [exact EB|].
    split; [destruct (fixed A) | destruct (fixed B)]; reflexivity.
  - intros Hst HfA HfB HL Hd n Hn.
    assert (Hinv : forall k, exists A' B',
               Nat.iter (S k) (solve [c] objs) h !! a = Some A' /\
               Nat.iter (S k) (solve [c] objs) h !! b = Some B' /\
               fixed A' = false /\ fixed B' = false /\
               Vec2.dist (pos A') (pos B') = c_length c).
    { induction k as [|k IH].
      - change (Nat.iter 1 (solve [c] objs) h) with (solve [c] objs h).
        rewrite solve_single.
        apply (solveOne_exact c objs h a b A B); auto.
      - destruct IH as (A1 & B1 & HA1 & HB1 & HfA1 & HfB1 & Hd1).
        change (Nat.iter (S (S k)) (solve [c] objs) h)
          with (solve [c] objs (Nat.iter (S k) (solve [c] objs) h)).
        rewrite solve_single.
        apply (solveOne_exact c objs _ a b A1 B1); auto. }
    destruct n as [|k]; [lia|].
    destruct (Hinv k) as (A' & B' & HA' & HB' & _ & _ & Hd').
    exists A', B'. auto.
Qed.

Lemma C4_constraint_pass_witness :
  exists A' B',
    Nat.iter constraintIterations (solve [Examples.rod 1] Examples.registry12)
      [Examples.circleA 1 (1/2); Examples.circleB 3 1 (1/2)] !! 0%nat = Some A' /\
    Nat.iter constraintIterations (solve [Examples.rod 1] Examples.registry12)
      [Examples.circleA 1 (1/2); Examples.circleB 3 1 (1/2)] !! 1%nat = Some B' /\
    Vec2.dist (pos A') (pos B') = 1.
Proof.
  destruct (circle_fields 0 1 (1/2) "obj_1") as (_ & _ & _ & HfA & _); [lra | lra |].
  destruct (circle_fields 3 1 (1/2) "obj_2") as (_ & _ & _ & HfB & _); [lra | lra |].
  fold (Examples.circleA 1 (1/2)) in HfA. fold (Examples.circleB 3 1 (1/2)) in HfB.
  destruct (C4_constraint_pass (Examples.rod 1) Examples.registry12
              [Examples.circleA 1 (1/2); Examples.circleB 3 1 (1/2)] 0 1
              (Examples.circleA 1 (1/2)) (Examples.circleB 3 1 (1/2))
              eq_refl eq_refl eq_refl eq_refl) as (_ & _ & Hconv).
  apply (Hconv eq_refl HfA HfB).
  - cbn. lra.
  - rewrite two_circles_dist by lra. lra.
  - unfold constraintIterations. lia.
Defined.

Lemma solve_idle c (objs : gmap string nat) (h : Store) a b A B n :
  objs !! bodyA c = Some a -> objs !! bodyB c = Some b ->
  h !! a = Some A -> h !! b = Some B ->
  Vec2.dist (pos A) (pos B) = 0 ->
  Nat.iter n (solve [c] objs) h = h.
Proof.
  intros Ha Hb HA HB Hd. induction n as [|n IH]; [reflexivity|].
  change (Nat.iter (S n) (solve [c] objs) h)
    with (solve [c] objs (Nat.iter n (solve [c] objs) h)).
  rewrite IH, solve_single. apply (solveOne_skip c objs h a b A B); assumption.
Qed.

(** C4, counterexample: the script adds two circles with [x: 0], so that
    both are at the origin, and connects them with
    [{ length: 1, stiffness: 1 }].  Every pass finds the distance 0 and skips
    the constraint: the distance stays 0 and never comes within 1/2 of the
    rest length 1. *)
Lemma C4_counterexample :
  (objects (this (Examples.two_circles 0 1 1 (1/2)))
     = [Examples.circleA 1 (1/2); Examples.circleB 0 1 (1/2)] /\
   objectMap (this (Examples.two_circles 0 1 1 (1/2))) = Examples.registry12) /\
  ~ AsStated.C4 (Examples.rod 1) Examples.registry12
      [Examples.circleA 1 (1/2); Examples.circleB 0 1 (1/2)].
Proof.
  split.
  { destruct (two_circles_registry 0 1 1 (1/2)) as (Ho & _ & _ & _ & _ & Hm).
    split; [exact Ho | exact Hm]. }
  intros Hclaim.
  destruct (circle_fields 0 1 (1/2) "obj_1") as (_ & _ & HpA & HfA & _); [lra | lra |].
  destruct (circle_fields 0 1 (1/2) "obj_2") as (_ & _ & HpB & HfB & _); [lra | lra |].
  fold (Examples.circleA 1 (1/2)) in HpA, HfA.
  fold (Examples.circleB 0 1 (1/2)) in HpB, HfB.
  assert (Hd : Vec2.dist (pos (Examples.circleA 1 (1/2)))
                 (pos (Examples.circleB 0 1 (1/2))) = 0).
  { apply dist_zero_iff. rewrite HpA, HpB. reflexivity. }
  destruct (Hclaim 0%nat 1%nat (Examples.circleA 1 (1/2)) (Examples.circleB 0 1 (1/2))
              eq_refl eq_refl ltac:(lia) eq_refl eq_refl eq_refl HfA HfB (1/2) ltac:(lra))
    as (N & HN).
  destruct (HN N (le_n N)) as (A' & B' & HA' & HB' & Hlt).
  rewrite (solve_idle (Examples.rod 1) Examples.registry12
             [Examples.circleA 1 (1/2); Examples.circleB 0 1 (1/2)] 0 1
             (Examples.circleA 1 (1/2)) (Examples.circleB 0 1 (1/2)) N
             eq_refl eq_refl eq_refl eq_refl Hd) in HA', HB'.
  injection HA' as <-. injection HB' as <-.
  rewrite Hd in Hlt. cbn [c_length Examples.rod] in Hlt.
  replace (0 - 1) with (- (1)) in Hlt by ring.
  rewrite Rabs_Ropp, Rabs_R1 in Hlt. lra.
Qed.

End Constraints.

(** ** Determinism of scenario construction *)

Section Determinism.
Import PhysicsEngine.

Lemma scene_eq w1 w2 :
  scene w1 = scene w2 ->
  idCounter w1 = idCounter w2 /\ objects (this w1) = objects (this w2) /\
  objectMap (this w1) = objectMap (this w2) /\
  constraints (this w1) = constraints (this w2) /\
  time (this w1) = time (this w2) /\ logs (this w1) = logs (this w2) /\
  draggedObj (this w1) = draggedObj (this w2).
Proof. unfold scene. intros [= -> -> -> -> -> -> ->]. repeat split. Qed.

Lemma respects_ret {A} (a : A) : respects (retM a).
Proof. intros w1 w2 H. split; [exact H | reflexivity]. Qed.

Lemma respects_throw {A} e : respects (@throw A e).
Proof. intros w1 w2 H. split; [exact H | reflexivity]. Qed.

Lemma respects_bind {A B} (c : M A) (k : A -> M B) :
  respects c -> (forall a, respects (k a)) -> respects (bindM c k).
Proof.
  intros Hc Hk w1 w2 H. unfold bindM.
  destruct (Hc w1 w2 H) as [Hs Hr].
  destruct (c w1) as [w1' [a1|e1]], (c w2) as [w2' [a2|e2]];
    cbn [fst snd] in *; try discriminate.
  - injection Hr as ->. apply Hk. exact Hs.
  - injection Hr as ->. split; [exact Hs | reflexivity].
Qed.

Lemma respects_forM {A B} (l : list A) (f : A -> M B) :
  (forall a, respects (f a)) -> respects (forM l f).
Proof.
  intros Hf. induction l as [|a l IH]; cbn [forM].
  - apply respects_ret.
  - apply respects_bind; [apply Hf|]. intros b.
    apply respects_bind; [exact IH|]. intros bs. apply respects_ret.
Qed.

Lemma respects_generateId : respects generateId.
Proof.
  intros w1 w2 H. apply scene_eq in H as (Hc & Ho & Hm & Hcs & Ht & Hl & Hd).
  unfold generateId, scene; cbn. rewrite Hc, Ho, Hm, Hcs, Ht, Hl, Hd. auto.
Qed.

Lemma respects_register obj : respects (register obj).
Proof.
  intros w1 w2 H. apply scene_eq in H as (Hc & Ho & Hm & Hcs & Ht & Hl & Hd).
  unfold register, scene; cbn. rewrite Hc, Ho, Hm, Hcs, Ht, Hl, Hd. auto.
Qed.

Lemma respects_log msg : respects (log msg).
Proof.
  intros w1 w2 H. apply scene_eq in H as (Hc & Ho & Hm & Hcs & Ht & Hl & Hd).
  unfold log, scene; cbn. rewrite Hc, Ho, Hm, Hcs, Ht, Hl, Hd. auto.
Qed.

Lemma respects_pushConstraint c : respects (pushConstraint c).
Proof.
  intros w1 w2 H. apply scene_eq in H as (Hc & Ho & Hm & Hcs & Ht & Hl & Hd).
  unfold pushConstraint, scene; cbn. rewrite Hc, Ho, Hm, Hcs, Ht, Hl, Hd. auto.
Qed.

Lemma respects_deref r : respects (deref r).
Proof.
  intros w1 w2 H. pose proof (scene_eq _ _ H) as (_ & Ho & _).
  unfold deref. rewrite Ho. destruct (objects (this w2) !! r); cbn; auto.
Qed.

Lemma respects_addShape type config : respects (addShape type config).
Proof.
  unfold addShape. apply respects_bind; [apply respects_generateId|]. intros id.
  apply respects_bind; [apply respects_register|]. intros r.
  apply respects_bind; [apply respects_log|]. intros _. apply respects_ret.
Qed.

Lemma respects_connect idA idB config : respects (connect idA idB config).
Proof.
  intros w1 w2 H. pose proof (scene_eq _ _ H) as (_ & Ho & Hm & _).
  unfold connect. rewrite Ho, Hm.
  destruct (objectMap (this w2) !! idA ≫= _) as [objA|]; [|split; [exact H | reflexivity]].
  destruct (objectMap (this w2) !! idB ≫= _) as [objB|]; [|split; [exact H | reflexivity]].
  apply (respects_bind generateId); [apply respects_generateId | | exact H].
  intros id. apply respects_pushConstraint.
Qed.

Lemma respects_connectTo idA idB config : respects (connectTo idA idB config).
Proof.
  destruct idB as [b|]; cbn [connectTo]; [apply respects_connect | apply respects_ret].
Qed.

Lemma respects_addCloth config : respects (addCloth config).
Proof.
  unfold addCloth.
  apply respects_bind.
  { apply respects_forM. intros gy. apply respects_forM. intros gx.
    apply respects_bind; [apply respects_addShape|]. intros p.
    apply respects_bind; [apply respects_deref|]. intros o. apply respects_ret. }
  intros grid. apply respects_bind.
  { apply respects_forM. intros gy. apply respects_forM. intros gx.
    destruct (grid !! gy ≫= _) as [here|]; [|apply respects_throw].
    apply respects_bind.
    - destruct (decide (INR gx < _)); [apply respects_connectTo | apply respects_ret].
    - intros _. destruct (decide (INR gy < _)); [|apply respects_ret].
      destruct (grid !! S gy) as [below|]; [apply respects_connectTo | apply respects_throw]. }
  intros _. destruct (grid !! 0%nat) as [row0|]; [|apply respects_throw].
  intros w1 w2 H. pose proof (scene_eq _ _ H) as (_ & _ & Hm & _).
  cbn [fst snd]. rewrite Hm. auto.
Qed.

Lemma respects_add type config : respects (add type config).
Proof.
  unfold add. destruct (decide (type = cloth)); [apply respects_addCloth|].
  apply respects_bind; [apply respects_addShape|]. intros r. apply respects_ret.
Qed.

Lemma respects_call c : respects (call c).
Proof.
  destruct c as [type config | idA idB config]; cbn [call].
  - apply respects_bind; [apply respects_add|]. intros _. apply respects_ret.
  - apply respects_connect.
Qed.

Lemma respects_replay cs : respects (replay cs).
Proof.
  induction cs as [|c cs IH]; cbn [replay]; [apply respects_ret|].
  apply respects_bind; [apply respects_call|]. intros _. exact IH.
Qed.

Lemma scene_reset w1 w2 : scene (reset w1) = scene (reset w2).
Proof. reflexivity. Qed.

(** C8: whatever two states an engine is in, [reset()] followed by the same
    sequence of [add] and [connect] calls ends the same way in both (the
    same call throws, or none does) and builds the same scene: the same
    number of bodies, with the same identifiers, positions and velocities,
    in fact the same bodies, constraints and identifier counter. *)
Theorem C8_reset_replay_deterministic (cs : list Call) (w1 w2 : World) :
  (replay cs (reset w1)).2 = (replay cs (reset w2)).2 /\
  length (objects (this (replay cs (reset w1)).1))
    = length (objects (this (replay cs (reset w2)).1)) /\
  map o_id (objects (this (replay cs (reset w1)).1))
    = map o_id (objects (this (replay cs (reset w2)).1)) /\
  map pos (objects (this (replay cs (reset w1)).1))
    = map pos (objects (this (replay cs (reset w2)).1)) /\
  map vel (objects (this (replay cs (reset w1)).1))
    = map vel (objects (this (replay cs (reset w2)).1)) /\
  objects (this (replay cs (reset w1)).1) = objects (this (replay cs (reset w2)).1) /\
  constraints (this (replay cs (reset w1)).1)
    = constraints (this (replay cs (reset w2)).1) /\
  idCounter (replay cs (reset w1)).1 = idCounter (replay cs (reset w2)).1.
Proof.
  destruct (respects_replay cs (reset w1) (reset w2) (scene_reset w1 w2)) as [Hs Hr].
  apply scene_eq in Hs as (Hc & Ho & _ & Hcs & _).
  rewrite Ho. repeat split; assumption.
Qed.

Lemma respects_runScript cs : respects (runScript cs).
Proof.
  induction cs as [|c cs IH]; cbn [runScript]; [apply respects_ret|].
  apply respects_bind; [|intros _; exact IH].
  destruct c as [type config | idA idB config]; cbn [proxyCall].
  - apply respects_bind; [apply respects_add|]. intros _. apply respects_ret.
  - destruct (bool_decide (idA = EmptyString) || bool_decide (idB = EmptyString));
      [apply respects_ret | apply respects_connect].
Qed.

(** The same holds for [parseAndExecute], which resets the engine itself and
    logs the exception of a script that throws. *)
Lemma parseAndExecute_deterministic cs w1 w2 :
  scene (parseAndExecute cs w1) = scene (parseAndExecute cs w2).
Proof.
  unfold parseAndExecute.
  destruct (respects_runScript cs (reset w1) (reset w2) (scene_reset w1 w2)) as [Hs Hr].
  destruct (runScript cs (reset w1)) as [w1' [[]|e1]],
           (runScript cs (reset w2)) as [w2' [[]|e2]];
    cbn [fst snd] in *; try discriminate; [exact Hs|].
  injection Hr as ->. apply (respects_log _ w1' w2' Hs).
Qed.

End Determinism.

(** ** What a step leaves of a body *)

Section Frame.
Import PhysicsEngine CollisionSystem ConstraintSystem.

Lemma frame_refl o : frame o o.
Proof. repeat split. Qed.

Lemma frame_trans o1 o2 o3 : frame o1 o2 -> frame o2 o3 -> frame o1 o3.
Proof.
  intros (T1 & F1 & M1 & I1 & P1) (T2 & F2 & M2 & I2 & P2).
  repeat split; try congruence.
  intros Hf. rewrite P2, P1; congruence.
Qed.

Lemma frameG_refl o : frameG o o.
Proof. split; [apply frame_refl | reflexivity]. Qed.

Lemma frameG_trans o1 o2 o3 : frameG o1 o2 -> frameG o2 o3 -> frameG o1 o3.
Proof.
  intros [F1 V1] [F2 V2]. split; [exact (frame_trans _ _ _ F1 F2) | congruence].
Qed.

Lemma frameG_set_pos o o' p : frameG o o' -> fixed o = false -> frameG o (set_pos p o').
Proof.
  intros [(T & F & M & I & P) V] Hf. split; [|exact V].
  repeat split; try assumption. intros Hf'. congruence.
Qed.

Lemma frameG_set_oldPos o o' p : frameG o o' -> frameG o (set_oldPos p o').
Proof. intros [(T & F & M & I & P) V]. split; [|exact V]. repeat split; assumption. Qed.

Lemma Forall2_frameG_refl (h : Store) : Forall2 frameG h h.
Proof. induction h; constructor; [apply frameG_refl | assumption]. Qed.

Lemma Forall2_frameG_trans (h1 h2 h3 : Store) :
  Forall2 frameG h1 h2 -> Forall2 frameG h2 h3 -> Forall2 frameG h1 h3.
Proof. apply Forall2_trans. exact frameG_trans. Qed.

Lemma Forall2_frame_trans (h1 h2 h3 : Store) :
  Forall2 frame h1 h2 -> Forall2 frame h2 h3 -> Forall2 frame h1 h3.
Proof. apply Forall2_trans. exact frame_trans. Qed.

Lemma Forall2_frameG_frame (h1 h2 : Store) : Forall2 frameG h1 h2 -> Forall2 frame h1 h2.
Proof. intros H. eapply Forall2_impl; [exact H|]. intros o o' [F _]. exact F. Qed.

(** Moving a body that is not fixed, through its reference. *)
Lemma frameG_move (h h' : Store) r A p :
  Forall2 frameG h h' -> h !! r = Some A -> fixed A = false ->
  Forall2 frameG h (alter (fun o => set_pos (p o) o) r h').
Proof.
  intros HF HA Hf. apply Forall2_alter_r; [exact HF|].
  intros o o' Ho _ Hoo'. rewrite HA in Ho. injection Ho as <-.
  apply frameG_set_pos; assumption.
Qed.

Lemma frameG_nudge_old (h h' : Store) r p :
  Forall2 frameG h h' ->
  Forall2 frameG h (alter (fun o => set_oldPos (p o) o) r h').
Proof.
  intros HF. apply Forall2_alter_r; [exact HF|].
  intros o o' _ _ Hoo'. apply frameG_set_oldPos. exact Hoo'.
Qed.

(** Collision resolution never moves a fixed body, whatever the manifold. *)
Lemma applyResolution_frame m (h : Store) : Forall2 frameG h (applyResolution m h).
Proof.
  unfold applyResolution.
  destruct (h !! m_bodyA m) as [A|] eqn:HA; [|apply Forall2_frameG_refl].
  destruct (h !! m_bodyB m) as [B|] eqn:HB; [|apply Forall2_frameG_refl].
  destruct (decide (invMass A + invMass B = 0)); [apply Forall2_frameG_refl|].
  set (moveA := Vec2.mul _ (- invMass A / _)). set (moveB := Vec2.mul _ (invMass B / _)).
  set (h1 := if fixed A then h else alter _ (m_bodyA m) h).
  assert (F1 : Forall2 frameG h h1).
  { subst h1. destruct (fixed A) eqn:EA; [apply Forall2_frameG_refl|].
    apply (frameG_move h h (m_bodyA m) A (fun o => Vec2.add (pos o) moveA));
      [apply Forall2_frameG_refl | exact HA | exact EA]. }
  set (h2 := if fixed B then h1 else alter _ (m_bodyB m) h1).
  assert (F2 : Forall2 frameG h h2).
  { subst h2. destruct (fixed B) eqn:EB; [exact F1|].
    apply (frameG_move h h1 (m_bodyB m) B (fun o => Vec2.add (pos o) moveB));
      [exact F1 | exact HB | exact EB]. }
  destruct (h2 !! m_bodyA m) as [A2|]; [|exact F2].
  destruct (h2 !! m_bodyB m) as [B2|]; [|exact F2].
  set (fi := Vec2.mul _ (1/2)).
  set (h3 := if fixed A then h2 else alter _ (m_bodyA m) h2).
  assert (F3 : Forall2 frameG h h3).
  { subst h3. destruct (fixed A); [exact F2|].
    apply (frameG_nudge_old h h2 (m_bodyA m) (fun o => Vec2.add (oldPos o) fi)). exact F2. }
  destruct (fixed B); [exact F3|].
  apply (frameG_nudge_old h h3 (m_bodyB m) (fun o => Vec2.sub (oldPos o) fi)). exact F3.
Qed.

(** Neither does the constraint solver. *)
Lemma solveOne_frame objs (h : Store) c : Forall2 frameG h (solveOne objs h c).
Proof.
  unfold solveOne.
  destruct (objs !! bodyA c) as [a|]; [|apply Forall2_frameG_refl].
  destruct (objs !! bodyB c) as [b|]; [|apply Forall2_frameG_refl].
  destruct (h !! a) as [A|] eqn:HA; [|apply Forall2_frameG_refl].
  destruct (h !! b) as [B|] eqn:HB; [|apply Forall2_frameG_refl].
  destruct (fixed A && fixed B); [apply Forall2_frameG_refl|].
  destruct (decide (Vec2.dist (pos A) (pos B) = 0)); [apply Forall2_frameG_refl|].
  set (nudge := Vec2.mul _ _).
  set (h1 := if fixed A then h else alter _ a h).
  assert (F1 : Forall2 frameG h h1).
  { subst h1. destruct (fixed A) eqn:EA; [apply Forall2_frameG_refl|].
    apply (frameG_move h h a A (fun o => Vec2.add (pos o) nudge));
      [apply Forall2_frameG_refl | exact HA | exact EA]. }
  destruct (fixed B) eqn:EB; [exact F1|].
  apply (frameG_move h h1 b B (fun o => Vec2.sub (pos o) nudge));
    [exact F1 | exact HB | exact EB].
Qed.

Lemma solve_frame cs objs : forall h : Store, Forall2 frameG h (solve cs objs h).
Proof.
  induction cs as [|c cs IH]; intros h; [apply Forall2_frameG_refl|].
  unfold solve. cbn [foldl]. fold (solve cs objs (solveOne objs h c)).
  eapply Forall2_frameG_trans; [apply solveOne_frame | apply IH].
Qed.

Lemma solve_iter_frame cs objs n (h : Store) :
  Forall2 frameG h (Nat.iter n (solve cs objs) h).
Proof.
  induction n as [|n IH]; [apply Forall2_frameG_refl|].
  change (Nat.iter (S n) (solve cs objs) h)
    with (solve cs objs (Nat.iter n (solve cs objs) h)).
  eapply Forall2_frameG_trans; [exact IH | apply solve_frame].
Qed.

End Frame.

(** ** A step always completes *)

Section StepTotal.
Import PhysicsEngine CollisionSystem ConstraintSystem.

Lemma satStep_depth pa pb st ax nrm dpt :
  satStep pa pb (Some st) ax = Some (nrm, dpt) -> exists d, dpt = Some d.
Proof.
  destruct st as [n0 d0]. unfold satStep.
  destruct (separated (pa ax) (pb ax)); [discriminate|].
  destruct d0 as [dp|].
  - destruct (decide (axisDepth (pa ax) (pb ax) < dp)); intros [= <- <-]; eauto.
  - intros [= <- <-]. eauto.
Qed.

Lemma satLoop_depth pa pb axes nrm dpt :
  axes <> [] ->
  satLoop pa pb axes (Some (mkV 0 0, None)) = Some (nrm, dpt) ->
  exists d, dpt = Some d.
Proof.
  intros Hne Hloop.
  pose proof (satLoop_inv pa pb axes [] (mkV 0 0, None) eq_refl) as Hinv.
  rewrite Hloop in Hinv. destruct Hinv as [_ Hbest].
  unfold SatSpec.least_overlap in Hbest. cbn [fst snd app] in Hbest.
  destruct dpt as [d|]; [eauto | contradiction].
Qed.

Lemma edgeAxes_nonempty vs : vs <> [] -> edgeAxes vs <> [].
Proof. destruct vs; [contradiction | discriminate]. Qed.

Lemma polygonVsPolygon_total a A b B :
  (forall vA, vertices A = Some vA -> vA <> []) ->
  exists r, polygonVsPolygon a A b B = Ok r.
Proof.
  intros HA. unfold polygonVsPolygon.
  destruct (vertices A) as [vA|]; [|eauto].
  destruct (vertices B) as [vB|]; [|eauto].
  specialize (HA vA eq_refl).
  change (satLoop (projectVertices vA) (projectVertices vB) (edgeAxes vB)
            (satLoop (projectVertices vA) (projectVertices vB) (edgeAxes vA)
               (Some (mkV 0 0, None))))
    with (foldl (satStep (projectVertices vA) (projectVertices vB))
            (foldl (satStep (projectVertices vA) (projectVertices vB))
               (Some (mkV 0 0, None)) (edgeAxes vA)) (edgeAxes vB)).
  rewrite <- foldl_app.
  fold (satLoop (projectVertices vA) (projectVertices vB)
          (edgeAxes vA ++ edgeAxes vB) (Some (mkV 0 0, None))).
  destruct (satLoop _ _ _ _) as [[nrm dpt]|] eqn:Hloop; [|eauto].
  apply satLoop_depth in Hloop as [d ->]; [eauto|].
  intros Happ. apply app_eq_nil in Happ as [Hnil _].
  exact (edgeAxes_nonempty vA HA Hnil).
Qed.

Lemma circleVsPolygon_total c C p P :
  (forall vP, vertices P = Some vP -> vP <> []) ->
  exists r, circleVsPolygon c C p P = Ok r.
Proof.
  intros HP. unfold circleVsPolygon.
  destruct (vertices P) as [vP|]; [|eauto].
  specialize (HP vP eq_refl).
  destruct (satLoop _ _ _ _) as [st|]; [|eauto].
  destruct vP as [|v0 vP]; [contradiction|].
  destruct (satStep _ _ _ _) as [[nrm dpt]|] eqn:Hstep; [|eauto].
  apply satStep_depth in Hstep as [d ->]. eauto.
Qed.

Lemma geom_ok_vertices o :
  geom_ok o -> o_type o = box -> forall vs, vertices o = Some vs -> vs <> [].
Proof.
  intros [_ Hbox] Hty vs Hvs. destruct (Hbox Hty) as (vs' & Hvs' & Hne). congruence.
Qed.

Lemma detectCollision_total i A j B :
  geom_ok A -> geom_ok B -> exists r, detectCollision i A j B = Ok r.
Proof.
  intros HA HB. unfold detectCollision.
  destruct HA as [[EA | EA] HvA], HB as [[EB | EB] HvB]; rewrite EA, EB.
  - apply polygonVsPolygon_total.
    apply (geom_ok_vertices A); [split; [left; exact EA | exact HvA] | exact EA].
  - apply circleVsPolygon_total.
    apply (geom_ok_vertices A); [split; [left; exact EA | exact HvA] | exact EA].
  - apply circleVsPolygon_total.
    apply (geom_ok_vertices B); [split; [left; exact EB | exact HvB] | exact EB].
  - eauto.
Qed.

Lemma geom_ok_frameG o o' : frameG o o' -> geom_ok o -> geom_ok o'.
Proof.
  intros [(T & _) V] [Hs Hv]. unfold geom_ok, shape_ok in *. rewrite T, V. auto.
Qed.

Lemma Forall_geom_ok_frameG (h h' : Store) :
  Forall2 frameG h h' -> Forall geom_ok h -> Forall geom_ok h'.
Proof.
  intros HF. induction HF as [|o o' h h' Ho _ IH]; [auto|].
  intros Hall. apply Forall_cons in Hall as [H1 H2].
  constructor; [exact (geom_ok_frameG _ _ Ho H1) | exact (IH H2)].
Qed.

Lemma resolvePair_frame (h : Store) ij :
  Forall geom_ok h ->
  exists h', resolvePair h ij = Ok h' /\ Forall2 frameG h h'.
Proof.
  intros Hg. unfold resolvePair.
  destruct (h !! ij.1) as [A|] eqn:HA; [|eauto using Forall2_frameG_refl].
  destruct (h !! ij.2) as [B|] eqn:HB; [|eauto using Forall2_frameG_refl].
  destruct (fixed A && fixed B); [eauto using Forall2_frameG_refl|].
  destruct (detectCollision_total ij.1 A ij.2 B) as [r ->].
  - exact (Forall_lookup_1 _ _ _ _ Hg HA).
  - exact (Forall_lookup_1 _ _ _ _ Hg HB).
  - cbn [rbind]. destruct r as [m|]; [|eauto using Forall2_frameG_refl].
    destruct (hasCollision m); eauto using Forall2_frameG_refl, applyResolution_frame.
Qed.

Lemma resolve_loop_frame ps : forall h h1 : Store,
  Forall geom_ok h -> Forall2 frameG h h1 ->
  exists h',
    foldl (fun r ij => rbind r (fun h => resolvePair h ij)) (Ok h1) ps = Ok h' /\
    Forall2 frameG h h'.
Proof.
  induction ps as [|ij ps IH]; intros h h1 Hg HF; [eauto|].
  cbn [foldl rbind].
  destruct (resolvePair_frame h1 ij (Forall_geom_ok_frameG _ _ HF Hg)) as (h2 & -> & HF2).
  apply (IH h h2 Hg). exact (Forall2_frameG_trans _ _ _ HF HF2).
Qed.

(** The collision pass completes on a store of boxes and circles with cached
    vertices, and leaves every fixed body where it was. *)
Lemma resolve_frame (h : Store) :
  Forall geom_ok h -> exists h', resolve h = Ok h' /\ Forall2 frameG h h'.
Proof.
  intros Hg. apply (resolve_loop_frame _ h h Hg). apply Forall2_frameG_refl.
Qed.

Lemma Forall2_imap_frame (f : nat -> SimObject -> SimObject) (h : Store) :
  (forall i o, frame o (f i o)) -> Forall2 frame h (imap f h).
Proof.
  revert f. induction h as [|o h IH]; intros f Hf; [constructor|].
  cbn [imap]. constructor; [apply Hf|]. apply IH. intros i o'. apply Hf.
Qed.

Lemma applyForces1_frame d i o : frame o (applyForces1 d i o).
Proof.
  unfold applyForces1. destruct (fixed o || bool_decide (d = Some i));
    repeat split.
Qed.

Lemma integrate1_frame d dt i o : frame o (integrate1 d dt i o).
Proof.
  unfold integrate1. destruct (fixed o) eqn:Ef; [apply frame_refl|].
  destruct (bool_decide (d = Some i)); repeat split; cbn; congruence.
Qed.

Lemma updateGeometry_frame o : frame o (updateGeometry o).
Proof.
  destruct (updateGeometry_mass_fields o)
    as (_ & Ei & _ & Eii & Ef & Et & Ep & _).
  repeat split; congruence.
Qed.

Lemma updateGeometry_geom_ok o : shape_ok o -> geom_ok (updateGeometry o).
Proof.
  intros Hs. destruct (updateGeometry_mass_fields o)
    as (_ & _ & _ & _ & _ & Et & _).
  split; [unfold shape_ok; rewrite Et; exact Hs|].
  rewrite Et. intros Hbox. unfold updateGeometry.
  destruct (decide (o_type o = box)); [|contradiction].
  cbn. eexists. split; [reflexivity | discriminate].
Qed.

Lemma shape_ok_frame o o' : frame o o' -> shape_ok o -> shape_ok o'.
Proof. intros (T & _) Hs. unfold shape_ok in *. rewrite T. exact Hs. Qed.

Lemma Forall_shape_ok_frame (h h' : Store) :
  Forall2 frame h h' -> Forall shape_ok h -> Forall shape_ok h'.
Proof.
  intros HF. induction HF as [|o o' h h' Ho _ IH]; [auto|].
  intros Hall. apply Forall_cons in Hall as [H1 H2].
  constructor; [exact (shape_ok_frame _ _ Ho H1) | exact (IH H2)].
Qed.

Lemma subStep_frame e (h : Store) :
  Forall shape_ok h -> exists h', subStep e h = Ok h' /\ Forall2 frame h h'.
Proof.
  intros Hs. unfold subStep.
  set (h1 := applyForces (draggedObj e) h).
  set (h2 := integrate (draggedObj e) (DT / INR subSteps) h1).
  set (h3 := map updateGeometry h2).
  set (h4 := Nat.iter constraintIterations _ h3).
  assert (F1 : Forall2 frame h h1)
    by (apply Forall2_imap_frame; intros; apply applyForces1_frame).
  assert (F2 : Forall2 frame h1 h2)
    by (apply Forall2_imap_frame; intros; apply integrate1_frame).
  assert (F3 : Forall2 frame h2 h3).
  { subst h3. apply Forall2_fmap_r. clear. induction h2; constructor;
      [apply updateGeometry_frame | assumption]. }
  assert (F4 : Forall2 frameG h3 h4) by apply solve_iter_frame.
  assert (S2 : Forall shape_ok h2)
    by (eapply Forall_shape_ok_frame; [exact F2|];
        eapply Forall_shape_ok_frame; [exact F1 | exact Hs]).
  assert (G3 : Forall geom_ok h3).
  { subst h3. apply Forall_fmap. eapply Forall_impl; [exact S2|].
    intros o Ho. apply updateGeometry_geom_ok. exact Ho. }
  assert (G4 : Forall geom_ok h4) by exact (Forall_geom_ok_frameG _ _ F4 G3).
  destruct (resolve_frame h4 G4) as (h5 & -> & F5).
  exists h5. split; [reflexivity|].
  eapply Forall2_frame_trans; [exact F1|].
  eapply Forall2_frame_trans; [exact F2|].
  eapply Forall2_frame_trans; [exact F3|].
  eapply Forall2_frame_trans; apply Forall2_frameG_frame; eassumption.
Qed.

Lemma subSteps_frame e k (h : Store) :
  Forall shape_ok h ->
  exists h', Nat.iter k (fun r => rbind r (subStep e)) (Ok h) = Ok h' /\
             Forall2 frame h h'.
Proof.
  intros Hs. induction k as [|k IH].
  - exists h. split; [reflexivity|].
    clear. induction h; constructor; [apply frame_refl | assumption].
  - destruct IH as (h1 & E1 & F1).
    change (Nat.iter (S k) (fun r => rbind r (subStep e)) (Ok h))
      with (rbind (Nat.iter k (fun r => rbind r (subStep e)) (Ok h)) (subStep e)).
    rewrite E1. cbn [rbind].
    destruct (subStep_frame e h1 (Forall_shape_ok_frame _ _ F1 Hs)) as (h2 & -> & F2).
    exists h2. split; [reflexivity|]. exact (Forall2_frame_trans _ _ _ F1 F2).
Qed.

(** [step] completes, and leaves of every body what [frame] says. *)
Lemma step_frame e :
  Forall shape_ok (objects e) ->
  exists e',
    step e = Ok e' /\ Forall2 frame (objects e) (objects e') /\
    fluidSystem e' = FluidSystem.step DT GRAVITY (fluidSystem e).
Proof.
  intros Hs. unfold step.
  destruct (subSteps_frame e subSteps (objects e) Hs) as (h' & -> & HF).
  cbn [rbind]. eexists. split; [reflexivity|]. split; [exact HF | reflexivity].
Qed.

Lemma steps_frame n : forall e,
  Forall shape_ok (objects e) ->
  exists e', steps n e = Ok e' /\ Forall2 frame (objects e) (objects e').
Proof.
  induction n as [|n IH]; intros e Hs.
  - exists e. split; [reflexivity|].
    generalize (objects e). intros h. induction h; constructor;
      [apply frame_refl | assumption].
  - cbn [steps]. destruct (step_frame e Hs) as (e1 & -> & F1 & _). cbn [rbind].
    destruct (IH e1 (Forall_shape_ok_frame _ _ F1 Hs)) as (e2 & E2 & F2).
    exists e2. split; [exact E2 | exact (Forall2_frame_trans _ _ _ F1 F2)].
Qed.

End StepTotal.

(** ** The invariant of reachable worlds *)

Section Invariant.
Import PhysicsEngine.

Lemma preserves_ret P {A} (a : A) : preserves P (retM a).
Proof. intros w H. exact H. Qed.

Lemma preserves_throw P {A} e : preserves P (@throw A e).
Proof. intros w H. exact H. Qed.

Lemma preserves_bind P {A B} (c : M A) (k : A -> M B) :
  preserves P c -> (forall a, preserves P (k a)) -> preserves P (bindM c k).
Proof.
  intros Hc Hk w H. unfold bindM. specialize (Hc w H).
  destruct (c w) as [w' [a|e]]; cbn [fst] in *; [apply Hk; exact Hc | exact Hc].
Qed.

Lemma preserves_forM P {A B} (l : list A) (f : A -> M B) :
  (forall a, preserves P (f a)) -> preserves P (forM l f).
Proof.
  intros Hf. induction l as [|a l IH]; cbn [forM]; [apply preserves_ret|].
  apply preserves_bind; [apply Hf|]. intros b.
  apply preserves_bind; [exact IH|]. intros bs. apply preserves_ret.
Qed.

Lemma preserves_generateId : preserves Inv generateId.
Proof. intros w H. exact H. Qed.

Lemma preserves_log msg : preserves Inv (log msg).
Proof. intros w H. exact H. Qed.

Lemma preserves_pushConstraint c : preserves Inv (pushConstraint c).
Proof. intros w H. exact H. Qed.

Lemma preserves_deref r : preserves Inv (deref r).
Proof. intros w H. unfold deref. destruct (objects (this w) !! r); exact H. Qed.

Lemma preserves_register obj : body_ok obj -> preserves Inv (register obj).
Proof.
  intros Hobj w [Hb Hf]. split; [|exact Hf]. cbn.
  apply Forall_app. split; [exact Hb|]. constructor; [exact Hobj | constructor].
Qed.

Lemma body_ok_frame o o' : frame o o' -> body_ok o -> body_ok o'.
Proof.
  intros (T & F & M & I & _) [Hs Hf]. unfold body_ok, shape_ok in *.
  rewrite T, F, M, I. auto.
Qed.

(** The body that [add] builds satisfies the invariant of the data model. *)
Lemma buildObject_body_ok type config id :
  type <> cloth ->
  body_ok (updateGeometry
             (if decide (type = plane) then planeToBox (buildObject type config id)
              else buildObject type config id)).
Proof.
  intros Hc. eapply body_ok_frame; [apply updateGeometry_frame|].
  destruct (decide (type = plane)) as [Hp | Hp].
  - split; [left; reflexivity|]. intros _. split; reflexivity.
  - split.
    + unfold shape_ok. cbn. destruct type; auto; contradiction.
    + cbn. intros ->. split.
      * destruct (decide (0 = 0)); [reflexivity | contradiction].
      * rewrite orb_true_r. reflexivity.
Qed.

Lemma preserves_addShape type config :
  type <> cloth -> preserves Inv (addShape type config).
Proof.
  intros Hc. unfold addShape.
  apply preserves_bind; [apply preserves_generateId|]. intros id.
  apply preserves_bind; [apply preserves_register, buildObject_body_ok, Hc|]. intros r.
  apply preserves_bind; [apply preserves_log|]. intros _. apply preserves_ret.
Qed.

Lemma preserves_connect idA idB config : preserves Inv (connect idA idB config).
Proof.
  intros w H. unfold connect.
  destruct (objectMap (this w) !! idA ≫= _); [|exact H].
  destruct (objectMap (this w) !! idB ≫= _); [|exact H].
  exact H.
Qed.

Lemma preserves_connectTo idA idB config : preserves Inv (connectTo idA idB config).
Proof.
  destruct idB; cbn [connectTo]; [apply preserves_connect | apply preserves_ret].
Qed.

Lemma preserves_addCloth config : preserves Inv (addCloth config).
Proof.
  unfold addCloth.
  apply preserves_bind.
  { apply preserves_forM. intros gy. apply preserves_forM. intros gx.
    apply preserves_bind; [apply preserves_addShape; discriminate|]. intros p.
    apply preserves_bind; [apply preserves_deref|]. intros o. apply preserves_ret. }
  intros grid. apply preserves_bind.
  { apply preserves_forM. intros gy. apply preserves_forM. intros gx.
    destruct (grid !! gy ≫= _) as [here|]; [|apply preserves_throw].
    apply preserves_bind.
    - destruct (decide (INR gx < _)); [apply preserves_connectTo | apply preserves_ret].
    - intros _. destruct (decide (INR gy < _)); [|apply preserves_ret].
      destruct (grid !! S gy); [apply preserves_connectTo | apply preserves_throw]. }
  intros _. destruct (grid !! 0%nat); [|apply preserves_throw].
  intros w H. exact H.
Qed.

Lemma preserves_add type config : preserves Inv (add type config).
Proof.
  unfold add. destruct (decide (type = cloth)); [apply preserves_addCloth|].
  apply preserves_bind; [apply preserves_addShape; assumption|].
  intros r. apply preserves_ret.
Qed.

(** The fluid cloud: seeding and the position pass. *)
Lemma posData_in_domain rnd :
  (forall k, 0 <= rnd k < 1) -> Forall in_domain (FluidSystem.posData rnd).
Proof.
  intros Hrnd. unfold FluidSystem.posData. apply Forall_fmap, Forall_forall.
  intros i _. unfold in_domain, compose; cbn [X Y].
  pose proof (Hrnd (4 * i)%nat). pose proof (Hrnd (4 * i + 1)%nat). lra.
Qed.

Lemma updatePos_in_domain dt p v : in_domain (FluidSystem.updatePos dt p v).
Proof.
  unfold FluidSystem.updatePos, in_domain.
  repeat (match goal with |- context [decide ?P] => destruct (decide P) end; cbn [X Y] in *);
    lra.
Qed.

Lemma fluid_step_in_domain dt g f :
  Forall in_domain (FluidSystem.getParticles (FluidSystem.step dt g f)).
Proof.
  unfold FluidSystem.getParticles, GPGPU.readData, FluidSystem.step, GPGPU.run.
  cbn [FluidSystem.posState tex_in]. apply Forall_forall. intros p Hp.
  apply elem_of_zip_with in Hp as (p0 & v0 & -> & _). apply updatePos_in_domain.
Qed.

Lemma Forall_body_ok_frame (h h' : Store) :
  Forall2 frame h h' -> Forall body_ok h -> Forall body_ok h'.
Proof.
  intros HF. induction HF as [|o o' h h' Ho _ IH]; [auto|].
  intros Hall. apply Forall_cons in Hall as [H1 H2].
  constructor; [exact (body_ok_frame _ _ Ho H1) | exact (IH H2)].
Qed.

Lemma Forall_body_shape (h : Store) : Forall body_ok h -> Forall shape_ok h.
Proof. intros H. eapply Forall_impl; [exact H|]. intros o [Hs _]. exact Hs. Qed.

Lemma reachable_Inv w : reachable w -> Inv w.
Proof.
  induction 1 as [rnd c0 Hrnd | w _ [Hb Hf] | w type config _ IH
                 | w idA idB config _ IH | w msg _ IH | w e' _ [Hb Hf] Hstep
                 | w px py _ [Hb Hf] | w px py _ [Hb Hf] | w _ IH | w n _ IH].
  - split; [constructor | exact (posData_in_domain rnd Hrnd)].
  - split; [constructor | exact Hf].
  - exact (preserves_add type config w IH).
  - exact (preserves_connect idA idB config w IH).
  - exact (preserves_log msg w IH).
  - destruct (step_frame (this w) (Forall_body_shape _ Hb)) as (e1 & E1 & F1 & Efl).
    rewrite Hstep in E1. injection E1 as <-. split; cbn [this].
    + exact (Forall_body_ok_frame _ _ F1 Hb).
    + rewrite Efl. apply fluid_step_in_domain.
  - split; cbn [this]; unfold startDrag;
      destruct (list_find _ _) as [[k o]|]; assumption.
  - split; cbn [this]; unfold updateDrag; destruct (draggedObj (this w)); try assumption.
    cbn [set_objects objects]. apply Forall_alter; [exact Hb|].
    intros o _ [Hs Hfx]. split; [exact Hs | exact Hfx].
  - exact IH.
  - exact IH.
Qed.

Lemma reachable_steps n : forall w e',
  reachable w -> steps n (this w) = Ok e' ->
  reachable {| idCounter := idCounter w; this := e' |}.
Proof.
  induction n as [|n IH]; intros w e' Hw Hsteps.
  - injection Hsteps as <-. destruct w; exact Hw.
  - cbn [steps] in Hsteps. destruct (step (this w)) as [e1|] eqn:E1; [|discriminate].
    cbn [rbind] in Hsteps.
    apply (IH {| idCounter := idCounter w; this := e1 |} e');
      [apply reach_step; assumption | exact Hsteps].
Qed.

End Invariant.

(** ** Fixed bodies and the fluid cloud *)

Section FixedAndFluid.
Import PhysicsEngine.

Lemma frame_lookup_fixed (h h' : Store) j o :
  Forall2 frame h h' -> h !! j = Some o -> fixed o = true ->
  exists o', h' !! j = Some o' /\ pos o' = pos o /\ fixed o' = true /\
             invMass o' = invMass o /\ invInertia o' = invInertia o.
Proof.
  intros HF Hj Hf.
  destruct (Forall2_lookup_l _ _ _ _ _ HF Hj) as (o' & Hj' & (_ & F & M & I & P)).
  exists o'. rewrite F, Hf. auto.
Qed.

(** C9: in every world that an engine reaches from its construction, with a
    [Math.random] that returns values in [0, 1), any number of [step()] calls
    (zero included) completes, and every particle then read back from the
    position buffer has [y >= 0] and [-10 <= x <= 10]. *)
Theorem C9_fluid_domain (w : World) :
  reachable w ->
  forall n, exists e',
    steps n (this w) = Ok e' /\
    forall p, p ∈ FluidSystem.getParticles (fluidSystem e') ->
              0 <= Y p /\ -10 <= X p <= 10.
Proof.
  intros Hw n.
  destruct (reachable_Inv w Hw) as [Hb _].
  destruct (steps_frame n (this w) (Forall_body_shape _ Hb)) as (e' & Hsteps & _).
  exists e'. split; [exact Hsteps|].
  destruct (reachable_Inv _ (reachable_steps n w e' Hw Hsteps)) as [_ Hf].
  intros p Hp. exact (proj1 (Forall_forall _ _) Hf p Hp).
Qed.

Lemma world0_reachable : reachable Examples.world0.
Proof. apply reach_new. intros k. lra. Qed.

Lemma C9_fluid_domain_witness :
  exists e',
    steps 3 (this Examples.world0) = Ok e' /\
    forall p, p ∈ FluidSystem.getParticles (fluidSystem e') ->
              0 <= Y p /\ -10 <= X p <= 10.
Proof. exact (C9_fluid_domain Examples.world0 world0_reachable 3). Defined.

(** C1: in every world that an engine reaches, a body with [fixed == true]
    has [invMass == 0] and [invInertia == 0]; any number of [step()] calls
    completes and leaves the body in its slot with the same position, still
    fixed, with inverse mass and inertia 0, whether or not a body is being
    dragged.  On any store, neither [integrate], nor a pass of the
    constraint solver, nor [applyResolution] changes the position of a
    fixed body. *)
Theorem C1_fixed_bodies (w : World) (i : nat) (o : SimObject) :
  reachable w -> objects (this w) !! i = Some o -> fixed o = true ->
  invMass o = 0 /\ invInertia o = 0 /\
  (forall n, exists e' o',
     steps n (this w) = Ok e' /\ objects e' !! i = Some o' /\
     pos o' = pos o /\ fixed o' = true /\ invMass o' = 0 /\ invInertia o' = 0) /\
  (forall d dt (h : Store) j b, h !! j = Some b -> fixed b = true ->
     exists b', integrate d dt h !! j = Some b' /\ pos b' = pos b) /\
  (forall cs objs (h : Store) j b, h !! j = Some b -> fixed b = true ->
     exists b', ConstraintSystem.solve cs objs h !! j = Some b' /\ pos b' = pos b) /\
  (forall m (h : Store) j b, h !! j = Some b -> fixed b = true ->
     exists b', CollisionSystem.applyResolution m h !! j = Some b' /\ pos b' = pos b).
Proof.
  intros Hw Hi Hf.
  destruct (reachable_Inv w Hw) as [Hb _].
  destruct (Forall_lookup_1 _ _ _ _ Hb Hi) as [_ Hzero].
  destruct (Hzero Hf) as [Hm Hin].
  split; [exact Hm|]. split; [exact Hin|]. split; [|split; [|split]].
  - intros n.
    destruct (steps_frame n (this w) (Forall_body_shape _ Hb)) as (e' & Hsteps & HF).
    destruct (frame_lookup_fixed _ _ i o HF Hi Hf) as (o' & Hi' & Hp & Hf' & Hm' & Hin').
    exists e', o'. repeat split; try assumption; congruence.
  - intros d dt h j b Hj Hfb.
    destruct (frame_lookup_fixed h (integrate d dt h) j b) as (b' & Hj' & Hp & _);
      [apply Forall2_imap_frame; intros; apply integrate1_frame | exact Hj | exact Hfb |].
    eauto.
  - intros cs objs h j b Hj Hfb.
    destruct (frame_lookup_fixed h (ConstraintSystem.solve cs objs h) j b)
      as (b' & Hj' & Hp & _);
      [apply Forall2_frameG_frame, solve_frame | exact Hj | exact Hfb |].
    eauto.
  - intros m h j b Hj Hfb.
    destruct (frame_lookup_fixed h (CollisionSystem.applyResolution m h) j b)
      as (b' & Hj' & Hp & _);
      [apply Forall2_frameG_frame, applyResolution_frame | exact Hj | exact Hfb |].
    eauto.
Qed.

Lemma floorWorld_floor : objects (this Examples.floorWorld) !! 0%nat = Some Examples.floor.
Proof.
  unfold Examples.floorWorld. rewrite add_shape by discriminate. cbn [fst].
  rewrite addShape_eq. cbn [this objects].
  change (idCounter Examples.world0) with 0%nat. rewrite id_obj_1.
  destruct (decide (plane = plane)); [reflexivity | contradiction].
Qed.

Lemma C1_fixed_bodies_witness :
  invMass Examples.floor = 0 /\
  exists e' o',
    steps 2 (this Examples.floorWorld) = Ok e' /\ objects e' !! 0%nat = Some o' /\
    pos o' = pos Examples.floor.
Proof.
  destruct (C1_fixed_bodies Examples.floorWorld 0 Examples.floor)
    as (Hm & _ & Hsteps & _).
  - apply reach_add. exact world0_reachable.
  - exact floorWorld_floor.
  - reflexivity.
  - split; [exact Hm|].
    destruct (Hsteps 2%nat) as (e' & o' & He & Ho & Hp & _).
    exists e', o'. auto.
Defined.

End FixedAndFluid.

(** * Further properties of the code *)

(** ** math.ts *)

Section Vec2Facts.

Lemma len_nonneg v : 0 <= Vec2.len v.
Proof. apply sqrt_pos. Qed.

Lemma len_zero_iff v : Vec2.len v = 0 <-> v = mkV 0 0.
Proof.
  split.
  - intros H. apply sqrt_eq_0 in H; [|nra].
    destruct (Rplus_sqr_eq_0 (x v) (y v)) as [Hx Hy]; [unfold Rsqr; exact H|].
    destruct v; cbn in *; subst; reflexivity.
  - intros ->. unfold Vec2.len; cbn. replace (0 * 0 + 0 * 0) with 0 by ring. apply sqrt_0.
Qed.

(** X1: [normalize] returns a unit vector, except for the zero vector (the only
    vector of length 0), which it returns as it is; the result points the
    way the argument does. *)
Theorem normalize_unit_or_zero (v : Vector2) :
  (Vec2.len v = 0 <-> v = mkV 0 0) /\
  Vec2.normalize (mkV 0 0) = mkV 0 0 /\
  Vec2.len (Vec2.normalize v) = (if decide (Vec2.len v = 0) then 0 else 1) /\
  Vec2.mul (Vec2.normalize v) (Vec2.len v) = v.
Proof.
  split; [apply len_zero_iff|]. split.
  { unfold Vec2.normalize; cbn. destruct (decide (sqrt (0 * 0 + 0 * 0) = 0)) as [|Hn];
      [reflexivity|]. exfalso. apply Hn.
    replace (0 * 0 + 0 * 0) with 0 by ring. apply sqrt_0. }
  unfold Vec2.normalize. fold (Vec2.len v).
  destruct (decide (Vec2.len v = 0)) as [H0 | Hn0].
  - pose proof (proj1 (len_zero_iff v) H0) as ->.
    split; [apply len_zero_iff; reflexivity|].
    apply Vector2_eq; cbn; ring.
  - split; [apply (len_div_self v Hn0)|].
    apply Vector2_eq; cbn; field; exact Hn0.
Qed.

(** X2: [rotate] is a rotation: it keeps dot products and lengths, the angle 0
    changes nothing, and two rotations compose to the rotation by the sum
    of the angles. *)
Theorem rotate_isometry (u v : Vector2) (a b : R) :
  Vec2.dot (Vec2.rotate u a) (Vec2.rotate v a) = Vec2.dot u v /\
  Vec2.len (Vec2.rotate v a) = Vec2.len v /\
  Vec2.rotate v 0 = v /\
  Vec2.rotate (Vec2.rotate v a) b = Vec2.rotate v (a + b).
Proof.
  pose proof (sin2_cos2 a) as Hsc. unfold Rsqr in Hsc.
  split; [|split; [|split]].
  - unfold Vec2.dot, Vec2.rotate; cbn [x y].
    replace ((x u * cos a - y u * sin a) * (x v * cos a - y v * sin a) +
             (x u * sin a + y u * cos a) * (x v * sin a + y v * cos a))
      with ((x u * x v + y u * y v) * (sin a * sin a + cos a * cos a)) by ring.
    rewrite Hsc. ring.
  - unfold Vec2.len, Vec2.rotate; cbn [x y]. f_equal.
    replace ((x v * cos a - y v * sin a) * (x v * cos a - y v * sin a) +
             (x v * sin a + y v * cos a) * (x v * sin a + y v * cos a))
      with ((x v * x v + y v * y v) * (sin a * sin a + cos a * cos a)) by ring.
    rewrite Hsc. ring.
  - unfold Vec2.rotate. rewrite cos_0, sin_0. apply Vector2_eq; cbn; ring.
  - unfold Vec2.rotate; cbn [x y]. rewrite cos_plus, sin_plus.
    apply Vector2_eq; cbn; ring.
Qed.

(** X3: [perp] is the rotation by a quarter turn: the result is orthogonal to the
    argument, has its length, and turns it counter-clockwise
    ([cross v (perp v)] is the squared length). *)
Theorem perp_quarter_turn (v : Vector2) :
  Vec2.perp v = Vec2.rotate v (PI / 2) /\
  Vec2.dot v (Vec2.perp v) = 0 /\
  Vec2.len (Vec2.perp v) = Vec2.len v /\
  Vec2.cross v (Vec2.perp v) = Vec2.lenSq v.
Proof.
  split; [|split; [|split]].
  - unfold Vec2.perp, Vec2.rotate. rewrite cos_PI2, sin_PI2.
    apply Vector2_eq; cbn; ring.
  - unfold Vec2.dot, Vec2.perp; cbn. ring.
  - unfold Vec2.len, Vec2.perp; cbn. f_equal. ring.
  - unfold Vec2.cross, Vec2.perp, Vec2.lenSq; cbn. ring.
Qed.

(** X4: [clamp] with bounds in order returns a value within the bounds, and the
    value itself when it already is. *)
Theorem clamp_within (val lo hi : R) :
  lo <= hi ->
  lo <= Vec2.clamp val lo hi <= hi /\
  (lo <= val <= hi -> Vec2.clamp val lo hi = val) /\
  (val <= lo -> Vec2.clamp val lo hi = lo) /\
  (hi <= val -> Vec2.clamp val lo hi = hi).
Proof.
  intros Hlh. unfold Vec2.clamp, Rmax, Rmin.
  destruct (Rle_dec hi val), (Rle_dec lo hi), (Rle_dec lo val);
    repeat split; intros; try lra.
Qed.

Lemma clamp_within_witness :
  0 <= Vec2.clamp 7 0 5 <= 5 /\ Vec2.clamp 7 0 5 = 5.
Proof.
  destruct (clamp_within 7 0 5) as (Hb & _ & _ & Hhi); [lra|].
  split; [exact Hb | apply Hhi; lra].
Defined.

End Vec2Facts.

(** ** The separating-axis test: outcomes *)

Section SatOutcome.
Import CollisionSystem SatSpec.

(** What the two axis loops of [polygonVsPolygon] leave, in the terms of the
    source. *)
Lemma polygonVsPolygon_outcome a A b B vA vB :
  vertices A = Some vA -> vertices B = Some vB ->
  match polygonVsPolygon a A b B with
  | Ok None =>
      exists ax, ax ∈ edgeAxes vA ++ edgeAxes vB /\
                 separated (projectVertices vA ax) (projectVertices vB ax) = true
  | Ok (Some m) =>
      (forall ax, ax ∈ edgeAxes vA ++ edgeAxes vB ->
                  separated (projectVertices vA ax) (projectVertices vB ax) = false) /\
      exists nrm,
        nrm ∈ edgeAxes vA ++ edgeAxes vB /\
        depth m = axisDepth (projectVertices vA nrm) (projectVertices vB nrm) /\
        (forall ax, ax ∈ edgeAxes vA ++ edgeAxes vB ->
           depth m <= axisDepth (projectVertices vA ax) (projectVertices vB ax)) /\
        normal m = orient (Vec2.sub (pos B) (pos A)) nrm /\
        m_bodyA m = a /\ m_bodyB m = b /\ hasCollision m = true
  | Throw _ => edgeAxes vA ++ edgeAxes vB = []
  end.
Proof.
  intros HvA HvB. unfold polygonVsPolygon. rewrite HvA, HvB.
  change (satLoop (projectVertices vA) (projectVertices vB) (edgeAxes vB)
            (satLoop (projectVertices vA) (projectVertices vB) (edgeAxes vA)
               (Some (mkV 0 0, None))))
    with (foldl (satStep (projectVertices vA) (projectVertices vB))
            (foldl (satStep (projectVertices vA) (projectVertices vB))
               (Some (mkV 0 0, None)) (edgeAxes vA)) (edgeAxes vB)).
  rewrite <- foldl_app.
  fold (satLoop (projectVertices vA) (projectVertices vB)
          (edgeAxes vA ++ edgeAxes vB) (Some (mkV 0 0, None))).
  pose proof (satLoop_inv (projectVertices vA) (projectVertices vB)
                (edgeAxes vA ++ edgeAxes vB) [] (mkV 0 0, None) eq_refl) as Hloop.
  destruct (satLoop _ _ _ _) as [[nrm dpt]|]; [|exact Hloop].
  destruct Hloop as [Hall Hbest]. unfold least_overlap in Hbest.
  cbn [fst snd app] in Hbest. destruct dpt as [d|]; [|exact Hbest].
  destruct Hbest as (Hin & Hd & Hle).
  split; [exact Hall|]. exists nrm. cbn. repeat split; assumption.
Qed.

(** Projections that are not separated overlap by a positive amount. *)
Lemma axisDepth_positive pA pB : separated pA pB = false -> 0 < axisDepth pA pB.
Proof.
  destruct pA as [[minA maxA]|], pB as [[minB maxB]|]; cbn; try discriminate.
  intros H. apply orb_false_iff in H as [H1 H2].
  apply bool_decide_eq_false in H1, H2.
  unfold Rmin. destruct (Rle_dec (maxB - minA) (maxA - minB)); lra.
Qed.

Lemma projectVertices_zero_axis vs :
  vs <> [] -> projectVertices vs (mkV 0 0) = Some (0, 0).
Proof.
  intros Hne.
  destruct (projectVertices_spec vs (mkV 0 0) Hne) as (mn & mx & -> & [Hmn _] & [Hmx _]).
  assert (Hall : forall z, z ∈ projections vs (mkV 0 0) -> z = 0).
  { intros z Hz. apply list_elem_of_fmap in Hz as (v & -> & _).
    unfold Vec2.dot; cbn. ring. }
  rewrite (Hall mn Hmn), (Hall mx Hmx). reflexivity.
Qed.

(** The zero axis separates whatever is projected on it. *)
Lemma separated_zero_axis vA vB :
  separated (projectVertices vA (mkV 0 0)) (projectVertices vB (mkV 0 0)) = true.
Proof.
  destruct vA as [|a vA]; [reflexivity|].
  destruct vB as [|b vB]; [rewrite projectVertices_zero_axis by discriminate; reflexivity|].
  rewrite !projectVertices_zero_axis by discriminate. cbn.
  rewrite bool_decide_eq_true_2; [reflexivity | lra].
Qed.

Lemma edgeAxes_normalized vs ax :
  ax ∈ edgeAxes vs -> exists w, ax = Vec2.normalize w.
Proof.
  intros Hax. apply list_elem_of_lookup in Hax as [i Hi].
  unfold edgeAxes in Hi. rewrite list_lookup_imap in Hi.
  destruct (vs !! i) as [v1|]; [|discriminate]. cbn in Hi. injection Hi as <-. eauto.
Qed.

Lemma normalize_len w len0 :
  Vec2.len (Vec2.normalize w) = len0 -> len0 = 1 \/ Vec2.normalize w = mkV 0 0.
Proof.
  intros <-. unfold Vec2.normalize. fold (Vec2.len w).
  destruct (decide (Vec2.len w = 0)) as [H0|Hn0]; [right; reflexivity|].
  left. apply (len_div_self w Hn0).
Qed.

Lemma len_orient direction nrm : Vec2.len (orient direction nrm) = Vec2.len nrm.
Proof.
  unfold orient. destruct (decide (Vec2.dot direction nrm < 0)); [|reflexivity].
  rewrite len_mul. replace (-1) with (- (1)) by ring.
  rewrite Rabs_Ropp, Rabs_R1. ring.
Qed.

(** The model leaves the real numbers ([Throw NonFinite]) on exactly one
    input: two bodies whose cached vertex lists are both empty, for which
    the source returns a manifold with the normal (0, 0) and the depth
    [Infinity]. *)
Lemma polygonVsPolygon_non_finite a A b B e :
  polygonVsPolygon a A b B = Throw e <->
  e = NonFinite /\ vertices A = Some [] /\ vertices B = Some [].
Proof.
  split.
  - intros H. destruct (vertices A) as [vA|] eqn:HvA;
      [|unfold polygonVsPolygon in H; rewrite HvA in H; discriminate].
    destruct (vertices B) as [vB|] eqn:HvB;
      [|unfold polygonVsPolygon in H; rewrite HvA, HvB in H; discriminate].
    pose proof (polygonVsPolygon_outcome a A b B vA vB HvA HvB) as Hout.
    rewrite H in Hout. apply app_eq_nil in Hout as [EA EB].
    assert (Hlen : forall vs, edgeAxes vs = [] -> vs = []).
    { intros vs E. apply length_zero_iff_nil.
      apply (f_equal length) in E. unfold edgeAxes in E.
      rewrite length_imap in E. exact E. }
    apply Hlen in EA as ->. apply Hlen in EB as ->.
    split; [|split; reflexivity].
    unfold polygonVsPolygon in H. rewrite HvA, HvB in H. cbn in H. congruence.
  - intros (-> & HvA & HvB). unfold polygonVsPolygon. rewrite HvA, HvB. reflexivity.
Qed.

(** X5: A manifold that [polygonVsPolygon] returns for two bodies whose cached
    vertex lists are not both empty is well formed: the collision flag is
    set, the bodies are the two arguments in their order, the depth is
    positive, the normal is a unit vector and does not point from the
    second body back to the first.  (For two empty vertex lists the source
    returns a manifold with the normal (0, 0) and the depth [Infinity].) *)
Theorem polygon_manifold_well_formed (a : nat) (A : SimObject) (b : nat) (B : SimObject)
    (vA vB : list Vector2) (m : Manifold) :
  vertices A = Some vA -> vertices B = Some vB -> vA <> [] \/ vB <> [] ->
  polygonVsPolygon a A b B = Ok (Some m) ->
  hasCollision m = true /\ m_bodyA m = a /\ m_bodyB m = b /\
  0 < depth m /\ Vec2.len (normal m) = 1 /\
  0 <= Vec2.dot (Vec2.sub (pos B) (pos A)) (normal m).
Proof.
  intros HvA HvB _ Hm.
  pose proof (polygonVsPolygon_outcome a A b B vA vB HvA HvB) as Hout.
  rewrite Hm in Hout.
  destruct Hout as (Hall & nrm & Hin & Hd & _ & Hn & Ha & Hb & Hc).
  specialize (Hall nrm Hin).
  split; [exact Hc|]. split; [exact Ha|]. split; [exact Hb|].
  split; [rewrite Hd; apply axisDepth_positive; exact Hall|].
  split.
  - rewrite Hn, len_orient.
    assert (Hw : exists w, nrm = Vec2.normalize w).
    { apply elem_of_app in Hin as [H | H]; exact (edgeAxes_normalized _ _ H). }
    destruct Hw as [w ->].
    destruct (normalize_len w _ eq_refl) as [H1 | H0]; [exact H1|].
    rewrite H0 in Hall. rewrite separated_zero_axis in Hall. discriminate.
  - rewrite Hn. apply orient_spec.
Qed.

End SatOutcome.

(** ** Unrotated boxes *)

Section Aabb.
Import CollisionSystem SatSpec.

Lemma normalize_eq v u l :
  0 < l -> x v = x u * l -> y v = y u * l -> x u * x u + y u * y u = 1 ->
  Vec2.normalize v = u.
Proof.
  intros Hl Hx Hy Hu. unfold Vec2.normalize.
  replace (x v * x v + y v * y v) with (l * l)
    by (rewrite Hx, Hy; replace (l * l) with (l * l * (x u * x u + y u * y u))
          by (rewrite Hu; ring); ring).
  rewrite sqrt_square by lra.
  destruct (decide (l = 0)); [lra|].
  apply Vector2_eq; cbn; [rewrite Hx | rewrite Hy]; field; lra.
Qed.

Lemma edgeAxes_rect x0 x1 y0 y1 :
  x0 < x1 -> y0 < y1 -> edgeAxes (rect x0 x1 y0 y1) = rectAxes.
Proof.
  intros Hx Hy. unfold edgeAxes, rect, rectAxes. cbn.
  repeat f_equal.
  - apply (normalize_eq _ _ (x1 - x0)); cbn; lra.
  - apply (normalize_eq _ _ (y1 - y0)); cbn; lra.
  - apply (normalize_eq _ _ (x1 - x0)); cbn; lra.
  - apply (normalize_eq _ _ (y1 - y0)); cbn; lra.
Qed.

Lemma projectVertices_rect x0 x1 y0 y1 :
  x0 < x1 -> y0 < y1 ->
  projectVertices (rect x0 x1 y0 y1) (mkV 0 1) = Some (y0, y1) /\
  projectVertices (rect x0 x1 y0 y1) (mkV (-1) 0) = Some (- x1, - x0) /\
  projectVertices (rect x0 x1 y0 y1) (mkV 0 (-1)) = Some (- y1, - y0) /\
  projectVertices (rect x0 x1 y0 y1) (mkV 1 0) = Some (x0, x1).
Proof.
  intros Hx Hy. unfold projectVertices, rect.
  cbn [foldl projectStep]. unfold Vec2.dot. cbn [x y].
  repeat split; decide_lra; do 2 f_equal; lra.
Qed.

(** The test on two rectangles given by their corners. *)
Lemma rect_sat (a : nat) (A : SimObject) (b : nat) (B : SimObject)
    (ax0 ax1 ay0 ay1 bx0 bx1 by0 by1 : R) :
  vertices A = Some (rect ax0 ax1 ay0 ay1) ->
  vertices B = Some (rect bx0 bx1 by0 by1) ->
  ax0 < ax1 -> ay0 < ay1 -> bx0 < bx1 -> by0 < by1 ->
  (Rmin (bx1 - ax0) (ax1 - bx0) <= 0 \/ Rmin (by1 - ay0) (ay1 - by0) <= 0 ->
   polygonVsPolygon a A b B = Ok None) /\
  (0 < Rmin (bx1 - ax0) (ax1 - bx0) -> 0 < Rmin (by1 - ay0) (ay1 - by0) ->
   exists m,
     polygonVsPolygon a A b B = Ok (Some m) /\
     depth m = Rmin (Rmin (bx1 - ax0) (ax1 - bx0)) (Rmin (by1 - ay0) (ay1 - by0))).
Proof.
  intros HvA HvB Hax Hay Hbx Hby.
  pose proof (polygonVsPolygon_outcome a A b B _ _ HvA HvB) as Hout.
  rewrite !edgeAxes_rect in Hout by assumption.
  destruct (projectVertices_rect ax0 ax1 ay0 ay1 Hax Hay) as (PA1 & PA2 & PA3 & PA4).
  destruct (projectVertices_rect bx0 bx1 by0 by1 Hbx Hby) as (PB1 & PB2 & PB3 & PB4).
  assert (Hsep : forall ax, ax ∈ rectAxes ++ rectAxes ->
            (separated (projectVertices (rect ax0 ax1 ay0 ay1) ax)
                       (projectVertices (rect bx0 bx1 by0 by1) ax) = true
             <-> (ax = mkV 0 1 \/ ax = mkV 0 (-1)) /\ Rmin (by1 - ay0) (ay1 - by0) <= 0
                 \/ (ax = mkV (-1) 0 \/ ax = mkV 1 0) /\ Rmin (bx1 - ax0) (ax1 - bx0) <= 0)
            /\ axisDepth (projectVertices (rect ax0 ax1 ay0 ay1) ax)
                         (projectVertices (rect bx0 bx1 by0 by1) ax)
               = (if decide (x ax = 0) then Rmin (by1 - ay0) (ay1 - by0)
                  else Rmin (bx1 - ax0) (ax1 - bx0))).
  { intros ax Hin. unfold rectAxes in Hin.
    assert (Hcases : ax = mkV 0 1 \/ ax = mkV (-1) 0 \/ ax = mkV 0 (-1) \/ ax = mkV 1 0).
    { apply elem_of_app in Hin as [Hin | Hin];
        repeat (apply elem_of_cons in Hin as [-> | Hin]; [tauto|]); inversion Hin. }
    destruct Hcases as [-> | [-> | [-> | ->]]].
    - rewrite PA1, PB1. cbn [separated axisDepth x]. rewrite orb_true_iff, !bool_decide_eq_true.
      split.
      + split.
        * intros H. left. split; [tauto|]. unfold Rmin. destruct (Rle_dec _ _); lra.
        * intros [[_ H] | [[H | H] _]]; [|inversion H; lra|inversion H; lra].
          unfold Rmin in H. destruct (Rle_dec _ _); lra.
      + destruct (decide (0 = 0)); [reflexivity | lra].
    - rewrite PA2, PB2. cbn [separated axisDepth x]. rewrite orb_true_iff, !bool_decide_eq_true.
      split.
      + split.
        * intros H. right. split; [tauto|]. unfold Rmin. destruct (Rle_dec _ _); lra.
        * intros [[[H | H] _] | [_ H]]; [inversion H; lra|inversion H; lra|].
          unfold Rmin in H. destruct (Rle_dec _ _); lra.
      + destruct (decide (-1 = 0)); [lra|].
        unfold Rmin. destruct (Rle_dec _ _), (Rle_dec _ _); lra.
    - rewrite PA3, PB3. cbn [separated axisDepth x]. rewrite orb_true_iff, !bool_decide_eq_true.
      split.
      + split.
        * intros H. left. split; [tauto|]. unfold Rmin. destruct (Rle_dec _ _); lra.
        * intros [[_ H] | [[H | H] _]]; [|inversion H; lra|inversion H; lra].
          unfold Rmin in H. destruct (Rle_dec _ _); lra.
      + destruct (decide (0 = 0)); [|lra].
        unfold Rmin. destruct (Rle_dec _ _), (Rle_dec _ _); lra.
    - rewrite PA4, PB4. cbn [separated axisDepth x]. rewrite orb_true_iff, !bool_decide_eq_true.
      split.
      + split.
        * intros H. right. split; [tauto|]. unfold Rmin. destruct (Rle_dec _ _); lra.
        * intros [[[H | H] _] | [_ H]]; [inversion H; lra|inversion H; lra|].
          unfold Rmin in H. destruct (Rle_dec _ _); lra.
      + destruct (decide (1 = 0)); [lra | reflexivity]. }
  assert (Hy : mkV 0 1 ∈ rectAxes ++ rectAxes) by (unfold rectAxes; cbn; left).
  assert (Hxa : mkV 1 0 ∈ rectAxes ++ rectAxes)
    by (unfold rectAxes; cbn; do 3 right; left).
  split.
  - intros Hno.
    destruct (polygonVsPolygon a A b B) as [[m|]|e]; [|reflexivity|discriminate].
    exfalso. destruct Hout as [Hall _].
    destruct Hno as [Hno | Hno].
    + pose proof (Hall _ Hxa) as Hf.
      rewrite (proj2 (proj1 (Hsep _ Hxa))) in Hf; [discriminate|]. right. tauto.
    + pose proof (Hall _ Hy) as Hf.
      rewrite (proj2 (proj1 (Hsep _ Hy))) in Hf; [discriminate|]. left. tauto.
  - intros Hox Hoy.
    destruct (polygonVsPolygon a A b B) as [[m|]|e]; [| |discriminate].
    + exists m. split; [reflexivity|].
      destruct Hout as (_ & nrm & Hin & Hd & Hle & _).
      pose proof (Hle _ Hy) as Ly. pose proof (Hle _ Hxa) as Lx.
      rewrite (proj2 (Hsep _ Hy)) in Ly. rewrite (proj2 (Hsep _ Hxa)) in Lx.
      rewrite (proj2 (Hsep _ Hin)) in Hd. cbn [x] in Ly, Lx.
      destruct (decide (0 = 0)); [|lra]. destruct (decide (1 = 0)); [lra|].
      set (ox := Rmin (bx1 - ax0) (ax1 - bx0)) in *.
      set (oy := Rmin (by1 - ay0) (ay1 - by0)) in *.
      unfold Rmin at 1. destruct (Rle_dec ox oy); destruct (decide (x nrm = 0)); lra.
    + exfalso. destruct Hout as (ax & Hin & Hs).
      apply (proj1 (Hsep _ Hin)) in Hs. destruct Hs as [[_ H] | [_ H]]; lra.
Qed.

Lemma updateGeometry_unrotated o :
  o_type o = box -> angle o = 0 ->
  vertices (PhysicsEngine.updateGeometry o)
  = Some (rect (x (pos o) - width o / 2) (x (pos o) + width o / 2)
               (y (pos o) - height o / 2) (y (pos o) + height o / 2)).
Proof.
  intros Hty Hang. unfold PhysicsEngine.updateGeometry.
  destruct (decide (o_type o = box)); [|contradiction].
  cbn [vertices set_vertices map]. unfold Vec2.rotate, Vec2.add, rect.
  rewrite Hang, cos_0, sin_0. cbn [x y].
  do 2 f_equal; [|f_equal; [|f_equal; [|f_equal]]]; apply Vector2_eq; cbn [x y]; lra.
Qed.

(** X6: Two unrotated boxes with positive width and height, with the vertices
    that [updateGeometry] caches.  Detection reports a collision exactly
    when the extents of the boxes overlap by a positive amount on both
    coordinate axes, and the depth is then the smaller of the two overlaps. *)
Theorem unrotated_boxes_overlap (a : nat) (A : SimObject) (b : nat) (B : SimObject) :
  o_type A = box -> o_type B = box -> angle A = 0 -> angle B = 0 ->
  0 < width A -> 0 < height A -> 0 < width B -> 0 < height B ->
  (Rmin ((x (pos B) + width B / 2) - (x (pos A) - width A / 2))
        ((x (pos A) + width A / 2) - (x (pos B) - width B / 2)) <= 0 \/
   Rmin ((y (pos B) + height B / 2) - (y (pos A) - height A / 2))
        ((y (pos A) + height A / 2) - (y (pos B) - height B / 2)) <= 0 ->
   detectCollision a (PhysicsEngine.updateGeometry A) b (PhysicsEngine.updateGeometry B)
     = Ok None) /\
  (0 < Rmin ((x (pos B) + width B / 2) - (x (pos A) - width A / 2))
            ((x (pos A) + width A / 2) - (x (pos B) - width B / 2)) ->
   0 < Rmin ((y (pos B) + height B / 2) - (y (pos A) - height A / 2))
            ((y (pos A) + height A / 2) - (y (pos B) - height B / 2)) ->
   exists m,
     detectCollision a (PhysicsEngine.updateGeometry A) b (PhysicsEngine.updateGeometry B)
       = Ok (Some m) /\
     hasCollision m = true /\
     depth m
     = Rmin (Rmin ((x (pos B) + width B / 2) - (x (pos A) - width A / 2))
                  ((x (pos A) + width A / 2) - (x (pos B) - width B / 2)))
            (Rmin ((y (pos B) + height B / 2) - (y (pos A) - height A / 2))
                  ((y (pos A) + height A / 2) - (y (pos B) - height B / 2)))).
Proof.
  intros HtA HtB HaA HaB HwA HhA HwB HhB.
  destruct (updateGeometry_mass_fields A) as (_ & _ & _ & _ & _ & EtA & _).
  destruct (updateGeometry_mass_fields B) as (_ & _ & _ & _ & _ & EtB & _).
  assert (Hd : detectCollision a (PhysicsEngine.updateGeometry A) b
                 (PhysicsEngine.updateGeometry B)
               = polygonVsPolygon a (PhysicsEngine.updateGeometry A) b
                   (PhysicsEngine.updateGeometry B)).
  { unfold detectCollision. rewrite EtA, EtB, HtA, HtB. reflexivity. }
  rewrite Hd.
  destruct (rect_sat a (PhysicsEngine.updateGeometry A) b (PhysicsEngine.updateGeometry B)
              _ _ _ _ _ _ _ _
              (updateGeometry_unrotated A HtA HaA) (updateGeometry_unrotated B HtB HaB))
    as [Hnone Hsome]; try lra.
  split; [exact Hnone|].
  intros Hox Hoy. destruct (Hsome Hox Hoy) as (m & Hm & Hdepth).
  exists m. split; [exact Hm|]. split; [|exact Hdepth].
  rewrite Hm in Hd.
  pose proof (polygonVsPolygon_outcome a _ b _ _ _
                (updateGeometry_unrotated A HtA HaA) (updateGeometry_unrotated B HtB HaB))
    as Hout.
  rewrite Hm in Hout. destruct Hout as (_ & nrm & _ & _ & _ & _ & _ & _ & Hc).
  exact Hc.
Qed.

Lemma unitBox_fields px id :
  o_type (PhysicsEngine.buildObject box (Examples.cfg_at px) id) = box /\
  angle (PhysicsEngine.buildObject box (Examples.cfg_at px) id) = 0 /\
  width (PhysicsEngine.buildObject box (Examples.cfg_at px) id) = 1 /\
  height (PhysicsEngine.buildObject box (Examples.cfg_at px) id) = 1 /\
  pos (PhysicsEngine.buildObject box (Examples.cfg_at px) id) = mkV (orElse (Some px) 0) 0.
Proof. repeat split. Qed.

(** Two unit boxes half a unit apart collide with depth 1/2. *)
Lemma unit_boxes_collide :
  exists m,
    detectCollision 0 (Examples.unitBox 0 "obj_1") 1 (Examples.unitBox (1/2) "obj_2")
      = Ok (Some m) /\
    hasCollision m = true /\ depth m = 1 / 2.
Proof.
  destruct (unitBox_fields 0 "obj_1") as (TA & AA & WA & HA & PA).
  destruct (unitBox_fields (1/2) "obj_2") as (TB & AB & WB & HB & PB).
  rewrite orElse_zero in PA. rewrite orElse_supplied in PB by lra.
  pose proof (rect_sat 0 (Examples.unitBox 0 "obj_1") 1 (Examples.unitBox (1/2) "obj_2")
                _ _ _ _ _ _ _ _
                (updateGeometry_unrotated _ TA AA) (updateGeometry_unrotated _ TB AB))
    as Hsat.
  rewrite WA, HA, WB, HB, PA, PB in Hsat. cbn [x y] in Hsat.
  destruct Hsat as [_ Hsome]; try lra.
  destruct Hsome as (m & Hm & Hdepth).
  - unfold Rmin. destruct (Rle_dec _ _); lra.
  - unfold Rmin. destruct (Rle_dec _ _); lra.
  - exists m.
    assert (Hd : detectCollision 0 (Examples.unitBox 0 "obj_1") 1
                   (Examples.unitBox (1/2) "obj_2") = Ok (Some m)) by exact Hm.
    split; [exact Hd|].
    pose proof (polygonVsPolygon_outcome 0 _ 1 _ _ _
                  (updateGeometry_unrotated _ TA AA) (updateGeometry_unrotated _ TB AB))
      as Hout.
    change (polygonVsPolygon 0 (PhysicsEngine.updateGeometry
                                  (PhysicsEngine.buildObject box (Examples.cfg_at 0) "obj_1"))
              1 (PhysicsEngine.updateGeometry
                   (PhysicsEngine.buildObject box (Examples.cfg_at (1/2)) "obj_2")))
      with (polygonVsPolygon 0 (Examples.unitBox 0 "obj_1") 1
              (Examples.unitBox (1/2) "obj_2")) in Hout.
    rewrite Hm in Hout. destruct Hout as (_ & nrm & _ & _ & _ & _ & _ & _ & Hc).
    split; [exact Hc|].
    rewrite Hdepth. unfold Rmin.
    repeat (destruct (Rle_dec _ _)); lra.
Qed.

Lemma unrotated_boxes_overlap_witness :
  Rmin ((1 + 1 / 2) - (0 - 1 / 2)) ((0 + 1 / 2) - (1 - 1 / 2)) <= 0 /\
  detectCollision 0
    (PhysicsEngine.updateGeometry (PhysicsEngine.buildObject box (Examples.cfg_at 0) "obj_1"))
    1
    (PhysicsEngine.updateGeometry (PhysicsEngine.buildObject box (Examples.cfg_at 1) "obj_2"))
  = Ok None.
Proof.
  assert (Hmin : Rmin ((1 + 1 / 2) - (0 - 1 / 2)) ((0 + 1 / 2) - (1 - 1 / 2)) <= 0)
    by (unfold Rmin; destruct (Rle_dec _ _); lra).
  split; [exact Hmin|].
  destruct (unitBox_fields 0 "obj_1") as (TA & AA & WA & HA & PA).
  destruct (unitBox_fields 1 "obj_2") as (TB & AB & WB & HB & PB).
  rewrite orElse_zero in PA. rewrite orElse_supplied in PB by lra.
  destruct (unrotated_boxes_overlap 0 _ 1 _ TA TB AA AB) as [Hnone _];
    rewrite ?WA, ?HA, ?WB, ?HB; try lra.
  apply Hnone. left. rewrite WA, WB, PA, PB. cbn [x y]. exact Hmin.
Defined.

Lemma polygon_manifold_well_formed_witness :
  exists m,
    polygonVsPolygon 0 (Examples.unitBox 0 "obj_1") 1 (Examples.unitBox (1/2) "obj_2")
      = Ok (Some m) /\
    0 < depth m /\ Vec2.len (normal m) = 1.
Proof.
  destruct unit_boxes_collide as (m & Hm & _).
  assert (Hp : polygonVsPolygon 0 (Examples.unitBox 0 "obj_1") 1
                 (Examples.unitBox (1/2) "obj_2") = Ok (Some m)) by exact Hm.
  exists m. split; [exact Hp|].
  destruct (unitBox_fields 0 "obj_1") as (TA & AA & _).
  destruct (unitBox_fields (1/2) "obj_2") as (TB & AB & _).
  destruct (polygon_manifold_well_formed 0 (Examples.unitBox 0 "obj_1") 1
              (Examples.unitBox (1/2) "obj_2") _ _ m
              (updateGeometry_unrotated _ TA AA) (updateGeometry_unrotated _ TB AB))
    as (_ & _ & _ & Hd & Hn & _); [left; discriminate | exact Hp |].
  split; assumption.
Defined.

End Aabb.

(** ** The separating-axis test on two unit boxes *)

Section PolygonExamples.
Import CollisionSystem SatSpec.

Lemma orElse_or_zero r : orElse (Some r) 0 = r.
Proof. unfold orElse. destruct (decide (r = 0)) as [-> | _]; reflexivity. Qed.

Lemma unitBox_rect px id :
  vertices (Examples.unitBox px id)
  = Some (rect (px - 1 / 2) (px + 1 / 2) (0 - 1 / 2) (0 + 1 / 2)).
Proof.
  destruct (unitBox_fields px id) as (T & A & W & H & P).
  unfold Examples.unitBox. rewrite (updateGeometry_unrotated _ T A), W, H, P.
  cbn [x y]. rewrite orElse_or_zero. reflexivity.
Qed.

Lemma C3_polygon_sat_witness :
  polygonVsPolygon 0 (Examples.unitBox 0 "obj_1") 1 (Examples.unitBox 3 "obj_2")
    = Ok None /\
  exists m axis,
    polygonVsPolygon 0 (Examples.unitBox 0 "obj_1") 1 (Examples.unitBox (1/2) "obj_2")
      = Ok (Some m) /\
    hasCollision m = true /\
    (edge_axis (rect (0 - 1 / 2) (0 + 1 / 2) (0 - 1 / 2) (0 + 1 / 2)) axis \/
     edge_axis (rect (1 / 2 - 1 / 2) (1 / 2 + 1 / 2) (0 - 1 / 2) (0 + 1 / 2)) axis) /\
    (normal m = axis \/ normal m = Vec2.mul axis (-1)) /\
    overlap_on axis (rect (0 - 1 / 2) (0 + 1 / 2) (0 - 1 / 2) (0 + 1 / 2))
      (rect (1 / 2 - 1 / 2) (1 / 2 + 1 / 2) (0 - 1 / 2) (0 + 1 / 2)) (depth m) /\
    depth m = 1 / 2.
Proof.
  split.
  - (* three units apart: the axis (1, 0) separates the boxes *)
    apply (C3_polygon_sat 0 (Examples.unitBox 0 "obj_1") 1 (Examples.unitBox 3 "obj_2")
             _ _ (unitBox_rect 0 "obj_1") (unitBox_rect 3 "obj_2"));
      [discriminate | discriminate |].
    exists (mkV 1 0). split.
    + left. apply edgeAxes_spec. rewrite edgeAxes_rect by lra.
      unfold rectAxes. do 3 right. left.
    + apply separated_spec; [discriminate | discriminate |].
      destruct (projectVertices_rect (0 - 1 / 2) (0 + 1 / 2) (0 - 1 / 2) (0 + 1 / 2))
        as (_ & _ & _ & ->); [lra | lra |].
      destruct (projectVertices_rect (3 - 1 / 2) (3 + 1 / 2) (0 - 1 / 2) (0 + 1 / 2))
        as (_ & _ & _ & ->); [lra | lra |].
      cbn [separated]. apply orb_true_iff. right. apply bool_decide_eq_true. lra.
  - (* half a unit apart: no axis separates the boxes *)
    destruct unit_boxes_collide as (m' & Hm' & _ & Hdepth).
    assert (Hp : polygonVsPolygon 0 (Examples.unitBox 0 "obj_1") 1
                   (Examples.unitBox (1/2) "obj_2") = Ok (Some m')) by exact Hm'.
    pose proof (polygonVsPolygon_outcome 0 _ 1 _ _ _
                  (unitBox_rect 0 "obj_1") (unitBox_rect (1/2) "obj_2")) as Hout.
    rewrite Hp in Hout. destruct Hout as [Hall _].
    destruct (C3_polygon_sat 0 (Examples.unitBox 0 "obj_1") 1
                (Examples.unitBox (1/2) "obj_2")
                _ _ (unitBox_rect 0 "obj_1") (unitBox_rect (1/2) "obj_2"))
      as [_ Hsome]; [discriminate | discriminate |].
    destruct Hsome as (m & axis & Hm & Hc & _ & _ & Hax & Hov & _ & Hn & _).
    { intros axis Hax Hdis. apply edge_axes_mem in Hax.
      apply separated_spec in Hdis; [|discriminate | discriminate].
      rewrite (Hall axis Hax) in Hdis. discriminate. }
    exists m, axis. split; [exact Hm|]. split; [exact Hc|]. split; [exact Hax|].
    split; [exact Hn|]. split; [exact Hov|].
    rewrite Hp in Hm. injection Hm as <-. exact Hdepth.
Defined.

End PolygonExamples.

(** ** Geometry refresh *)

Section Geometry.
Import PhysicsEngine.

Lemma sqrt_sq_abs r e : e = r * r -> sqrt e = Rabs r.
Proof. intros ->. fold (Rsqr r). apply sqrt_Rsqr_abs. Qed.

(** X7: [updateGeometry] caches, for a box, the four corners of a rectangle
    centered at the body's position: consecutive corners are [width] and
    [height] apart, adjacent sides are perpendicular, and the corners
    average to the position, whatever the angle. *)
Theorem box_vertices_rectangle (o : SimObject) :
  o_type o = box ->
  exists v0 v1 v2 v3,
    vertices (updateGeometry o) = Some [v0; v1; v2; v3] /\
    x v0 + x v1 + x v2 + x v3 = 4 * x (pos o) /\
    y v0 + y v1 + y v2 + y v3 = 4 * y (pos o) /\
    Vec2.dist v0 v1 = Rabs (width o) /\ Vec2.dist v1 v2 = Rabs (height o) /\
    Vec2.dist v2 v3 = Rabs (width o) /\ Vec2.dist v3 v0 = Rabs (height o) /\
    Vec2.dot (Vec2.sub v1 v0) (Vec2.sub v3 v0) = 0.
Proof.
  intros Hty. unfold updateGeometry.
  destruct (decide (o_type o = box)); [|contradiction].
  cbn [vertices set_vertices map].
  do 4 eexists. split; [reflexivity|].
  pose proof (sin2_cos2 (angle o)) as Hsc. unfold Rsqr in Hsc.
  set (c := cos (angle o)) in *. set (s := sin (angle o)) in *.
  unfold Vec2.rotate, Vec2.add, Vec2.dist, Vec2.dot, Vec2.sub. cbn [x y].
  fold c s.
  split; [lra|]. split; [lra|].
  split; [|split; [|split; [|split]]].
  - apply sqrt_sq_abs.
    replace (width o * width o) with (width o * width o * (s * s + c * c))
      by (rewrite Hsc; ring). field.
  - apply sqrt_sq_abs.
    replace (height o * height o) with (height o * height o * (s * s + c * c))
      by (rewrite Hsc; ring). field.
  - apply sqrt_sq_abs.
    replace (width o * width o) with (width o * width o * (s * s + c * c))
      by (rewrite Hsc; ring). field.
  - apply sqrt_sq_abs.
    replace (height o * height o) with (height o * height o * (s * s + c * c))
      by (rewrite Hsc; ring). field.
  - field.
Qed.

Lemma box_vertices_rectangle_witness :
  exists v0 v1 v2 v3,
    vertices (Examples.unitBox 3 "obj_1") = Some [v0; v1; v2; v3] /\
    Vec2.dist v0 v1 = 1 /\ Vec2.dist v1 v2 = 1.
Proof.
  destruct (box_vertices_rectangle
              (buildObject box (Examples.cfg_at 3) "obj_1") eq_refl)
    as (v0 & v1 & v2 & v3 & Hv & _ & _ & H01 & H12 & _).
  exists v0, v1, v2, v3. split; [exact Hv|].
  destruct (unitBox_fields 3 "obj_1") as (_ & _ & WA & HA & _).
  rewrite WA in H01. rewrite HA in H12. rewrite Rabs_R1 in H01, H12. auto.
Defined.

End Geometry.

(** ** Narrow phase: circle against polygon *)

Section CirclePolygon.
Import CollisionSystem SatSpec.

(** The closest-vertex loop returns a vertex of the list that no other
    vertex beats. *)
Lemma closest_from c vs : forall seen cv,
  cv ∈ seen ->
  (forall v, v ∈ seen -> Vec2.lenSq (Vec2.sub c cv) <= Vec2.lenSq (Vec2.sub c v)) ->
  let r := (foldl (closestStep c) (cv, Some (Vec2.lenSq (Vec2.sub c cv))) vs).1 in
  r ∈ seen ++ vs /\
  forall v, v ∈ seen ++ vs -> Vec2.lenSq (Vec2.sub c r) <= Vec2.lenSq (Vec2.sub c v).
Proof.
  induction vs as [|v vs IH]; intros seen cv Hin Hmin; cbv zeta.
  - cbn. rewrite app_nil_r. auto.
  - cbn [foldl].
    change (closestStep c (cv, Some (Vec2.lenSq (Vec2.sub c cv))) v)
      with (if decide (Vec2.lenSq (Vec2.sub c v) < Vec2.lenSq (Vec2.sub c cv))
            then (v, Some (Vec2.lenSq (Vec2.sub c v)))
            else (cv, Some (Vec2.lenSq (Vec2.sub c cv)))).
    destruct (decide (Vec2.lenSq (Vec2.sub c v) < Vec2.lenSq (Vec2.sub c cv))) as [Hlt|Hge].
    + specialize (IH (seen ++ [v]) v). cbv zeta in IH.
      rewrite <- app_assoc in IH. cbn [app] in IH. apply IH.
      * apply elem_of_app. right. apply list_elem_of_singleton. reflexivity.
      * intros u [Hu | Hu%list_elem_of_singleton]%elem_of_app.
        -- specialize (Hmin u Hu). lra.
        -- subst u. lra.
    + specialize (IH (seen ++ [v]) cv). cbv zeta in IH.
      rewrite <- app_assoc in IH. cbn [app] in IH. apply IH.
      * apply elem_of_app. left. exact Hin.
      * intros u [Hu | Hu%list_elem_of_singleton]%elem_of_app.
        -- exact (Hmin u Hu).
        -- subst u. lra.
Qed.

Lemma closest_spec c v0 vs :
  let r := (foldl (closestStep c) (v0, None) (v0 :: vs)).1 in
  r ∈ v0 :: vs /\
  forall v, v ∈ v0 :: vs -> Vec2.lenSq (Vec2.sub c r) <= Vec2.lenSq (Vec2.sub c v).
Proof.
  cbv zeta. cbn [foldl].
  change (closestStep c (v0, None) v0) with (v0, Some (Vec2.lenSq (Vec2.sub c v0))).
  apply (closest_from c vs [v0] v0).
  - apply list_elem_of_singleton. reflexivity.
  - intros v Hv%list_elem_of_singleton. subst v. lra.
Qed.

Lemma separated_circle_spec C vP axis :
  vP <> [] ->
  separated (projectCircle C axis) (projectVertices vP axis) = true
  <-> circle_disjoint_on axis C vP.
Proof.
  intros HP.
  destruct (projectVertices_spec vP axis HP) as (minB & maxB & -> & [HminB LB] & [HmaxB UB]).
  unfold projectCircle, separated, circle_disjoint_on.
  rewrite orb_true_iff, !bool_decide_eq_true. split.
  - intros [H | H]; [left | right]; intros q Hq;
      pose proof (LB q Hq); pose proof (UB q Hq); lra.
  - intros [H | H]; [left | right].
    + apply Rle_ge. apply H. exact HmaxB.
    + apply Rle_ge. apply H. exact HminB.
Qed.

Lemma axisDepth_circle_spec C vP axis :
  vP <> [] ->
  circle_overlap_on axis C vP
    (axisDepth (projectCircle C axis) (projectVertices vP axis)).
Proof.
  intros HP.
  destruct (projectVertices_spec vP axis HP) as (minB & maxB & -> & HminB & HmaxB).
  exists minB, maxB. cbn. auto.
Qed.

Lemma circle_overlap_on_unique axis C vP d d' :
  circle_overlap_on axis C vP d -> circle_overlap_on axis C vP d' -> d = d'.
Proof.
  intros (b1 & b2 & H1 & H2 & ->) (e1 & e2 & K1 & K2 & ->).
  rewrite (is_min_unique _ _ _ H1 K1), (is_max_unique _ _ _ H2 K2). reflexivity.
Qed.

(** The outcome of [circleVsPolygon] in terms of the axes that its loop
    computes. *)
Lemma circleVsPolygon_axes (c : nat) (C : SimObject) (p : nat) (P : SimObject)
    (vP : list Vector2) :
  vertices P = Some vP -> vP <> [] ->
  exists cv,
    cv ∈ vP /\
    (forall v, v ∈ vP ->
       Vec2.lenSq (Vec2.sub (pos C) cv) <= Vec2.lenSq (Vec2.sub (pos C) v)) /\
    match circleVsPolygon c C p P with
    | Ok None =>
        exists ax, ax ∈ edgeAxes vP ++ [Vec2.normalize (Vec2.sub cv (pos C))] /\
                   circle_disjoint_on ax C vP
    | Ok (Some m) =>
        (forall ax, ax ∈ edgeAxes vP ++ [Vec2.normalize (Vec2.sub cv (pos C))] ->
                    ~ circle_disjoint_on ax C vP) /\
        m_bodyA m = c /\ m_bodyB m = p /\ hasCollision m = true /\
        0 < depth m /\
        0 <= Vec2.dot (Vec2.sub (pos P) (pos C)) (normal m) /\
        exists nrm,
          nrm ∈ edgeAxes vP ++ [Vec2.normalize (Vec2.sub cv (pos C))] /\
          (normal m = nrm \/ normal m = Vec2.mul nrm (-1)) /\
          circle_overlap_on nrm C vP (depth m) /\
          (forall ax d, ax ∈ edgeAxes vP ++ [Vec2.normalize (Vec2.sub cv (pos C))] ->
                        circle_overlap_on ax C vP d -> depth m <= d)
    | Throw _ => False
    end.
Proof.
  intros HvP HP. destruct vP as [|v0 vs]; [contradiction|].
  destruct (closest_spec (pos C) v0 vs) as [Hcv Hclosest].
  set (cv := (foldl (closestStep (pos C)) (v0, None) (v0 :: vs)).1) in *.
  exists cv. split; [exact Hcv|]. split; [exact Hclosest|].
  set (axes := edgeAxes (v0 :: vs) ++ [Vec2.normalize (Vec2.sub cv (pos C))]).
  pose proof (satLoop_inv (projectCircle C) (projectVertices (v0 :: vs)) axes []
                (mkV 0 0, None) eq_refl) as Hloop.
  assert (Hrun : satLoop (projectCircle C) (projectVertices (v0 :: vs)) axes
                   (Some (mkV 0 0, None))
                 = satStep (projectCircle C) (projectVertices (v0 :: vs))
                     (satLoop (projectCircle C) (projectVertices (v0 :: vs))
                        (edgeAxes (v0 :: vs)) (Some (mkV 0 0, None)))
                     (Vec2.normalize (Vec2.sub cv (pos C)))).
  { unfold satLoop, axes. rewrite foldl_app. reflexivity. }
  unfold circleVsPolygon. rewrite HvP.
  fold cv. rewrite Hrun in Hloop.
  destruct (satLoop (projectCircle C) (projectVertices (v0 :: vs))
              (edgeAxes (v0 :: vs)) (Some (mkV 0 0, None))) as [st|].
  - destruct (satStep _ _ (Some st) _) as [[nrm dpt]|].
    + destruct Hloop as [Hall Hbest]. unfold least_overlap in Hbest.
      cbn [fst snd app] in Hbest.
      destruct dpt as [d|];
        [|exfalso; revert Hbest; unfold axes; destruct (edgeAxes (v0 :: vs)); discriminate].
      destruct Hbest as (Hin & Hd & Hle). cbn [m_bodyA m_bodyB hasCollision depth normal].
      destruct (orient_spec (Vec2.sub (pos P) (pos C)) nrm) as [Hor Hdot].
      split.
      { intros ax Hax Hdis. apply (separated_circle_spec C (v0 :: vs) ax HP) in Hdis.
        rewrite (Hall ax Hax) in Hdis. discriminate. }
      split; [reflexivity|]. split; [reflexivity|]. split; [reflexivity|].
      split; [rewrite Hd; apply axisDepth_positive, Hall, Hin|].
      split; [exact Hdot|].
      exists nrm. split; [exact Hin|]. split; [exact Hor|].
      split; [rewrite Hd; apply axisDepth_circle_spec; exact HP|].
      intros ax d' Hax Hov.
      rewrite (circle_overlap_on_unique _ _ _ _ _ Hov
                 (axisDepth_circle_spec C (v0 :: vs) ax HP)).
      apply Hle. exact Hax.
    + destruct Hloop as (ax & Hax & Hsep). exists ax. split; [exact Hax|].
      apply (separated_circle_spec C (v0 :: vs) ax HP). exact Hsep.
  - cbn [satStep] in Hloop. destruct Hloop as (ax & Hax & Hsep).
    exists ax. split; [exact Hax|].
    apply (separated_circle_spec C (v0 :: vs) ax HP). exact Hsep.
Qed.

Lemma circle_axes_mem (vP : list Vector2) (n ax : Vector2) :
  ax ∈ edgeAxes vP ++ [n] <-> edge_axis vP ax \/ ax = n.
Proof. rewrite elem_of_app, edgeAxes_spec, list_elem_of_singleton. reflexivity. Qed.

(** X8: [circleVsPolygon], for a polygon with a non-empty cached vertex list.
    The axes tested are the edge axes of the polygon (for every edge, from a
    vertex to the next one and from the last to the first, the unit vector
    perpendicular to it, or the zero vector for an edge between two equal
    vertices) and the normalized vector from the circle's center to a
    vertex closest to it.  No collision is reported exactly when, on one of
    these axes, the interval of the circle and the projections of the
    polygon are disjoint or touch.  Otherwise the manifold holds the circle
    first and the polygon second, its depth is positive and least among the
    overlaps on the tested axes, and its normal is that axis or its
    opposite, not pointing from the polygon back to the circle.  The call
    does not throw. *)
Theorem circle_polygon_outcome (c : nat) (C : SimObject) (p : nat) (P : SimObject)
    (vP : list Vector2) :
  vertices P = Some vP -> vP <> [] ->
  exists cv,
    cv ∈ vP /\
    (forall v, v ∈ vP ->
       Vec2.lenSq (Vec2.sub (pos C) cv) <= Vec2.lenSq (Vec2.sub (pos C) v)) /\
    match circleVsPolygon c C p P with
    | Ok None =>
        exists ax, (edge_axis vP ax \/ ax = Vec2.normalize (Vec2.sub cv (pos C))) /\
                   circle_disjoint_on ax C vP
    | Ok (Some m) =>
        (forall ax, edge_axis vP ax \/ ax = Vec2.normalize (Vec2.sub cv (pos C)) ->
                    ~ circle_disjoint_on ax C vP) /\
        m_bodyA m = c /\ m_bodyB m = p /\ hasCollision m = true /\
        0 < depth m /\
        0 <= Vec2.dot (Vec2.sub (pos P) (pos C)) (normal m) /\
        exists nrm,
          (edge_axis vP nrm \/ nrm = Vec2.normalize (Vec2.sub cv (pos C))) /\
          (normal m = nrm \/ normal m = Vec2.mul nrm (-1)) /\
          circle_overlap_on nrm C vP (depth m) /\
          (forall ax d, edge_axis vP ax \/ ax = Vec2.normalize (Vec2.sub cv (pos C)) ->
                        circle_overlap_on ax C vP d -> depth m <= d)
    | Throw _ => False
    end.
Proof.
  intros HvP HP.
  destruct (circleVsPolygon_axes c C p P vP HvP HP) as (cv & Hcv & Hclosest & Hout).
  exists cv. split; [exact Hcv|]. split; [exact Hclosest|].
  destruct (circleVsPolygon c C p P) as [[m|]|e]; [| |exact Hout].
  - destruct Hout as (Hall & Ha & Hb & Hc & Hd & Hdot & nrm & Hin & Hn & Hov & Hle).
    split; [intros ax Hax; apply Hall, circle_axes_mem; exact Hax|].
    split; [exact Ha|]. split; [exact Hb|]. split; [exact Hc|]. split; [exact Hd|].
    split; [exact Hdot|].
    exists nrm. split; [apply circle_axes_mem; exact Hin|]. split; [exact Hn|].
    split; [exact Hov|].
    intros ax d Hax. apply Hle, circle_axes_mem. exact Hax.
  - destruct Hout as (ax & Hax & Hdis). exists ax.
    split; [apply circle_axes_mem; exact Hax | exact Hdis].
Qed.

Lemma circle_polygon_outcome_witness :
  circleVsPolygon 0 (Examples.circleA 1 (1/2)) 1 (Examples.unitBox 3 "obj_2") = Ok None.
Proof.
  destruct (circle_fields 0 1 (1/2) "obj_1") as (_ & HR & HP & _); [lra | lra |].
  fold (Examples.circleA 1 (1/2)) in HR, HP. rewrite orElse_or_zero in HP.
  destruct (circle_polygon_outcome 0 (Examples.circleA 1 (1/2)) 1
              (Examples.unitBox 3 "obj_2") _ (unitBox_rect 3 "obj_2"))
    as (cv & _ & _ & Hout); [discriminate|].
  destruct (circleVsPolygon 0 (Examples.circleA 1 (1/2)) 1 (Examples.unitBox 3 "obj_2"))
    as [[m|]|e]; [exfalso | reflexivity | contradiction].
  destruct Hout as (Hall & _). apply (Hall (mkV 1 0)).
  - left. apply edgeAxes_spec. rewrite edgeAxes_rect by lra.
    unfold rectAxes. do 3 right. left.
  - right. intros q Hq. unfold projections in Hq.
    apply list_elem_of_fmap in Hq as (v & -> & Hv).
    rewrite HP, HR. unfold Vec2.dot, rect in *. cbn [x y].
    repeat (apply elem_of_cons in Hv as [-> | Hv]; [cbn [x y]; lra|]).
    apply elem_of_nil in Hv. contradiction.
Defined.

End CirclePolygon.

(** ** The collision pass *)

Section ResolveFacts.
Import PhysicsEngine CollisionSystem ConstraintSystem.

Lemma circleVsCircle_bodies a A b B :
  m_bodyA (circleVsCircle a A b B) = a /\ m_bodyB (circleVsCircle a A b B) = b.
Proof.
  unfold circleVsCircle. destruct (decide _); [split; reflexivity|].
  destruct (decide _); split; reflexivity.
Qed.

Lemma polygonVsPolygon_bodies a A b B m :
  polygonVsPolygon a A b B = Ok (Some m) -> m_bodyA m = a /\ m_bodyB m = b.
Proof.
  unfold polygonVsPolygon.
  destruct (vertices A); [|discriminate]. destruct (vertices B); [|discriminate].
  destruct (satLoop _ _ _ _) as [[nrm [d|]]|]; try discriminate.
  intros [= <-]. split; reflexivity.
Qed.

Lemma circleVsPolygon_bodies c C p P m :
  circleVsPolygon c C p P = Ok (Some m) -> m_bodyA m = c /\ m_bodyB m = p.
Proof.
  unfold circleVsPolygon.
  destruct (vertices P) as [vP|]; [|discriminate].
  destruct (satLoop _ _ _ _) as [st|]; [|discriminate].
  destruct vP as [|v0 vP]; [discriminate|].
  destruct (satStep _ _ _ _) as [[nrm [d|]]|]; try discriminate.
  intros [= <-]. split; reflexivity.
Qed.

(** A manifold refers to the two bodies that were tested. *)
Lemma detectCollision_bodies i A j B m :
  detectCollision i A j B = Ok (Some m) ->
  (m_bodyA m = i /\ m_bodyB m = j) \/ (m_bodyA m = j /\ m_bodyB m = i).
Proof.
  unfold detectCollision.
  destruct (o_type A), (o_type B); try discriminate; intros H;
    first [ injection H as <-; left; apply circleVsCircle_bodies
          | left; exact (polygonVsPolygon_bodies _ _ _ _ _ H)
          | right; exact (polygonVsPolygon_bodies _ _ _ _ _ H)
          | left; exact (circleVsPolygon_bodies _ _ _ _ _ H)
          | right; exact (circleVsPolygon_bodies _ _ _ _ _ H) ].
Qed.

Lemma applyResolution_local m (h : Store) k :
  k <> m_bodyA m -> k <> m_bodyB m -> applyResolution m h !! k = h !! k.
Proof.
  intros Ha Hb. unfold applyResolution.
  destruct (h !! m_bodyA m) as [A|]; [|reflexivity].
  destruct (h !! m_bodyB m) as [B|]; [|reflexivity].
  destruct (decide _); [reflexivity|].
  assert (Ha' : m_bodyA m <> k) by congruence.
  assert (Hb' : m_bodyB m <> k) by congruence.
  destruct (fixed A), (fixed B);
    repeat match goal with
           | |- context [match ?l !! ?i with _ => _ end] => destruct (l !! i)
           end;
    rewrite ?list_lookup_alter_ne by assumption; reflexivity.
Qed.

Lemma applyResolution_length m (h : Store) : length (applyResolution m h) = length h.
Proof. symmetry. exact (Forall2_length _ _ _ (applyResolution_frame m h)). Qed.

(** X9: Resolving one pair of a store of boxes and circles with cached vertices
    completes, keeps the number of bodies, and leaves every body other than
    the two of the pair exactly as it was; a pair of two fixed bodies is
    skipped, and the whole store is left as it was. *)
Theorem resolvePair_local (h : Store) (i j : nat) :
  Forall geom_ok h ->
  exists h',
    resolvePair h (i, j) = Ok h' /\ length h' = length h /\
    (forall k, k <> i -> k <> j -> h' !! k = h !! k) /\
    (forall A B, h !! i = Some A -> h !! j = Some B ->
                 fixed A = true -> fixed B = true -> h' = h).
Proof.
  intros Hg. destruct (resolvePair_frame h (i, j) Hg) as (h' & Hr & HF).
  exists h'. split; [exact Hr|].
  split; [symmetry; exact (Forall2_length _ _ _ HF)|].
  unfold resolvePair in Hr. cbn [fst snd] in Hr. split.
  - intros k Hki Hkj.
    destruct (h !! i) as [A|]; [|injection Hr as <-; reflexivity].
    destruct (h !! j) as [B|]; [|injection Hr as <-; reflexivity].
    destruct (fixed A && fixed B); [injection Hr as <-; reflexivity|].
    destruct (detectCollision i A j B) as [[m|]|e] eqn:Hd; cbn [rbind] in Hr;
      [|injection Hr as <-; reflexivity|discriminate].
    destruct (hasCollision m); injection Hr as <-; [|reflexivity].
    destruct (detectCollision_bodies _ _ _ _ _ Hd) as [[Ea Eb] | [Ea Eb]];
      apply applyResolution_local; congruence.
  - intros A B HA HB HfA HfB. rewrite HA, HB, HfA, HfB in Hr.
    cbn [andb] in Hr. injection Hr as <-. reflexivity.
Qed.

Lemma circles_geom_ok mA mB d r :
  r <> 0 -> mA <> 0 -> mB <> 0 ->
  Forall geom_ok [Examples.circleA mA r; Examples.circleB d mB r].
Proof.
  intros Hr HA HB.
  destruct (circle_fields 0 mA r "obj_1" Hr HA) as (TA & _).
  destruct (circle_fields d mB r "obj_2" Hr HB) as (TB & _).
  fold (Examples.circleA mA r) in TA. fold (Examples.circleB d mB r) in TB.
  repeat constructor; unfold shape_ok; try (right; assumption); congruence.
Qed.

Lemma resolvePair_local_witness :
  exists h',
    resolvePair [Examples.circleA 1 (1/2); Examples.circleB (1/2) 1 (1/2)] (0%nat, 1%nat)
      = Ok h' /\
    length h' = 2%nat.
Proof.
  destruct (resolvePair_local [Examples.circleA 1 (1/2); Examples.circleB (1/2) 1 (1/2)]
              0 1) as (h' & Hr & Hlen & _).
  - apply circles_geom_ok; lra.
  - exists h'. split; [exact Hr | exact Hlen].
Defined.

Lemma updateGeometry_idem o : updateGeometry (updateGeometry o) = updateGeometry o.
Proof.
  unfold updateGeometry. destruct (decide (o_type o = box)) as [Hb|Hb]; cbn [o_type set_vertices].
  - destruct (decide (o_type o = box)); [reflexivity | contradiction].
  - destruct (decide (o_type o = box)); [contradiction | reflexivity].
Qed.

Lemma imap_fixed_id (f : nat -> SimObject -> SimObject) (h : Store) :
  (forall i o, fixed o = true -> f i o = o) ->
  Forall (fun o => fixed o = true) h -> imap f h = h.
Proof.
  revert f. induction h as [|o h IH]; intros f Hf Hall; [reflexivity|].
  apply Forall_cons in Hall as [Ho Hall]. cbn [imap].
  rewrite (Hf 0%nat o Ho). f_equal. apply IH; [|exact Hall].
  intros i o' Ho'. apply Hf. exact Ho'.
Qed.

Lemma iter_fixpoint {A} (f : A -> A) (x : A) n : f x = x -> Nat.iter n f x = x.
Proof.
  intros Hf. induction n as [|n IH]; [reflexivity|].
  change (Nat.iter (S n) f x) with (f (Nat.iter n f x)). rewrite IH. exact Hf.
Qed.

Lemma solve_all_fixed cs objs (h : Store) :
  Forall (fun o => fixed o = true) h -> solve cs objs h = h.
Proof.
  intros Hall. induction cs as [|c cs IH]; [reflexivity|].
  unfold solve in *. cbn [foldl].
  replace (solveOne objs h c) with h; [exact IH|].
  unfold solveOne.
  destruct (objs !! bodyA c) as [a|]; [|reflexivity].
  destruct (objs !! bodyB c) as [b|]; [|reflexivity].
  destruct (h !! a) as [A|] eqn:HA; [|reflexivity].
  destruct (h !! b) as [B|] eqn:HB; [|reflexivity].
  rewrite (Forall_lookup_1 _ _ _ _ Hall HA), (Forall_lookup_1 _ _ _ _ Hall HB).
  reflexivity.
Qed.

Lemma resolve_all_fixed (h : Store) :
  Forall (fun o => fixed o = true) h -> resolve h = Ok h.
Proof.
  intros Hall. unfold resolve. induction (pairs (length h)) as [|ij ps IH];
    [reflexivity|].
  cbn [foldl rbind].
  replace (resolvePair h ij) with (Ok h); [exact IH|].
  unfold resolvePair.
  destruct (h !! ij.1) as [A|] eqn:HA; [|reflexivity].
  destruct (h !! ij.2) as [B|] eqn:HB; [|reflexivity].
  rewrite (Forall_lookup_1 _ _ _ _ Hall HA), (Forall_lookup_1 _ _ _ _ Hall HB).
  reflexivity.
Qed.

(** X10: A scene in which every body is fixed is static: [step] completes,
    whatever the kinds of the bodies, adds [DT] to the clock, and leaves
    every body as it was, but for the refreshed vertex cache of the boxes. *)
Theorem static_scene_step (e : Engine) :
  Forall (fun o => fixed o = true) (objects e) ->
  exists e',
    step e = Ok e' /\ objects e' = map updateGeometry (objects e) /\
    time e' = time e + DT /\ constraints e' = constraints e.
Proof.
  intros Hall.
  assert (Hsub : forall h, Forall (fun o => fixed o = true) h ->
                   subStep e h = Ok (map updateGeometry h)).
  { intros h Hh. unfold subStep.
    unfold applyForces. rewrite imap_fixed_id;
      [|intros i o Ho; unfold applyForces1; rewrite Ho; reflexivity | exact Hh].
    unfold integrate. rewrite imap_fixed_id;
      [|intros i o Ho; unfold integrate1; rewrite Ho; reflexivity | exact Hh].
    assert (Hh' : Forall (fun o => fixed o = true) (map updateGeometry h)).
    { apply Forall_fmap. eapply Forall_impl; [exact Hh|].
      intros o Ho. cbn. destruct (updateGeometry_mass_fields o) as (_ & _ & _ & _ & -> & _).
      exact Ho. }
    replace (Nat.iter constraintIterations _ (map updateGeometry h))
      with (map updateGeometry h).
    - apply resolve_all_fixed. exact Hh'.
    - symmetry. apply iter_fixpoint. apply solve_all_fixed. exact Hh'. }
  assert (Hiter : forall k, (0 < k)%nat ->
            Nat.iter k (fun r => rbind r (subStep e)) (Ok (objects e))
            = Ok (map updateGeometry (objects e))).
  { intros k Hk. induction k as [|k IHk]; [lia|].
    change (Nat.iter (S k) (fun r => rbind r (subStep e)) (Ok (objects e)))
      with (rbind (Nat.iter k (fun r => rbind r (subStep e)) (Ok (objects e))) (subStep e)).
    destruct k as [|k].
    - cbn [Nat.iter rbind]. apply Hsub. exact Hall.
    - rewrite IHk by lia. cbn [rbind]. rewrite Hsub.
      + f_equal. rewrite <- list_fmap_compose. apply list_fmap_ext.
        intros i o _. cbn. apply updateGeometry_idem.
      + apply Forall_fmap. eapply Forall_impl; [exact Hall|].
        intros o Ho. cbn.
        destruct (updateGeometry_mass_fields o) as (_ & _ & _ & _ & -> & _). exact Ho. }
  unfold step. rewrite Hiter by (unfold subSteps; lia). cbn [rbind].
  eexists. split; [reflexivity|]. repeat split.
Qed.

Lemma static_scene_step_witness :
  exists e',
    step (this Examples.floorWorld) = Ok e' /\
    objects e' = map updateGeometry (objects (this Examples.floorWorld)).
Proof.
  destruct (static_scene_step (this Examples.floorWorld)) as (e' & Hs & Ho & _).
  - apply Forall_lookup_2. intros i o Hi.
    destruct i as [|i].
    + rewrite floorWorld_floor in Hi. injection Hi as <-. reflexivity.
    + exfalso. pose proof (lookup_lt_Some _ _ _ Hi) as Hlt.
      assert (Hlen : length (objects (this Examples.floorWorld)) = 1%nat).
      { unfold Examples.floorWorld. rewrite add_shape by discriminate. cbn [fst].
        rewrite addShape_eq. cbn [this objects]. reflexivity. }
      lia.
  - exists e'. split; assumption.
Defined.

End ResolveFacts.

(** ** Convergence of the constraint passes *)

Section SolverFacts.
Import ConstraintSystem.

Lemma dist_scaled (p q u : Vector2) (k d : R) :
  Vec2.sub q p = Vec2.mul u k -> 0 <= k -> Vec2.len u = d ->
  Vec2.dist p q = k * d.
Proof.
  intros Hs Hk Hd. rewrite dist_sqrt_lenSq, <- len_sqrt_lenSq, Hs, len_mul, Hd.
  rewrite Rabs_right by lra. reflexivity.
Qed.

(** One pass over one constraint whose endpoints are apart and not both
    fixed: the error shrinks by the factor [1 - stiffness], or
    [1 - stiffness / 2] when one endpoint is fixed. *)
Lemma solveOne_contracts c (objs : gmap string nat) (h : Store) a b A B :
  objs !! bodyA c = Some a -> objs !! bodyB c = Some b ->
  h !! a = Some A -> h !! b = Some B ->
  Vec2.dist (pos A) (pos B) <> 0 ->
  0 <= stiffness c <= 1 -> 0 <= c_length c ->
  fixed A && fixed B = false ->
  exists A' B',
    solveOne objs h c !! a = Some A' /\ solveOne objs h c !! b = Some B' /\
    fixed A' = fixed A /\ fixed B' = fixed B /\
    Vec2.dist (pos A') (pos B') - c_length c
      = (1 - stiffness c * (if fixed A || fixed B then 1/2 else 1))
        * (Vec2.dist (pos A) (pos B) - c_length c) /\
    (fixed A = false -> fixed B = false ->
     Vec2.add (pos A') (pos B') = Vec2.add (pos A) (pos B)).
Proof.
  intros Ha Hb HA HB Hn0 Hs HL Hfix.
  destruct (solveOne_move c objs h a b A B Ha Hb HA HB Hn0) as [EA EB].
  rewrite EA, EB. eexists; eexists.
  split; [reflexivity|]. split; [reflexivity|].
  pose proof (dist_nonneg (pos A) (pos B)) as Hd0.
  assert (Hlen : Vec2.len (Vec2.sub (pos B) (pos A)) = Vec2.dist (pos A) (pos B)).
  { rewrite dist_sqrt_lenSq. reflexivity. }
  set (d := Vec2.dist (pos A) (pos B)) in *.
  set (s := stiffness c) in *. set (L := c_length c) in *.
  assert (Hd : 0 < d) by lra.
  assert (Hq : forall k, 0 <= k <= 1 -> 0 <= 1 - (d - L) / d * (s * k)).
  { intros k Hk.
    replace (1 - (d - L) / d * (s * k)) with (((1 - s * k) * d + s * k * L) / d)
      by (field; lra).
    apply Rmult_le_pos; [|left; apply Rinv_0_lt_compat; exact Hd].
    assert (0 <= s * k <= 1) by nra. nra. }
  destruct (fixed A) eqn:HfA, (fixed B) eqn:HfB; try discriminate;
    cbn [orb pos set_pos fixed]; rewrite ?HfA, ?HfB;
    (split; [reflexivity|]); (split; [reflexivity|]).
  - split; [|discriminate].
    rewrite (dist_scaled _ _ (Vec2.sub (pos B) (pos A))
               (1 - (d - L) / d * (s * (1/2))) d);
      [field; lra | | apply Hq; lra | exact Hlen].
    apply Vector2_eq; cbn [x y Vec2.sub Vec2.mul Vec2.add]; field; lra.
  - split; [|discriminate].
    rewrite (dist_scaled _ _ (Vec2.sub (pos B) (pos A))
               (1 - (d - L) / d * (s * (1/2))) d);
      [field; lra | | apply Hq; lra | exact Hlen].
    apply Vector2_eq; cbn [x y Vec2.sub Vec2.mul Vec2.add]; field; lra.
  - split.
    + rewrite (dist_scaled _ _ (Vec2.sub (pos B) (pos A))
                 (1 - (d - L) / d * (s * 1)) d);
        [field; lra | | apply Hq; lra | exact Hlen].
      apply Vector2_eq; cbn [x y Vec2.sub Vec2.mul Vec2.add]; field; lra.
    + intros _ _. apply Vector2_eq; cbn [x y Vec2.sub Vec2.mul Vec2.add]; ring.
Qed.

(** X11: Repeated passes over a single distance constraint converge
    geometrically.  For endpoints that exist, are apart and are not both
    fixed, a stiffness in [0, 1] and a non-negative rest length, after [n]
    passes the distance error is the initial error times [(1 - stiffness)^n],
    or times [(1 - stiffness/2)^n] when one endpoint is fixed; with both
    endpoints free the sum of the two positions (their midpoint) never
    moves. *)
Theorem constraint_passes_converge c (objs : gmap string nat) (h : Store)
    a b A B (n : nat) :
  objs !! bodyA c = Some a -> objs !! bodyB c = Some b ->
  h !! a = Some A -> h !! b = Some B ->
  Vec2.dist (pos A) (pos B) <> 0 ->
  0 <= stiffness c <= 1 -> 0 <= c_length c ->
  fixed A && fixed B = false ->
  exists A' B',
    Nat.iter n (solve [c] objs) h !! a = Some A' /\
    Nat.iter n (solve [c] objs) h !! b = Some B' /\
    Vec2.dist (pos A') (pos B') - c_length c
      = (1 - stiffness c * (if fixed A || fixed B then 1/2 else 1)) ^ n
        * (Vec2.dist (pos A) (pos B) - c_length c) /\
    (fixed A = false -> fixed B = false ->
     Vec2.add (pos A') (pos B') = Vec2.add (pos A) (pos B)).
Proof.
  intros Ha Hb HA HB Hn0 Hs HL Hfix.
  set (r := 1 - stiffness c * (if fixed A || fixed B then 1/2 else 1)).
  assert (Hr : 0 <= r).
  { unfold r. destruct (fixed A || fixed B); nra. }
  enough (Hmain : exists A' B',
    Nat.iter n (solve [c] objs) h !! a = Some A' /\
    Nat.iter n (solve [c] objs) h !! b = Some B' /\
    fixed A' = fixed A /\ fixed B' = fixed B /\
    (Vec2.dist (pos A') (pos B') <> 0 \/ c_length c = 0) /\
    Vec2.dist (pos A') (pos B') - c_length c
      = r ^ n * (Vec2.dist (pos A) (pos B) - c_length c) /\
    (fixed A = false -> fixed B = false ->
     Vec2.add (pos A') (pos B') = Vec2.add (pos A) (pos B))).
  { destruct Hmain as (A' & B' & H1 & H2 & _ & _ & _ & H3 & H4).
    exists A', B'. repeat split; assumption. }
  induction n as [|n IH].
  - exists A, B. cbn [Nat.iter]. repeat split; try assumption.
    + left. exact Hn0.
    + cbn [pow]. ring.
  - destruct IH as (A1 & B1 & H1 & H2 & HfA & HfB & Hnz & Herr & Hmid).
    change (Nat.iter (S n) (solve [c] objs) h)
      with (solve [c] objs (Nat.iter n (solve [c] objs) h)).
    rewrite solve_single.
    destruct (decide (Vec2.dist (pos A1) (pos B1) = 0)) as [Hz | Hnz'].
    + destruct Hnz as [Hnz | HL0]; [contradiction|].
      rewrite (solveOne_skip c objs _ a b A1 B1 Ha Hb H1 H2 Hz).
      exists A1, B1. repeat split; try assumption.
      * right. exact HL0.
      * cbn [pow]. rewrite Rmult_assoc, <- Herr, Hz, HL0. ring.
    + destruct (solveOne_contracts c objs _ a b A1 B1 Ha Hb H1 H2 Hnz' Hs HL)
        as (A2 & B2 & E1 & E2 & HfA2 & HfB2 & Herr2 & Hmid2).
      { rewrite HfA, HfB. exact Hfix. }
      rewrite HfA, HfB in Herr2. fold r in Herr2.
      exists A2, B2. split; [exact E1|]. split; [exact E2|].
      split; [congruence|]. split; [congruence|].
      split; [|split].
      * pose proof (dist_nonneg (pos A1) (pos B1)) as Hd1.
        destruct (decide (c_length c = 0)) as [HL0 | HLn]; [right; exact HL0 | left].
        intros Hz. rewrite Hz in Herr2.
        assert (Hr1 : r <= 1).
        { unfold r. destruct (fixed A || fixed B); nra. }
        assert (E : (1 - r) * c_length c + r * Vec2.dist (pos A1) (pos B1) = 0) by lra.
        assert (r * Vec2.dist (pos A1) (pos B1) = 0) by nra.
        assert ((1 - r) * c_length c = 0) by nra.
        assert (r = 0) by nra.
        assert (c_length c = 0) by nra. contradiction.
      * cbn [pow]. rewrite Rmult_assoc, <- Herr. exact Herr2.
      * intros F1 F2. rewrite Hmid2 by congruence. apply Hmid; assumption.
Qed.

Lemma constraint_passes_converge_witness :
  exists A' B',
    Nat.iter 3 (solve [Examples.rod 1] Examples.registry12)
      [Examples.circleA 1 (1/2); Examples.circleB 3 1 (1/2)] !! 0%nat = Some A' /\
    Nat.iter 3 (solve [Examples.rod 1] Examples.registry12)
      [Examples.circleA 1 (1/2); Examples.circleB 3 1 (1/2)] !! 1%nat = Some B' /\
    Vec2.add (pos A') (pos B')
      = Vec2.add (pos (Examples.circleA 1 (1/2))) (pos (Examples.circleB 3 1 (1/2))).
Proof.
  destruct (circle_fields 0 1 (1/2) "obj_1") as (_ & _ & HpA & HfA & _); [lra | lra |].
  destruct (circle_fields 3 1 (1/2) "obj_2") as (_ & _ & HpB & HfB & _); [lra | lra |].
  fold (Examples.circleA 1 (1/2)) in HpA, HfA.
  fold (Examples.circleB 3 1 (1/2)) in HpB, HfB.
  destruct (constraint_passes_converge (Examples.rod 1) Examples.registry12
              [Examples.circleA 1 (1/2); Examples.circleB 3 1 (1/2)] 0 1
              (Examples.circleA 1 (1/2)) (Examples.circleB 3 1 (1/2)) 3
              eq_refl eq_refl eq_refl eq_refl)
    as (A' & B' & H1 & H2 & _ & Hmid).
  - rewrite two_circles_dist by lra. lra.
  - cbn [Examples.rod stiffness]. lra.
  - cbn [Examples.rod c_length]. lra.
  - rewrite HfA. reflexivity.
  - exists A', B'. split; [exact H1|]. split; [exact H2|].
    apply Hmid; assumption.
Defined.

End SolverFacts.

(** ** What a step keeps of a body *)

Section Keeps.
Import PhysicsEngine CollisionSystem ConstraintSystem.

Lemma keeps_refl o : keeps o o.
Proof. split; [reflexivity | auto]. Qed.

Lemma keeps_trans o1 o2 o3 : keeps o1 o2 -> keeps o2 o3 -> keeps o1 o3.
Proof.
  intros [S1 A1] [S2 A2]. split; [congruence|].
  intros H. destruct (A1 H) as [E1 E2].
  destruct A2 as [E3 E4]; [congruence|]. split; congruence.
Qed.

Lemma Forall2_keeps_refl (h : Store) : Forall2 keeps h h.
Proof. induction h; constructor; [apply keeps_refl | assumption]. Qed.

Lemma Forall2_keeps_trans (h1 h2 h3 : Store) :
  Forall2 keeps h1 h2 -> Forall2 keeps h2 h3 -> Forall2 keeps h1 h3.
Proof. apply Forall2_trans. exact keeps_trans. Qed.

(** An assignment to a position field, through a reference. *)
Lemma keeps_alter (f : SimObject -> SimObject) (h : Store) r :
  (forall o, keeps o (f o)) -> Forall2 keeps h (alter f r h).
Proof.
  intros Hf. apply Forall2_alter_r; [apply Forall2_keeps_refl|].
  intros o o' _ _ Hoo'. exact (keeps_trans _ _ _ Hoo' (Hf o')).
Qed.

Lemma keeps_set_pos (p : SimObject -> Vector2) o : keeps o (set_pos (p o) o).
Proof. split; [reflexivity | auto]. Qed.

Lemma keeps_set_oldPos (p : SimObject -> Vector2) o : keeps o (set_oldPos (p o) o).
Proof. split; [reflexivity | auto]. Qed.

Lemma applyResolution_keeps m (h : Store) : Forall2 keeps h (applyResolution m h).
Proof.
  unfold applyResolution.
  destruct (h !! m_bodyA m) as [A|]; [|apply Forall2_keeps_refl].
  destruct (h !! m_bodyB m) as [B|]; [|apply Forall2_keeps_refl].
  destruct (decide _); [apply Forall2_keeps_refl|].
  set (h1 := if fixed A then h else alter _ (m_bodyA m) h).
  assert (F1 : Forall2 keeps h h1).
  { subst h1. destruct (fixed A); [apply Forall2_keeps_refl|].
    apply keeps_alter. intros o. apply (keeps_set_pos (fun o => Vec2.add (pos o) _)). }
  set (h2 := if fixed B then h1 else alter _ (m_bodyB m) h1).
  assert (F2 : Forall2 keeps h h2).
  { subst h2. destruct (fixed B); [exact F1|].
    eapply Forall2_keeps_trans; [exact F1|].
    apply keeps_alter. intros o. apply (keeps_set_pos (fun o => Vec2.add (pos o) _)). }
  destruct (h2 !! m_bodyA m) as [A2|]; [|exact F2].
  destruct (h2 !! m_bodyB m) as [B2|]; [|exact F2].
  set (h3 := if fixed A then h2 else alter _ (m_bodyA m) h2).
  assert (F3 : Forall2 keeps h h3).
  { subst h3. destruct (fixed A); [exact F2|].
    eapply Forall2_keeps_trans; [exact F2|].
    apply keeps_alter. intros o.
    apply (keeps_set_oldPos (fun o => Vec2.add (oldPos o) _)). }
  destruct (fixed B); [exact F3|].
  eapply Forall2_keeps_trans; [exact F3|].
  apply keeps_alter. intros o. apply (keeps_set_oldPos (fun o => Vec2.sub (oldPos o) _)).
Qed.

Lemma solveOne_keeps objs (h : Store) c : Forall2 keeps h (solveOne objs h c).
Proof.
  unfold solveOne.
  destruct (objs !! bodyA c) as [a|]; [|apply Forall2_keeps_refl].
  destruct (objs !! bodyB c) as [b|]; [|apply Forall2_keeps_refl].
  destruct (h !! a) as [A|]; [|apply Forall2_keeps_refl].
  destruct (h !! b) as [B|]; [|apply Forall2_keeps_refl].
  destruct (fixed A && fixed B); [apply Forall2_keeps_refl|].
  destruct (decide _); [apply Forall2_keeps_refl|].
  set (h1 := if fixed A then h else alter _ a h).
  assert (F1 : Forall2 keeps h h1).
  { subst h1. destruct (fixed A); [apply Forall2_keeps_refl|].
    apply keeps_alter. intros o. apply (keeps_set_pos (fun o => Vec2.add (pos o) _)). }
  destruct (fixed B); [exact F1|].
  eapply Forall2_keeps_trans; [exact F1|].
  apply keeps_alter. intros o. apply (keeps_set_pos (fun o => Vec2.sub (pos o) _)).
Qed.

Lemma solve_keeps cs objs : forall h : Store, Forall2 keeps h (solve cs objs h).
Proof.
  induction cs as [|c cs IH]; intros h; [apply Forall2_keeps_refl|].
  unfold solve. cbn [foldl]. fold (solve cs objs (solveOne objs h c)).
  eapply Forall2_keeps_trans; [apply solveOne_keeps | apply IH].
Qed.

Lemma solve_iter_keeps cs objs n (h : Store) :
  Forall2 keeps h (Nat.iter n (solve cs objs) h).
Proof.
  induction n as [|n IH]; [apply Forall2_keeps_refl|].
  change (Nat.iter (S n) (solve cs objs) h)
    with (solve cs objs (Nat.iter n (solve cs objs) h)).
  eapply Forall2_keeps_trans; [exact IH | apply solve_keeps].
Qed.

Lemma resolvePair_keeps (h h' : Store) ij :
  resolvePair h ij = Ok h' -> Forall2 keeps h h'.
Proof.
  unfold resolvePair.
  destruct (h !! ij.1) as [A|]; [|intros [= <-]; apply Forall2_keeps_refl].
  destruct (h !! ij.2) as [B|]; [|intros [= <-]; apply Forall2_keeps_refl].
  destruct (fixed A && fixed B); [intros [= <-]; apply Forall2_keeps_refl|].
  destruct (detectCollision ij.1 A ij.2 B) as [[m|]|e]; cbn [rbind];
    [|intros [= <-]; apply Forall2_keeps_refl | discriminate].
  destruct (hasCollision m); intros [= <-];
    [apply applyResolution_keeps | apply Forall2_keeps_refl].
Qed.

Lemma resolve_loop_keeps ps : forall (r : result Store) (h' : Store),
  foldl (fun r ij => rbind r (fun h => resolvePair h ij)) r ps = Ok h' ->
  exists h1, r = Ok h1 /\ Forall2 keeps h1 h'.
Proof.
  induction ps as [|ij ps IH]; intros r h' H.
  - cbn [foldl] in H. exists h'. split; [exact H | apply Forall2_keeps_refl].
  - cbn [foldl] in H. destruct (IH _ _ H) as (h2 & E2 & F2).
    destruct r as [h1|e]; [|discriminate]. cbn [rbind] in E2.
    exists h1. split; [reflexivity|].
    exact (Forall2_keeps_trans _ _ _ (resolvePair_keeps _ _ _ E2) F2).
Qed.

Lemma resolve_keeps (h h' : Store) : resolve h = Ok h' -> Forall2 keeps h h'.
Proof.
  intros H. destruct (resolve_loop_keeps _ _ _ H) as (h1 & [= <-] & F). exact F.
Qed.

Lemma Forall2_imap_rel (R : SimObject -> SimObject -> Prop)
    (f : nat -> SimObject -> SimObject) (h : Store) :
  (forall i o, R o (f i o)) -> Forall2 R h (imap f h).
Proof.
  revert f. induction h as [|o h IH]; intros f Hf; [constructor|].
  cbn [imap]. constructor; [apply Hf|]. apply IH. intros i o'. apply Hf.
Qed.

Lemma applyForces1_keeps d i o : keeps o (applyForces1 d i o).
Proof.
  unfold applyForces1. destruct (fixed o || bool_decide (d = Some i));
    split; auto.
Qed.

Lemma integrate1_keeps d dt i o : keeps o (integrate1 d dt i o).
Proof.
  unfold integrate1. destruct (fixed o); [apply keeps_refl|].
  destruct (bool_decide (d = Some i)).
  - split; [reflexivity|]. cbn. auto.
  - split; [reflexivity|]. cbn. intros ->. split; ring.
Qed.

Lemma updateGeometry_keeps o : keeps o (updateGeometry o).
Proof.
  unfold updateGeometry. destruct (decide (o_type o = box)); split; auto.
Qed.

Lemma subStep_keeps e (h h' : Store) : subStep e h = Ok h' -> Forall2 keeps h h'.
Proof.
  unfold subStep. intros H. apply resolve_keeps in H.
  set (h1 := applyForces (draggedObj e) h) in *.
  set (h2 := integrate (draggedObj e) (DT / INR subSteps) h1) in *.
  set (h3 := map updateGeometry h2) in *.
  assert (F1 : Forall2 keeps h h1)
    by (apply Forall2_imap_rel; intros; apply applyForces1_keeps).
  assert (F2 : Forall2 keeps h1 h2)
    by (apply Forall2_imap_rel; intros; apply integrate1_keeps).
  assert (F3 : Forall2 keeps h2 h3).
  { subst h3. apply Forall2_fmap_r. clear. induction h2; constructor;
      [apply updateGeometry_keeps | assumption]. }
  eapply Forall2_keeps_trans; [exact F1|].
  eapply Forall2_keeps_trans; [exact F2|].
  eapply Forall2_keeps_trans; [exact F3|].
  eapply Forall2_keeps_trans; [apply solve_iter_keeps | exact H].
Qed.

Lemma subSteps_keeps e k : forall (h h' : Store),
  Nat.iter k (fun r => rbind r (subStep e)) (Ok h) = Ok h' -> Forall2 keeps h h'.
Proof.
  induction k as [|k IH]; intros h h' H.
  - injection H as <-. apply Forall2_keeps_refl.
  - change (Nat.iter (S k) (fun r => rbind r (subStep e)) (Ok h))
      with (rbind (Nat.iter k (fun r => rbind r (subStep e)) (Ok h)) (subStep e)) in H.
    destruct (Nat.iter k _ (Ok h)) as [h1|] eqn:E1; [|discriminate].
    cbn [rbind] in H.
    exact (Forall2_keeps_trans _ _ _ (IH _ _ E1) (subStep_keeps _ _ _ H)).
Qed.

Lemma step_keeps e e' :
  step e = Ok e' ->
  Forall2 keeps (objects e) (objects e') /\
  objectMap e' = objectMap e /\ constraints e' = constraints e /\
  time e' = time e + DT /\ logs e' = logs e /\ draggedObj e' = draggedObj e /\
  fluidSystem e' = FluidSystem.step DT GRAVITY (fluidSystem e).
Proof.
  unfold step. intros H.
  destruct (Nat.iter subSteps _ (Ok (objects e))) as [h'|] eqn:E; [|discriminate].
  cbn [rbind] in H. injection H as <-. cbn.
  split; [exact (subSteps_keeps _ _ _ _ E)|]. repeat split.
Qed.

Lemma steps_keeps n : forall e e',
  steps n e = Ok e' ->
  Forall2 keeps (objects e) (objects e') /\
  objectMap e' = objectMap e /\ constraints e' = constraints e /\
  time e' = time e + INR n * DT /\ logs e' = logs e /\
  draggedObj e' = draggedObj e.
Proof.
  induction n as [|n IH]; intros e e' H.
  - injection H as <-. split; [apply Forall2_keeps_refl|].
    repeat split. cbn [INR]. ring.
  - cbn [steps] in H. destruct (step e) as [e1|] eqn:E1; [|discriminate].
    cbn [rbind] in H.
    destruct (step_keeps _ _ E1) as (K1 & M1 & C1 & T1 & L1 & D1 & _).
    destruct (IH _ _ H) as (K2 & M2 & C2 & T2 & L2 & D2).
    split; [exact (Forall2_keeps_trans _ _ _ K1 K2)|].
    repeat split; try congruence.
    rewrite T2, T1, S_INR. ring.
Qed.

(** X12: Any number of steps of an engine whose bodies are boxes and circles
    completes, advances the clock by [DT] per step, and changes only the
    state of motion: the number of bodies, their identifiers, kinds, masses,
    inertias, materials, dimensions, [fixed] flags and colours, the
    registry, the constraints, the log and the dragged body are as before. *)
Theorem steps_change_motion_only (n : nat) (e : Engine) :
  Forall shape_ok (objects e) ->
  exists e',
    steps n e = Ok e' /\ time e' = time e + INR n * DT /\
    length (objects e') = length (objects e) /\
    (forall r o, objects e !! r = Some o ->
                 exists o', objects e' !! r = Some o' /\ statics o' = statics o) /\
    objectMap e' = objectMap e /\ constraints e' = constraints e /\
    logs e' = logs e /\ draggedObj e' = draggedObj e.
Proof.
  intros Hs. destruct (steps_frame n e Hs) as (e' & Hsteps & _).
  exists e'. split; [exact Hsteps|].
  destruct (steps_keeps _ _ _ Hsteps) as (K & M & C & T & L & D).
  split; [exact T|]. split; [symmetry; exact (Forall2_length _ _ _ K)|].
  split; [|repeat split; assumption].
  intros r o Hr. destruct (Forall2_lookup_l _ _ _ _ _ K Hr) as (o' & Hr' & [S _]).
  exists o'. split; assumption.
Qed.

Lemma steps_change_motion_only_witness :
  exists e',
    steps 3 (this Examples.floorWorld) = Ok e' /\
    time e' = time (this Examples.floorWorld) + INR 3 * DT.
Proof.
  destruct (steps_change_motion_only 3 (this Examples.floorWorld))
    as (e' & Hs & Ht & _).
  - apply Forall_body_shape. apply reachable_Inv.
    apply reach_add. exact world0_reachable.
  - exists e'. split; assumption.
Defined.

End Keeps.

(** ** Further invariants of reachable worlds *)

Section WellFormed.
Import PhysicsEngine.

Lemma log_lines_bounded l now msg :
  (length l <= 50)%nat -> (length (log_lines l now msg) <= 50)%nat.
Proof.
  intros Hl. unfold log_lines. destruct (decide _) as [Hgt | Hle].
  - rewrite length_tl, length_app. cbn [length]. lia.
  - lia.
Qed.

Lemma registry_ok_keeps e e' :
  Forall2 keeps (objects e) (objects e') -> objectMap e' = objectMap e ->
  registry_ok e -> registry_ok e'.
Proof.
  intros K M Hr id r Hid. rewrite M in Hid.
  destruct (Hr id r Hid) as (o & Ho & Hido).
  destruct (Forall2_lookup_l _ _ _ _ _ K Ho) as (o' & Ho' & [S _]).
  exists o'. split; [exact Ho'|]. unfold statics in S. congruence.
Qed.

Lemma drag_ok_keeps e e' :
  Forall2 keeps (objects e) (objects e') -> draggedObj e' = draggedObj e ->
  drag_ok e -> drag_ok e'.
Proof.
  intros K D Hd r Hr. rewrite D in Hr.
  destruct (Hd r Hr) as (o & Ho & Hf).
  destruct (Forall2_lookup_l _ _ _ _ _ K Ho) as (o' & Ho' & [S _]).
  exists o'. split; [exact Ho'|]. unfold statics in S. congruence.
Qed.

Lemma still_keeps (h h' : Store) :
  Forall2 keeps h h' -> Forall (fun o => angle o = oldAngle o) h ->
  Forall (fun o => angle o = oldAngle o) h'.
Proof.
  intros K. induction K as [|o o' h h' [_ Ho] _ IH]; [auto|].
  intros Hall. apply Forall_cons in Hall as [H1 H2].
  constructor; [|exact (IH H2)]. destruct (Ho H1); congruence.
Qed.

Lemma Wf_generateId : preserves Wf generateId.
Proof. intros w H. exact H. Qed.

Lemma Wf_log msg : preserves Wf (log msg).
Proof.
  intros w (L & H). split; [|exact H]. cbn. apply log_lines_bounded. exact L.
Qed.

Lemma Wf_deref r : preserves Wf (deref r).
Proof. intros w H. unfold deref. destruct (objects (this w) !! r); exact H. Qed.

Lemma Wf_register obj :
  angle obj = oldAngle obj -> preserves Wf (register obj).
Proof.
  intros Hobj w (L & Hr & Hc & Hd & Ha & Hf). split; [exact L|].
  split; [|split; [|split; [|split; [|exact Hf]]]];
    unfold registry_ok, constraints_ok, drag_ok in *;
    cbn [register fst this objects objectMap constraints draggedObj].
  - intros id r Hid. destruct (decide (id = o_id obj)) as [-> | Hne].
    + rewrite lookup_insert_eq in Hid. injection Hid as <-.
      exists obj. split; [|reflexivity].
      rewrite lookup_app_r by lia. rewrite Nat.sub_diag. reflexivity.
    + rewrite lookup_insert_ne in Hid by congruence.
      destruct (Hr id r Hid) as (o & Ho & Hido).
      exists o. split; [|exact Hido].
      rewrite lookup_app_l; [exact Ho | exact (lookup_lt_Some _ _ _ Ho)].
  - eapply Forall_impl; [exact Hc|].
    intros c [H1 H2]. split; apply lookup_insert_is_Some';
      right; assumption.
  - intros r Hdr. destruct (Hd r Hdr) as (o & Ho & Hfo).
    exists o. split; [|exact Hfo].
    rewrite lookup_app_l; [exact Ho | exact (lookup_lt_Some _ _ _ Ho)].
  - apply Forall_app. split; [exact Ha|]. constructor; [exact Hobj | constructor].
Qed.

Lemma Wf_addShape type config : preserves Wf (addShape type config).
Proof.
  unfold addShape.
  apply preserves_bind; [apply Wf_generateId|]. intros id.
  apply preserves_bind.
  - apply Wf_register.
    destruct (updateGeometry_keeps
                (if decide (type = plane) then planeToBox (buildObject type config id)
                 else buildObject type config id)) as [_ Hk].
    destruct Hk as [E1 E2]; [destruct (decide (type = plane)); reflexivity|].
    congruence.
  - intros r. apply preserves_bind; [apply Wf_log|]. intros _. apply preserves_ret.
Qed.

Lemma Wf_connect idA idB config : preserves Wf (connect idA idB config).
Proof.
  intros w H. unfold connect.
  destruct (objectMap (this w) !! idA) as [a|] eqn:HA; cbn [mbind option_bind];
    [|exact H].
  destruct (objects (this w) !! a) as [A|]; [|exact H].
  destruct (objectMap (this w) !! idB) as [b|] eqn:HB; cbn [mbind option_bind];
    [|exact H].
  destruct (objects (this w) !! b) as [B|]; [|exact H].
  destruct H as (L & Hr & Hc & Hd & Ha & Hf). cbn.
  split; [exact L|]. split; [exact Hr|]. split; [|split; [exact Hd|split; assumption]].
  unfold constraints_ok. cbn. apply Forall_app. split; [exact Hc|].
  constructor; [|constructor]. cbn. rewrite HA, HB. split; eexists; reflexivity.
Qed.

Lemma Wf_connectTo idA idB config : preserves Wf (connectTo idA idB config).
Proof.
  destruct idB; cbn [connectTo]; [apply Wf_connect | apply preserves_ret].
Qed.

Lemma Wf_addCloth config : preserves Wf (addCloth config).
Proof.
  unfold addCloth.
  apply preserves_bind.
  { apply preserves_forM. intros gy. apply preserves_forM. intros gx.
    apply preserves_bind; [apply Wf_addShape|]. intros p.
    apply preserves_bind; [apply Wf_deref|]. intros o. apply preserves_ret. }
  intros grid. apply preserves_bind.
  { apply preserves_forM. intros gy. apply preserves_forM. intros gx.
    destruct (grid !! gy ≫= _) as [here|]; [|apply preserves_throw].
    apply preserves_bind.
    - destruct (decide (INR gx < _)); [apply Wf_connectTo | apply preserves_ret].
    - intros _. destruct (decide (INR gy < _)); [|apply preserves_ret].
      destruct (grid !! S gy); [apply Wf_connectTo | apply preserves_throw]. }
  intros _. destruct (grid !! 0%nat); [|apply preserves_throw].
  intros w H. exact H.
Qed.

Lemma Wf_add type config : preserves Wf (add type config).
Proof.
  unfold add. destruct (decide (type = cloth)); [apply Wf_addCloth|].
  apply preserves_bind; [apply Wf_addShape|].
  intros r. apply preserves_ret.
Qed.

Lemma fluid_step_lengths dt g f n :
  length (tex_in (FluidSystem.posState f)) = n ->
  length (tex_in (FluidSystem.velState f)) = n ->
  length (tex_in (FluidSystem.posState (FluidSystem.step dt g f))) = n /\
  length (tex_in (FluidSystem.velState (FluidSystem.step dt g f))) = n.
Proof.
  intros Hp Hv. unfold FluidSystem.step, GPGPU.run.
  cbn [FluidSystem.posState FluidSystem.velState tex_in].
  rewrite !length_zip_with. lia.
Qed.

(** The newest body that passes the hit test, when there is one. *)
Lemma startDrag_spec px py e :
  (startDrag px py e = e /\
   forall r o, objects e !! r = Some o -> hitTest px py o = false) \/
  (exists r o,
     startDrag px py e = set_dragged (Some r) e /\
     objects e !! r = Some o /\ hitTest px py o = true /\
     forall j o', (r < j)%nat -> objects e !! j = Some o' ->
                  hitTest px py o' = false).
Proof.
  unfold startDrag.
  destruct (list_find (hitTest px py) (reverse (objects e))) as [[k o]|] eqn:E.
  - right. apply list_find_Some in E as (Hk & Ho & Hbefore).
    pose proof (lookup_lt_Some _ _ _ Hk) as Hlt. rewrite length_reverse in Hlt.
    rewrite reverse_lookup in Hk by exact Hlt.
    exists (length (objects e) - 1 - k)%nat, o.
    split; [reflexivity|].
    split; [replace (length (objects e) - 1 - k)%nat
              with (length (objects e) - S k)%nat by lia; exact Hk|].
    split; [destruct (hitTest px py o); [reflexivity | contradiction]|].
    intros j o' Hj Ho'. pose proof (lookup_lt_Some _ _ _ Ho') as Hj'.
    specialize (Hbefore (length (objects e) - S j)%nat o').
    rewrite reverse_lookup in Hbefore by lia.
    replace (length (objects e) - S (length (objects e) - S j))%nat with j
      in Hbefore by lia.
    specialize (Hbefore Ho'). destruct (hitTest px py o'); [|reflexivity].
    exfalso. apply Hbefore; [lia | exact I].
  - left. split; [reflexivity|]. intros r o Hr.
    apply list_find_None in E.
    assert (Hin : o ∈ reverse (objects e)).
    { apply elem_of_reverse. exact (list_elem_of_lookup_2 _ _ _ Hr). }
    pose proof (proj1 (Forall_forall _ _) E o Hin) as Hn. cbn beta in Hn.
    destruct (hitTest px py o); [exfalso; apply Hn; exact I | reflexivity].
Qed.

(** The body that [startDrag] takes, given a body that passes the hit test
    and is newer than every other body that does. *)
Lemma startDrag_pick px py e r o :
  objects e !! r = Some o -> hitTest px py o = true ->
  (forall j o', (r < j)%nat -> objects e !! j = Some o' -> hitTest px py o' = false) ->
  startDrag px py e = set_dragged (Some r) e.
Proof.
  intros Ho Hh Hlater.
  destruct (startDrag_spec px py e) as [[_ Hnone] | (r' & o' & E & Ho' & Hh' & Hl')].
  - rewrite (Hnone r o Ho) in Hh. discriminate.
  - destruct (lt_eq_lt_dec r r') as [[Hlt | ->] | Hgt].
    + rewrite (Hlater r' o' Hlt Ho') in Hh'. discriminate.
    + exact E.
    + rewrite (Hl' r o Hgt Ho) in Hh. discriminate.
Qed.

Lemma updateDrag_keeps px py e :
  Forall2 keeps (objects e) (objects (updateDrag px py e)).
Proof.
  unfold updateDrag. destruct (draggedObj e) as [r|]; [|apply Forall2_keeps_refl].
  cbn [set_objects objects]. apply keeps_alter. intros o. split; [reflexivity | auto].
Qed.

Lemma reachable_Wf w : reachable w -> Wf w.
Proof.
  induction 1 as [rnd c0 Hrnd | w _ IH | w type config _ IH
                 | w idA idB config _ IH | w msg _ IH | w e' _ IH Hstep
                 | w px py _ IH | w px py _ IH | w _ IH | w n _ IH].
  - split; [cbn; lia|]. split; [intros id r Hid; cbn in Hid; discriminate|].
    split; [constructor|]. split; [intros r Hr; discriminate|].
    split; [constructor|]. cbn [new reset this fluidSystem FluidSystem.new
                                 FluidSystem.posState FluidSystem.velState tex_in].
    unfold FluidSystem.posData, FluidSystem.velData.
    rewrite !length_fmap, !length_seq. split; reflexivity.
  - destruct IH as (_ & _ & _ & _ & _ & Hf).
    split; [cbn; lia|]. split; [intros id r Hid; cbn in Hid; discriminate|].
    split; [constructor|]. split; [intros r Hr; discriminate|].
    split; [constructor | exact Hf].
  - exact (Wf_add type config w IH).
  - exact (Wf_connect idA idB config w IH).
  - exact (Wf_log msg w IH).
  - destruct IH as (L & Hr & Hc & Hd & Ha & Hp & Hv).
    destruct (step_keeps _ _ Hstep) as (K & M & C & T & Lg & D & Fl).
    unfold Wf. cbn [this]. split; [rewrite Lg; exact L|].
    split; [exact (registry_ok_keeps _ _ K M Hr)|].
    split; [unfold constraints_ok; rewrite C, M; exact Hc|].
    split; [exact (drag_ok_keeps _ _ K D Hd)|].
    split; [exact (still_keeps _ _ K Ha)|].
    rewrite Fl. apply fluid_step_lengths; assumption.
  - destruct IH as (L & Hr & Hc & Hd & Ha & Hf). unfold Wf. cbn [this].
    destruct (startDrag_spec px py (this w)) as [[-> _] | (r & o & -> & Ho & Hh & _)].
    + split; [exact L|]. split; [exact Hr|]. split; [exact Hc|].
      split; [exact Hd|]. split; [exact Ha | exact Hf].
    + split; [exact L|]. split; [exact Hr|]. split; [exact Hc|].
      split; [|split; [exact Ha | exact Hf]].
      intros r' [= <-]. exists o. split; [exact Ho|].
      unfold hitTest in Hh. apply andb_true_iff in Hh as [Hh _].
      destruct (fixed o); [discriminate | reflexivity].
  - destruct IH as (L & Hr & Hc & Hd & Ha & Hf). unfold Wf. cbn [this].
    pose proof (updateDrag_keeps px py (this w)) as K.
    assert (E : objectMap (updateDrag px py (this w)) = objectMap (this w) /\
                constraints (updateDrag px py (this w)) = constraints (this w) /\
                logs (updateDrag px py (this w)) = logs (this w) /\
                draggedObj (updateDrag px py (this w)) = draggedObj (this w) /\
                fluidSystem (updateDrag px py (this w)) = fluidSystem (this w)).
    { unfold updateDrag. destruct (draggedObj (this w)) eqn:Ed;
        cbn [set_objects objectMap constraints logs draggedObj fluidSystem];
        auto. }
    destruct E as (M & C & Lg & D & Fl).
    split; [rewrite Lg; exact L|].
    split; [exact (registry_ok_keeps _ _ K M Hr)|].
    split; [unfold constraints_ok; rewrite C, M; exact Hc|].
    split; [exact (drag_ok_keeps _ _ K D Hd)|].
    split; [exact (still_keeps _ _ K Ha)|].
    rewrite Fl. exact Hf.
  - destruct IH as (L & Hr & Hc & Hd & Ha & Hf).
    split; [exact L|]. split; [exact Hr|]. split; [exact Hc|].
    split; [intros r Hdr; discriminate|]. split; [exact Ha | exact Hf].
  - exact IH.
Qed.

End WellFormed.

(** ** Properties of every reachable world *)

Section ReachableFacts.
Import PhysicsEngine.

Lemma two_circles_reachable d mA mB r : reachable (Examples.two_circles d mA mB r).
Proof. unfold Examples.two_circles. do 2 apply reach_add. exact world0_reachable. Qed.

(** X13: The log never holds more than 50 lines: neither the log of a world that
    an engine reaches, nor the events of the state it hands out, and a
    further [log] call keeps the bound and ends the log with the new line,
    stamped with the current time. *)
Theorem log_bounded (w : World) (msg : string) :
  reachable w ->
  (length (st_events (getState (this w))) <= 50)%nat /\
  (length (logs (this (log msg w).1)) <= 50)%nat /\
  last (logs (this (log msg w).1)) = Some {| stamp := time (this w); text := msg |}.
Proof.
  intros Hw. destruct (reachable_Wf w Hw) as (L & _).
  split; [exact L|]. split; [apply log_lines_bounded; exact L|].
  cbn [log fst this logs]. unfold log_lines. destruct (decide _) as [Hgt | Hle].
  - destruct (logs (this w)) as [|l0 ls] eqn:E; [cbn in Hgt; lia|].
    cbn [app tail]. apply last_snoc.
  - apply last_snoc.
Qed.

Lemma log_bounded_witness :
  (length (st_events (getState (this Examples.world0))) <= 50)%nat.
Proof.
  exact (proj1 (log_bounded Examples.world0 "ready" world0_reachable)).
Defined.

(** X14: Every entry of the registry of a reachable world refers to a body of
    the list, and that body carries the identifier it is filed under. *)
Theorem registry_sound (w : World) (id : string) (r : nat) :
  reachable w -> objectMap (this w) !! id = Some r ->
  exists o, objects (this w) !! r = Some o /\ o_id o = id.
Proof.
  intros Hw Hid. destruct (reachable_Wf w Hw) as (_ & Hr & _). exact (Hr id r Hid).
Qed.

Lemma registry_sound_witness :
  exists o, objects (this (Examples.two_circles 3 1 1 (1/2))) !! 1%nat = Some o /\
            o_id o = "obj_2".
Proof.
  apply (registry_sound (Examples.two_circles 3 1 1 (1/2)) "obj_2" 1).
  - apply two_circles_reachable.
  - exact (proj1 (proj2 (proj2 (two_circles_registry 3 1 1 (1/2))))).
Defined.

(** X15: No constraint of a reachable world dangles: both of its ends are in
    the registry and refer to bodies of the list with these identifiers, so
    that the solver never skips a constraint for a missing body. *)
Theorem constraints_never_dangle (w : World) (c : Constraint) :
  reachable w -> c ∈ constraints (this w) ->
  exists a b A B,
    objectMap (this w) !! bodyA c = Some a /\ objectMap (this w) !! bodyB c = Some b /\
    objects (this w) !! a = Some A /\ objects (this w) !! b = Some B /\
    o_id A = bodyA c /\ o_id B = bodyB c.
Proof.
  intros Hw Hc. destruct (reachable_Wf w Hw) as (_ & Hr & Hcs & _).
  destruct (proj1 (Forall_forall _ _) Hcs c Hc) as [[a Ha] [b Hb]].
  destruct (Hr _ _ Ha) as (A & HA & HidA). destruct (Hr _ _ Hb) as (B & HB & HidB).
  exists a, b, A, B. repeat split; assumption.
Qed.

Lemma constraints_never_dangle_witness :
  exists a b A B,
    objectMap (this (connect "obj_1" "obj_2" (Examples.cc_of (Some 2) None)
                       (Examples.two_circles 3 1 1 (1/2))).1) !! "obj_1" = Some a /\
    objectMap (this (connect "obj_1" "obj_2" (Examples.cc_of (Some 2) None)
                       (Examples.two_circles 3 1 1 (1/2))).1) !! "obj_2" = Some b /\
    objects (this (connect "obj_1" "obj_2" (Examples.cc_of (Some 2) None)
                     (Examples.two_circles 3 1 1 (1/2))).1) !! a = Some A /\
    objects (this (connect "obj_1" "obj_2" (Examples.cc_of (Some 2) None)
                     (Examples.two_circles 3 1 1 (1/2))).1) !! b = Some B /\
    o_id A = "obj_1" /\ o_id B = "obj_2".
Proof.
  destruct (two_circles_registry 3 1 1 (1/2)) as (Hobjs & H1 & H2 & _).
  cbv zeta in Hobjs.
  pose proof (connect_found "obj_1" "obj_2" (Examples.cc_of (Some 2) None)
                (Examples.two_circles 3 1 1 (1/2)) 0 1 _ _
                H1 ltac:(rewrite Hobjs; reflexivity)
                H2 ltac:(rewrite Hobjs; reflexivity)) as Hcon.
  apply (constraints_never_dangle
           (connect "obj_1" "obj_2" (Examples.cc_of (Some 2) None)
              (Examples.two_circles 3 1 1 (1/2))).1
           {| c_id := "c_" +:+ ("obj_" +:+
                         pretty (S (idCounter (Examples.two_circles 3 1 1 (1/2)))));
              bodyA := "obj_1"; bodyB := "obj_2";
              c_length := orElse (cc_length (Examples.cc_of (Some 2) None))
                            (Vec2.dist (pos (Examples.circleA 1 (1/2)))
                                       (pos (Examples.circleB 3 1 (1/2))));
              stiffness := orElse (cc_stiffness (Examples.cc_of (Some 2) None)) (1/2);
              c_color := orElseStr (cc_color (Examples.cc_of (Some 2) None))
                           "#3498db" |}).
  - apply reach_connect, two_circles_reachable.
  - rewrite Hcon. cbn [fst this constraints].
    apply elem_of_app. right. apply list_elem_of_singleton. reflexivity.
Defined.

(** X16: Dragging.  In a reachable world the dragged body, if there is one, is a
    body of the list that is not fixed; [updateDrag] puts it under the
    pointer, with its previous position a tenth of the way back, and leaves
    every other body, and so every fixed body, exactly as it was. *)
Theorem drag_moves_only_free_body (w : World) (px py : R) (i : nat) (o : SimObject) :
  reachable w -> objects (this w) !! i = Some o ->
  (draggedObj (this w) <> Some i ->
   objects (updateDrag px py (this w)) !! i = Some o) /\
  (fixed o = true -> objects (updateDrag px py (this w)) !! i = Some o) /\
  (draggedObj (this w) = Some i ->
   fixed o = false /\
   exists o',
     objects (updateDrag px py (this w)) !! i = Some o' /\
     pos o' = mkV px py /\
     oldPos o' = mkV (px - (px - x (pos o)) * (1/10))
                     (py - (py - y (pos o)) * (1/10)) /\
     statics o' = statics o).
Proof.
  intros Hw Hi. destruct (reachable_Wf w Hw) as (_ & _ & _ & Hd & _).
  assert (Hother : draggedObj (this w) <> Some i ->
                   objects (updateDrag px py (this w)) !! i = Some o).
  { intros Hne. unfold updateDrag. destruct (draggedObj (this w)) as [r|]; [|exact Hi].
    cbn [set_objects objects]. rewrite list_lookup_alter_ne by congruence. exact Hi. }
  split; [exact Hother|]. split.
  - intros Hf. apply Hother. intros Hdr.
    destruct (Hd i Hdr) as (o1 & Ho1 & Hf1). congruence.
  - intros Hdr. destruct (Hd i Hdr) as (o1 & Ho1 & Hf1).
    assert (o1 = o) as -> by congruence.
    split; [exact Hf1|]. unfold updateDrag. rewrite Hdr.
    cbn [set_objects objects]. rewrite list_lookup_alter_eq, Hi. cbn [fmap option_fmap option_map].
    eexists. split; [reflexivity|]. repeat split.
Qed.

Lemma drag_moves_only_free_body_witness :
  draggedObj (startDrag 3 0 (this (Examples.two_circles 3 1 1 (1/2)))) = Some 1%nat /\
  exists o',
    objects (updateDrag 5 2 (startDrag 3 0 (this (Examples.two_circles 3 1 1 (1/2)))))
      !! 1%nat = Some o' /\
    pos o' = mkV 5 2 /\
    oldPos o' = mkV (5 - (5 - 3) * (1/10)) (2 - (2 - 0) * (1/10)) /\
    objects (updateDrag 5 2 (startDrag 3 0 (this (Examples.two_circles 3 1 1 (1/2)))))
      !! 0%nat = Some (Examples.circleA 1 (1/2)).
Proof.
  destruct (two_circles_registry 3 1 1 (1/2)) as (Hobjs & _). cbv zeta in Hobjs.
  destruct (circle_fields 3 1 (1/2) "obj_2") as (TB & RB & PB & FB & _); [lra | lra |].
  fold (Examples.circleB 3 1 (1/2)) in TB, RB, PB, FB.
  rewrite orElse_supplied in PB by lra.
  assert (Hsd : startDrag 3 0 (this (Examples.two_circles 3 1 1 (1/2)))
                = set_dragged (Some 1%nat) (this (Examples.two_circles 3 1 1 (1/2)))).
  { apply (startDrag_pick 3 0 _ 1 (Examples.circleB 3 1 (1/2))).
    - rewrite Hobjs. reflexivity.
    - unfold hitTest. rewrite FB, TB, RB, PB.
      destruct (decide (circle = circle)); [|contradiction].
      apply andb_true_iff. split; [reflexivity|]. apply bool_decide_eq_true.
      rewrite (proj2 (dist_zero_iff (mkV 3 0) (mkV 3 0)) eq_refl). lra.
    - intros j o' Hj Ho'. rewrite Hobjs in Ho'.
      destruct j as [|[|j]]; [lia | lia | discriminate]. }
  assert (HW : reachable
                 {| idCounter := idCounter (Examples.two_circles 3 1 1 (1/2));
                    this := startDrag 3 0 (this (Examples.two_circles 3 1 1 (1/2))) |})
    by apply reach_startDrag, two_circles_reachable.
  split; [rewrite Hsd; reflexivity|].
  destruct (drag_moves_only_free_body _ 5 2 1 (Examples.circleB 3 1 (1/2)) HW)
    as (_ & _ & Hdrag).
  { cbn [this]. rewrite Hsd. cbn [set_dragged objects]. rewrite Hobjs. reflexivity. }
  destruct Hdrag as (_ & o' & Ho' & Hp & Hop & _).
  { cbn [this]. rewrite Hsd. reflexivity. }
  destruct (drag_moves_only_free_body _ 5 2 0 (Examples.circleA 1 (1/2)) HW)
    as (Hother & _).
  { cbn [this]. rewrite Hsd. cbn [set_dragged objects]. rewrite Hobjs. reflexivity. }
  cbn [this] in Ho', Hother.
  exists o'. split; [exact Ho'|]. split; [exact Hp|].
  split; [rewrite Hop, PB; reflexivity|].
  apply Hother. rewrite Hsd. discriminate.
Defined.

(** X17: [startDrag] takes the newest body that passes the hit test (the one
    in the highest slot), and changes nothing else; when no body passes
    it, it changes nothing at all.  A body passes when it is not fixed and
    the pointer is closer to its center than its radius, or half its
    larger side, plus 0.5. *)
Theorem startDrag_newest_hit (px py : R) (e : Engine) :
  (forall o, hitTest px py o = true <->
     fixed o = false /\
     Vec2.dist (mkV px py) (pos o)
       < (if decide (o_type o = circle) then radius o
          else Rmax (width o) (height o) / 2) + 1/2) /\
  ((forall r o, objects e !! r = Some o -> hitTest px py o = false) ->
   startDrag px py e = e) /\
  (forall r o,
     objects e !! r = Some o -> hitTest px py o = true ->
     (forall j o', (r < j)%nat -> objects e !! j = Some o' ->
                   hitTest px py o' = false) ->
     startDrag px py e = set_dragged (Some r) e).
Proof.
  split; [|split].
  - intros o. unfold hitTest. rewrite andb_true_iff, negb_true_iff, bool_decide_eq_true.
    reflexivity.
  - intros Hnone.
    destruct (startDrag_spec px py e) as [[E _] | (r & o & _ & Ho & Hh & _)];
      [exact E|].
    rewrite (Hnone r o Ho) in Hh. discriminate.
  - intros r o Ho Hh Hlater.
    destruct (startDrag_spec px py e) as [[_ Hnone] | (r' & o' & E & Ho' & Hh' & Hl')].
    + rewrite (Hnone r o Ho) in Hh. discriminate.
    + destruct (lt_eq_lt_dec r r') as [[Hlt | ->] | Hgt].
      * rewrite (Hlater r' o' Hlt Ho') in Hh'. discriminate.
      * exact E.
      * rewrite (Hl' r o Hgt Ho) in Hh. discriminate.
Qed.

(** X18: In a reachable world no body turns: every body has [oldAngle = angle],
    and any number of steps completes and leaves the angle of every body as
    it was. *)
Theorem bodies_never_rotate (w : World) (i : nat) (o : SimObject) :
  reachable w -> objects (this w) !! i = Some o ->
  oldAngle o = angle o /\
  forall n, exists e' o',
    steps n (this w) = Ok e' /\ objects e' !! i = Some o' /\
    angle o' = angle o /\ oldAngle o' = angle o.
Proof.
  intros Hw Hi. destruct (reachable_Wf w Hw) as (_ & _ & _ & _ & Ha & _).
  pose proof (Forall_lookup_1 _ _ _ _ Ha Hi) as Hstill. cbn beta in Hstill.
  split; [symmetry; exact Hstill|]. intros n.
  destruct (reachable_Inv w Hw) as [Hb _].
  destruct (steps_frame n (this w) (Forall_body_shape _ Hb)) as (e' & Hsteps & _).
  destruct (steps_keeps _ _ _ Hsteps) as (K & _).
  destruct (Forall2_lookup_l _ _ _ _ _ K Hi) as (o' & Hi' & [_ Hk]).
  destruct (Hk Hstill) as [E1 E2].
  exists e', o'. repeat split; assumption.
Qed.

Lemma bodies_never_rotate_witness :
  exists e' o',
    steps 2 (this Examples.floorWorld) = Ok e' /\ objects e' !! 0%nat = Some o' /\
    angle o' = angle Examples.floor.
Proof.
  destruct (bodies_never_rotate Examples.floorWorld 0 Examples.floor) as [_ H].
  - apply reach_add. exact world0_reachable.
  - exact floorWorld_floor.
  - destruct (H 2%nat) as (e' & o' & Hs & Ho & Ha & _).
    exists e', o'. repeat split; assumption.
Defined.

(** X19: The fluid cloud keeps its 64 x 64 particles: after any number of steps
    of a reachable world, the state handed out carries 4096 particles. *)
Theorem fluid_particle_count (w : World) (n : nat) :
  reachable w ->
  exists e',
    steps n (this w) = Ok e' /\
    length (st_particles (getState e')) = 4096%nat.
Proof.
  intros Hw. destruct (reachable_Inv w Hw) as [Hb _].
  destruct (steps_frame n (this w) (Forall_body_shape _ Hb)) as (e' & Hsteps & _).
  exists e'. split; [exact Hsteps|].
  destruct (reachable_Wf _ (reachable_steps n w e' Hw Hsteps))
    as (_ & _ & _ & _ & _ & Hp & _).
  cbn [this] in Hp. exact Hp.
Qed.

Lemma fluid_particle_count_witness :
  exists e',
    steps 3 (this Examples.world0) = Ok e' /\
    length (st_particles (getState e')) = 4096%nat.
Proof. exact (fluid_particle_count Examples.world0 3 world0_reachable). Defined.

Lemma zip_with_ignore_l {A B C} (P : A -> Prop) (f : A -> B -> C) (g : B -> C) :
  (forall a b, P a -> f a b = g b) ->
  forall (la : list A) (lb : list B),
    Forall P la -> length la = length lb -> zip_with f la lb = map g lb.
Proof.
  intros Hfg la. induction la as [|a la IH]; intros [|b lb] Hall Hlen;
    try discriminate; [reflexivity|].
  apply Forall_cons in Hall as [Ha Hall]. cbn [zip_with map].
  rewrite (Hfg a b Ha). f_equal. apply IH; [exact Hall|]. cbn in Hlen. lia.
Qed.

Lemma updateVel_in_domain dt g p v :
  in_domain p -> FluidSystem.updateVel dt g p v = mk4 (X v) (Y v - g * dt) (Z v) (W v).
Proof.
  intros [Hy Hx]. unfold FluidSystem.updateVel.
  destruct (decide (Y p < 0)); [lra|].
  rewrite (bool_decide_eq_false_2 (X p < -10)) by lra.
  rewrite (bool_decide_eq_false_2 (X p > 10)) by lra.
  reflexivity.
Qed.

(** X20: The fluid never bounces.  In a reachable world every particle is inside
    the domain when the velocity pass reads it, so neither the floor branch
    nor the wall branch of that pass is ever taken: a step only subtracts
    [GRAVITY * DT] from the vertical velocity of every particle. *)
Theorem fluid_never_bounces (w : World) :
  reachable w ->
  exists e',
    step (this w) = Ok e' /\
    tex_in (FluidSystem.velState (fluidSystem e'))
      = map (fun v => mk4 (X v) (Y v - GRAVITY * DT) (Z v) (W v))
            (tex_in (FluidSystem.velState (fluidSystem (this w)))).
Proof.
  intros Hw. destruct (reachable_Inv w Hw) as [Hb Hdom].
  destruct (reachable_Wf w Hw) as (_ & _ & _ & _ & _ & Hp & Hv).
  destruct (step_frame (this w) (Forall_body_shape _ Hb)) as (e' & Hstep & _ & Hfl).
  exists e'. split; [exact Hstep|]. rewrite Hfl.
  unfold FluidSystem.step, GPGPU.run. cbn [FluidSystem.velState tex_in].
  apply (zip_with_ignore_l in_domain).
  - intros p v Hin. exact (updateVel_in_domain DT GRAVITY p v Hin).
  - exact Hdom.
  - congruence.
Qed.

Lemma fluid_never_bounces_witness :
  exists e',
    step (this Examples.world0) = Ok e' /\
    tex_in (FluidSystem.velState (fluidSystem e'))
      = map (fun v => mk4 (X v) (Y v - GRAVITY * DT) (Z v) (W v))
            (tex_in (FluidSystem.velState (fluidSystem (this Examples.world0)))).
Proof. exact (fluid_never_bounces Examples.world0 world0_reachable). Defined.

End ReachableFacts.

(** ** Detection and resolution together *)

Section Touching.
Import CollisionSystem.

(** The positions after [applyResolution] for bodies whose [fixed] flag
    implies a zero inverse mass: the two cases of each flag coincide. *)
Lemma applyResolution_pos_uniform m (h : Store) A B :
  h !! m_bodyA m = Some A -> h !! m_bodyB m = Some B ->
  m_bodyA m <> m_bodyB m ->
  invMass A + invMass B <> 0 ->
  (fixed A = true -> invMass A = 0) -> (fixed B = true -> invMass B = 0) ->
  exists A' B',
    applyResolution m h !! m_bodyA m = Some A' /\
    applyResolution m h !! m_bodyB m = Some B' /\
    Vec2.sub (pos B') (pos A') =
      Vec2.add (Vec2.sub (pos B) (pos A)) (Vec2.mul (normal m) (depth m)).
Proof.
  intros HA HB Hab Hsum HfA HfB.
  destruct (applyResolution_pos m h A B HA HB Hab Hsum) as (A' & B' & EA & EB & PA & PB).
  exists A', B'. split; [exact EA|]. split; [exact EB|].
  rewrite PA, PB.
  destruct (fixed A) eqn:FA, (fixed B) eqn:FB;
    try (rewrite (HfA eq_refl) in *); try (rewrite (HfB eq_refl) in *);
    apply Vector2_eq; cbn [x y Vec2.sub Vec2.mul Vec2.add];
    first [exfalso; lra | field; lra].
Qed.

(** X21: One resolution removes the overlap of two circles exactly.  For two
    distinct circles that overlap or touch, not both immovable, with a
    fixed body having inverse mass 0, [resolvePair] completes and leaves the
    centers at a distance equal to the sum of the radii; this holds for
    concentric circles too, which are pushed apart along the x axis. *)
Theorem circles_resolved_touching (h : Store) (i j : nat) (A B : SimObject) :
  h !! i = Some A -> h !! j = Some B -> i <> j ->
  o_type A = circle -> o_type B = circle ->
  Vec2.dist (pos A) (pos B) <= radius A + radius B ->
  (fixed A = true -> invMass A = 0) -> (fixed B = true -> invMass B = 0) ->
  invMass A + invMass B <> 0 ->
  exists h' A' B',
    resolvePair h (i, j) = Ok h' /\ h' !! i = Some A' /\ h' !! j = Some B' /\
    Vec2.dist (pos A') (pos B') = radius A + radius B.
Proof.
  intros HA HB Hij TA TB Hnear HfA HfB Hsum.
  pose proof (dist_nonneg (pos A) (pos B)) as Hd0.
  assert (Hrs : 0 <= radius A + radius B) by lra.
  unfold resolvePair. cbn [fst snd]. rewrite HA, HB.
  assert (Hfix : fixed A && fixed B = false).
  { destruct (fixed A) eqn:FA, (fixed B) eqn:FB; try reflexivity.
    exfalso. apply Hsum. rewrite (HfA eq_refl), (HfB eq_refl). ring. }
  rewrite Hfix, (detect_circles _ _ _ _ TA TB). cbn [rbind].
  rewrite dist_sqrt_lenSq in Hnear, Hd0.
  unfold circleVsCircle.
  set (n := Vec2.sub (pos B) (pos A)) in *.
  set (rs := radius A + radius B) in *.
  pose proof (lenSq_nonneg n) as Hn.
  pose proof (sqrt_le_iff_sq (Vec2.lenSq n) rs Hn Hrs) as Hiff.
  destruct (decide (Vec2.lenSq n > rs * rs)) as [Hfar | _].
  { exfalso. assert (Vec2.lenSq n <= rs * rs) by (apply Hiff; exact Hnear). lra. }
  destruct (decide (sqrt (Vec2.lenSq n) = 0)) as [H0 | H0]; cbn [hasCollision].
  - set (m := {| m_bodyA := i; m_bodyB := j; normal := mkV 1 0; depth := rs;
                 hasCollision := true |}).
    destruct (applyResolution_pos_uniform m h A B HA HB Hij Hsum HfA HfB)
      as (A' & B' & EA & EB & Hsub).
    exists (applyResolution m h), A', B'.
    split; [reflexivity|]. split; [exact EA|]. split; [exact EB|].
    apply sqrt_eq_0 in H0; [|exact Hn].
    assert (Hnx : x n = 0 /\ y n = 0).
    { unfold Vec2.lenSq in H0. split; nra. }
    destruct Hnx as [Hnx Hny].
    rewrite (dist_scaled (pos A') (pos B') (mkV 1 0) rs 1).
    + ring.
    + rewrite Hsub. fold n. apply Vector2_eq;
        cbn [x y Vec2.sub Vec2.mul Vec2.add m normal depth]; rewrite ?Hnx, ?Hny; ring.
    + exact Hrs.
    + unfold Vec2.len; cbn [x y]. replace (1 * 1 + 0 * 0) with 1 by ring. apply sqrt_1.
  - set (d := sqrt (Vec2.lenSq n)) in *.
    set (m := {| m_bodyA := i; m_bodyB := j; normal := Vec2.div n d;
                 depth := rs - d; hasCollision := true |}).
    destruct (applyResolution_pos_uniform m h A B HA HB Hij Hsum HfA HfB)
      as (A' & B' & EA & EB & Hsub).
    exists (applyResolution m h), A', B'.
    split; [reflexivity|]. split; [exact EA|]. split; [exact EB|].
    rewrite (dist_scaled (pos A') (pos B') n (rs / d) d).
    + field. exact H0.
    + rewrite Hsub. fold n. apply Vector2_eq;
        cbn [x y Vec2.sub Vec2.mul Vec2.add Vec2.div m normal depth]; field; exact H0.
    + apply Rmult_le_pos; [exact Hrs|]. left. apply Rinv_0_lt_compat. lra.
    + reflexivity.
Qed.

Lemma circles_resolved_touching_witness :
  exists h' A' B',
    resolvePair [Examples.circleA 1 (1/2); Examples.circleB (1/2) 1 (1/2)]
                (0%nat, 1%nat) = Ok h' /\
    h' !! 0%nat = Some A' /\ h' !! 1%nat = Some B' /\
    Vec2.dist (pos A') (pos B')
      = radius (Examples.circleA 1 (1/2)) + radius (Examples.circleB (1/2) 1 (1/2)).
Proof.
  destruct (circle_fields 0 1 (1/2) "obj_1") as (TA & RA & _ & FA & IA); [lra | lra |].
  destruct (circle_fields (1/2) 1 (1/2) "obj_2") as (TB & RB & _ & FB & IB); [lra | lra |].
  fold (Examples.circleA 1 (1/2)) in TA, RA, FA, IA.
  fold (Examples.circleB (1/2) 1 (1/2)) in TB, RB, FB, IB.
  apply (circles_resolved_touching
           [Examples.circleA 1 (1/2); Examples.circleB (1/2) 1 (1/2)] 0 1
           (Examples.circleA 1 (1/2)) (Examples.circleB (1/2) 1 (1/2))
           eq_refl eq_refl).
  - lia.
  - exact TA.
  - exact TB.
  - rewrite two_circles_dist by lra. rewrite RA, RB. lra.
  - rewrite FA. discriminate.
  - rewrite FB. discriminate.
  - rewrite IA, IB. lra.
Defined.

End Touching.

(** ** The motion of a free body *)

Section Motion.
Import PhysicsEngine.

(** X22: One sub-step of a body that is neither fixed nor dragged, whose
    horizontal force is zero when the sub-step begins and whose inverse mass
    is the inverse of its mass: [applyForces] followed by [integrate] is a
    position Verlet step under the acceleration [-GRAVITY] along y, the same
    for every mass, and a drag of [0.01 / mass] times the stored velocity;
    the old position becomes the position, the force is cleared and the
    stored velocity becomes the displacement over [dt]. *)
Theorem free_body_substep (d : option nat) (dt : R) (i : nat) (o : SimObject) :
  fixed o = false -> d <> Some i -> mass o * invMass o = 1 ->
  x (force o) = 0 ->
  let o' := integrate1 d dt i (applyForces1 d i o) in
  Vec2.sub (pos o') (pos o)
    = Vec2.add (Vec2.sub (pos o) (oldPos o))
        (Vec2.mul (mkV (- (x (vel o) * (1/100)) * invMass o)
                       (- GRAVITY - y (vel o) * (1/100) * invMass o))
                  (dt * dt)) /\
  oldPos o' = pos o /\ force o' = mkV 0 0 /\
  vel o' = Vec2.div (Vec2.sub (pos o') (pos o)) dt /\
  statics o' = statics o.
Proof.
  intros Hf Hd Hm Hfx. cbv zeta. unfold applyForces1, integrate1.
  rewrite Hf, (bool_decide_eq_false_2 (d = Some i)) by exact Hd.
  cbn [orb set_force fixed pos oldPos force invMass vel mass angle oldAngle
       set_pos set_oldPos set_vel set_angles].
  rewrite Hf.
  cbn [set_force fixed pos oldPos force invMass vel mass angle oldAngle
       set_pos set_oldPos set_vel set_angles].
  split; [|repeat split].
  apply Vector2_eq; cbn [x y Vec2.sub Vec2.mul Vec2.add]; rewrite ?Hfx; [ring|].
  replace (- GRAVITY * mass o - y (vel o) * (1 / 100))
    with (- GRAVITY * mass o - y (vel o) * (1 / 100) * (mass o * invMass o))
    by (rewrite Hm; ring).
  transitivity (y (pos o) + (y (pos o) - y (oldPos o)
                 + (- GRAVITY * (mass o * invMass o)
                    - y (vel o) * (1 / 100) * (mass o * invMass o) * invMass o)
                   * (dt * dt)) - y (pos o)); [ring|].
  rewrite Hm. ring.
Qed.

Lemma free_body_substep_witness :
  oldPos (integrate1 None (DT / INR subSteps) 0
            (applyForces1 None 0 (Examples.circleA 1 (1/2))))
  = pos (Examples.circleA 1 (1/2)).
Proof.
  destruct (circle_fields 0 1 (1/2) "obj_1") as (_ & _ & _ & FA & IA); [lra | lra |].
  fold (Examples.circleA 1 (1/2)) in FA, IA.
  destruct (free_body_substep None (DT / INR subSteps) 0 (Examples.circleA 1 (1/2)))
    as (_ & H & _).
  - exact FA.
  - discriminate.
  - rewrite IA.
    destruct (updateGeometry_mass_fields
                (buildObject circle (Examples.cfg_circle 0 1 (1/2)) "obj_1"))
      as (Em & _).
    unfold Examples.circleA. rewrite Em. cbn [buildObject mass cfg_fixed cfg_mass
      Examples.cfg_circle truthy]. rewrite (orElse_supplied 1) by lra. field.
  - unfold Examples.circleA, updateGeometry.
    destruct (decide _); reflexivity.
  - exact H.
Defined.

(** X23: The configured velocity counts eight times.  [add] encodes the initial
    velocity [v] of a body as the displacement [v * DT], while a step is
    made of 8 sub-steps of [DT / 8]: after the first sub-step of a free body
    the displacement is [v * DT] plus the acceleration term, and the
    velocity that the engine stores is [8 * v] plus the acceleration over
    the sub-step. *)
Theorem initial_velocity_first_substep (type : ShapeType) (config : SimObjectConfig)
    (id : string) (i : nat) :
  type <> plane -> type <> cloth -> truthy (cfg_fixed config) = false ->
  let m := orElse (cfg_mass config) 1 in
  let v := mkV (orElse (cfg_vx config) 0) (orElse (cfg_vy config) 0) in
  let acc := mkV (- (x v * (1/100)) / m) (- GRAVITY - y v * (1/100) / m) in
  let o := updateGeometry (buildObject type config id) in
  let o' := integrate1 None (DT / INR subSteps) i (applyForces1 None i o) in
  vel o = v /\
  Vec2.sub (pos o') (pos o)
    = Vec2.add (Vec2.mul v DT) (Vec2.mul acc (DT / 8 * (DT / 8))) /\
  vel o' = Vec2.add (Vec2.mul v 8) (Vec2.mul acc (DT / 8)).
Proof.
  intros _ _ Hfix. cbv zeta.
  pose proof (orElse_nonzero (cfg_mass config) 1 ltac:(lra)) as Hm.
  set (m := orElse (cfg_mass config) 1) in *.
  set (vx := orElse (cfg_vx config) 0). set (vy := orElse (cfg_vy config) 0).
  assert (E : forall o, o = buildObject type config id ->
            vel (updateGeometry o) = vel o /\ pos (updateGeometry o) = pos o /\
            oldPos (updateGeometry o) = oldPos o /\ force (updateGeometry o) = force o /\
            fixed (updateGeometry o) = fixed o /\ mass (updateGeometry o) = mass o /\
            invMass (updateGeometry o) = invMass o /\
            angle (updateGeometry o) = angle o /\ oldAngle (updateGeometry o) = oldAngle o).
  { intros o _. unfold updateGeometry. destruct (decide _); repeat split. }
  destruct (E _ eq_refl) as (Ev & Ep & Eo & Efo & Efi & Ema & Eim & _).
  assert (Hsub : INR subSteps = 8) by (unfold subSteps; cbn; ring).
  unfold applyForces1, integrate1.
  rewrite Efi. cbn [buildObject fixed]. rewrite Hfix.
  cbn [orb bool_decide decide_rel set_force fixed pos oldPos force invMass vel mass
       angle oldAngle set_pos set_oldPos set_vel set_angles].
  rewrite (bool_decide_eq_false_2 (None = Some i)) by discriminate.
  cbn [orb set_force fixed pos oldPos force invMass vel mass
       angle oldAngle set_pos set_oldPos set_vel set_angles].
  rewrite Efi. cbn [buildObject fixed]. rewrite Hfix.
  cbn [set_force fixed pos oldPos force invMass vel mass
       angle oldAngle set_pos set_oldPos set_vel set_angles].
  rewrite Ev, Ep, Eo, Efo, Ema, Eim.
  cbn [buildObject vel pos oldPos force mass invMass]. rewrite Hfix.
  fold m vx vy. destruct (decide (m = 0)) as [|_]; [contradiction|].
  rewrite Hsub. unfold DT.
  split; [reflexivity|].
  split; apply Vector2_eq; cbn [x y Vec2.sub Vec2.mul Vec2.add Vec2.div];
    field; exact Hm.
Qed.

Lemma initial_velocity_first_substep_witness :
  vel (movingCircle 0 2 1 "obj_1") = mkV 2 1 /\
  vel (integrate1 None (DT / INR subSteps) 0
         (applyForces1 None 0 (movingCircle 0 2 1 "obj_1")))
  = Vec2.add (Vec2.mul (mkV 2 1) 8)
      (Vec2.mul (mkV (- (2 * (1 / 100)) / 1) (- GRAVITY - 1 * (1 / 100) / 1)) (DT / 8)).
Proof.
  pose proof (initial_velocity_first_substep circle (cfg_moving 0 2 1) "obj_1" 0
                ltac:(discriminate) ltac:(discriminate) eq_refl) as H.
  cbv zeta in H. cbn [cfg_moving cfg_vx cfg_vy cfg_mass x y] in H.
  rewrite !orElse_or_zero, orElse_None in H.
  destruct H as (Hv & _ & Hv'). split; [exact Hv | exact Hv'].
Defined.

End Motion.

(** ** Identifiers of the bodies of a script *)

Section Identifiers.
Import PhysicsEngine.

Lemma updateGeometry_id o : o_id (updateGeometry o) = o_id o.
Proof. unfold updateGeometry. destruct (decide _); reflexivity. Qed.

Lemma ids_ok_addShape type config : preserves ids_ok (addShape type config).
Proof.
  intros w (Hk & Hnd & Hreg). rewrite addShape_eq. cbn [fst].
  set (id := "obj_" +:+ pretty (S (idCounter w))).
  set (obj := updateGeometry _).
  assert (Hid : o_id obj = id).
  { subst obj. rewrite updateGeometry_id. destruct (decide (type = plane)); reflexivity. }
  assert (Hfresh : forall o, o ∈ objects (this w) -> o_id o <> id).
  { intros o Ho E. destruct (Hk o Ho) as (k & Ek & Hle).
    rewrite Ek in E. subst id. apply String.app_inj in E.
    apply pretty_nat_inj in E. lia. }
  unfold ids_ok. cbn [this idCounter objects objectMap]. split; [|split].
  - intros o Ho. apply elem_of_app in Ho as [Ho | Ho].
    + destruct (Hk o Ho) as (k & Ek & Hle). exists k. split; [exact Ek | lia].
    + apply list_elem_of_singleton in Ho as ->. exists (S (idCounter w)).
      split; [exact Hid | lia].
  - rewrite map_app. apply NoDup_app. split; [exact Hnd|]. split.
    + intros s Hs Hs'. cbn [map] in Hs'. apply list_elem_of_singleton in Hs'.
      apply list_elem_of_fmap in Hs as (o & -> & Ho).
      apply (Hfresh o Ho). congruence.
    + cbn [map]. apply NoDup_singleton.
  - intros r o Hr. apply lookup_app_Some in Hr as [Hr | [Hlen Hr]].
    + rewrite lookup_insert_ne.
      * apply Hreg. exact Hr.
      * rewrite Hid. intros E. apply (Hfresh o (list_elem_of_lookup_2 _ _ _ Hr)).
        symmetry. exact E.
    + apply list_lookup_singleton_Some in Hr as [Hr <-].
      rewrite lookup_insert_eq. f_equal. lia.
Qed.

Lemma ids_ok_connect idA idB config : preserves ids_ok (connect idA idB config).
Proof.
  intros w H. unfold connect.
  destruct (objectMap (this w) !! idA ≫= _); [|exact H].
  destruct (objectMap (this w) !! idB ≫= _); [|exact H].
  destruct H as (Hk & Hnd & Hreg). split; [|split; assumption].
  intros o Ho. destruct (Hk o Ho) as (k & Ek & Hle).
  exists k. split; [exact Ek|]. cbn. lia.
Qed.

Lemma ids_ok_connectTo idA idB config : preserves ids_ok (connectTo idA idB config).
Proof.
  destruct idB; cbn [connectTo]; [apply ids_ok_connect | apply preserves_ret].
Qed.

Lemma ids_ok_deref r : preserves ids_ok (deref r).
Proof. intros w H. unfold deref. destruct (objects (this w) !! r); exact H. Qed.

Lemma ids_ok_log msg : preserves ids_ok (log msg).
Proof. intros w H. exact H. Qed.

Lemma ids_ok_addCloth config : preserves ids_ok (addCloth config).
Proof.
  unfold addCloth.
  apply preserves_bind.
  { apply preserves_forM. intros gy. apply preserves_forM. intros gx.
    apply preserves_bind; [apply ids_ok_addShape|]. intros p.
    apply preserves_bind; [apply ids_ok_deref|]. intros o. apply preserves_ret. }
  intros grid. apply preserves_bind.
  { apply preserves_forM. intros gy. apply preserves_forM. intros gx.
    destruct (grid !! gy ≫= _) as [here|]; [|apply preserves_throw].
    apply preserves_bind.
    - destruct (decide (INR gx < _)); [apply ids_ok_connectTo | apply preserves_ret].
    - intros _. destruct (decide (INR gy < _)); [|apply preserves_ret].
      destruct (grid !! S gy); [apply ids_ok_connectTo | apply preserves_throw]. }
  intros _. destruct (grid !! 0%nat); [|apply preserves_throw].
  intros w H. exact H.
Qed.

Lemma ids_ok_add type config : preserves ids_ok (add type config).
Proof.
  unfold add. destruct (decide (type = cloth)); [apply ids_ok_addCloth|].
  apply preserves_bind; [apply ids_ok_addShape|].
  intros r. apply preserves_ret.
Qed.

Lemma ids_ok_runScript cs : preserves ids_ok (runScript cs).
Proof.
  induction cs as [|c cs IH]; cbn [runScript]; [apply preserves_ret|].
  apply preserves_bind; [|intros _; exact IH].
  destruct c as [type config | idA idB config]; cbn [proxyCall].
  - apply preserves_bind; [apply ids_ok_add | intros _; apply preserves_ret].
  - destruct (_ || _); [apply preserves_ret | apply ids_ok_connect].
Qed.

Lemma ids_ok_reset w : ids_ok (reset w).
Proof.
  split; [|split]; cbn.
  - intros o Ho. apply elem_of_nil in Ho. contradiction.
  - constructor.
  - intros r o Hr. discriminate.
Qed.

(** X24: Whatever script [parseAndExecute] runs, and in whatever world, the
    bodies it leaves have pairwise distinct identifiers, and the registry
    files each of them under its own identifier: looking a body up by its
    [id] finds that body and no other.  This holds as well when the script
    throws half way. *)
Theorem script_ids_unique (cs : list Call) (w : World) :
  NoDup (map o_id (objects (this (parseAndExecute cs w)))) /\
  forall r o,
    objects (this (parseAndExecute cs w)) !! r = Some o ->
    objectMap (this (parseAndExecute cs w)) !! o_id o = Some r.
Proof.
  assert (H : ids_ok (parseAndExecute cs w)).
  { unfold parseAndExecute.
    pose proof (ids_ok_runScript cs (reset w) (ids_ok_reset w)) as Hrun.
    destruct (runScript cs (reset w)) as [w' [u|e]]; cbn [fst] in Hrun;
      [exact Hrun | exact (ids_ok_log _ w' Hrun)]. }
  destruct H as (_ & Hnd & Hreg). split; assumption.
Qed.

End Identifiers.

(** ** Planes *)

Section Plane.
Import PhysicsEngine.

(** X25: [add('plane', config)] always succeeds and registers a fixed box, 1000
    wide and 1 high whatever width and height are configured, with zero
    inverse mass and inertia, centered half a unit below the configured
    position; when no angle is configured, its cached vertices are the
    corners of the slab whose top face is at the configured height. *)
Theorem plane_is_fixed_slab (config : SimObjectConfig) (w : World) :
  exists r o,
    (add plane config w).2 = Ok (Some r) /\
    objects (this (add plane config w).1) !! r = Some o /\
    objectMap (this (add plane config w).1) !! o_id o = Some r /\
    o_type o = box /\ fixed o = true /\ invMass o = 0 /\ invInertia o = 0 /\
    width o = 1000 /\ height o = 1 /\
    pos o = mkV (orElse (cfg_x config) 0) (orElse (cfg_y config) 0 - 1/2) /\
    y (oldPos o) = y (pos o) /\
    (orElse (cfg_angle config) 0 = 0 ->
     vertices o
     = Some (rect (orElse (cfg_x config) 0 - 500) (orElse (cfg_x config) 0 + 500)
                  (orElse (cfg_y config) 0 - 1) (orElse (cfg_y config) 0))).
Proof.
  rewrite (add_shape plane config w) by discriminate. cbn [fst snd].
  exists (length (objects (this w))).
  set (o0 := planeToBox (buildObject plane config
                           ("obj_" +:+ pretty (S (idCounter w))))).
  exists (updateGeometry o0).
  split; [reflexivity|]. split.
  { pose proof (addShape_creates plane config w) as H. cbv zeta in H.
    destruct (decide (plane = plane)) as [_|]; [exact H | contradiction]. }
  split.
  { rewrite addShape_eq. cbn [fst this objectMap].
    destruct (decide (plane = plane)) as [_|]; [|contradiction].
    fold o0. apply lookup_insert_eq. }
  destruct (updateGeometry_mass_fields o0)
    as (_ & Ei & _ & Eii & Ef & Et & Ep & Ew & Eh & _).
  rewrite Et, Ef, Ei, Eii, Ew, Eh, Ep.
  do 7 (split; [reflexivity|]).
  split.
  { unfold updateGeometry. destruct (decide (o_type o0 = box)); reflexivity. }
  intros Hang. rewrite (updateGeometry_unrotated o0 eq_refl Hang).
  f_equal. unfold rect. cbn [o0 planeToBox buildObject pos width height x y].
  do 1 f_equal; [|f_equal; [|f_equal; [|f_equal]]]; apply Vector2_eq; cbn [x y]; lra.
Qed.

End Plane.

(** ** Cloth *)

Section Cloth.
Import PhysicsEngine.

Lemma addCloth_unfold config :
  addCloth config =
  (grid <- forM (seq 0 (upto (orElse (cfg_segmentsY config) 10))) (fun gy =>
             forM (seq 0 (upto (orElse (cfg_segmentsX config) 10)))
                  (clothParticle config gy));;
   _ <- forM (seq 0 (upto (orElse (cfg_segmentsY config) 10))) (fun gy =>
          forM (seq 0 (upto (orElse (cfg_segmentsX config) 10)))
               (clothLinks config grid gy));;
   match (grid : list (list string)) !! 0%nat with
   | None => throw TypeError
   | Some row0 =>
       fun w : World =>
         (w, Ok ((row0 : list string) !! 0%nat
                   ≫= (fun id : string => objectMap (this w) !! id)))
   end).
Proof. reflexivity. Qed.

(** The loop [for (k = 0; k <= n; k++)] runs for the naturals up to [n]. *)
Lemma upto_spec (s : R) (k : nat) : (k < upto s)%nat <-> INR k <= s.
Proof.
  unfold upto. destruct (base_Int_part s) as [H1 H2].
  rewrite INR_IZR_INZ. split; intros H.
  - assert (Hz : (Z.of_nat k <= Int_part s)%Z) by lia.
    apply IZR_le in Hz. lra.
  - assert (Hz : (Z.of_nat k < Int_part s + 1)%Z).
    { apply lt_IZR. rewrite plus_IZR. lra. }
    lia.
Qed.

Lemma upto_INR (n : nat) : upto (INR n) = S n.
Proof. unfold upto. rewrite Int_part_INR. lia. Qed.

Lemma bindM_ok {A B} (c : M A) (k : A -> M B) w a :
  (c w).2 = Ok a -> bindM c k w = k a (c w).1.
Proof. unfold bindM. destruct (c w) as [w' r]. cbn. intros ->. reflexivity. Qed.

Lemma bindM_throw {A B} (c : M A) (k : A -> M B) w e :
  (c w).2 = Throw e -> bindM c k w = ((c w).1, Throw e).
Proof. unfold bindM. destruct (c w) as [w' r]. cbn. intros ->. reflexivity. Qed.

(** A loop whose body keeps an invariant of the results so far. *)
Lemma forM_inv {A B} (l : list A) (f : A -> M B) :
  forall (I : list B -> World -> Prop),
  (forall bs a w, l !! length bs = Some a -> I bs w ->
     exists b, (f a w).2 = Ok b /\ I (bs ++ [b]) (f a w).1) ->
  forall w, I [] w ->
  exists bs, (forM l f w).2 = Ok bs /\ length bs = length l /\ I bs (forM l f w).1.
Proof.
  induction l as [|a l IH]; intros I Hstep w H0.
  - exists []. cbn. auto.
  - destruct (Hstep [] a w eq_refl H0) as (b & Eb & Hb). cbn [app] in Hb.
    destruct (IH (fun bs => I (b :: bs))) with (w := (f a w).1) as (bs & Ebs & Hlen & Hbs).
    + intros bs a' w' Ha' Hw'. apply (Hstep (b :: bs) a' w' Ha' Hw').
    + exact Hb.
    + exists (b :: bs). cbn [forM].
      rewrite (bindM_ok _ _ _ _ Eb), (bindM_ok _ _ _ _ Ebs). cbn.
      split; [reflexivity|]. split; [lia | exact Hbs].
Qed.

(** A loop ends with the first body that throws. *)
Lemma forM_throw_at {A B} (f : A -> M B) a (l2 : list A) e :
  forall (l1 : list A) w bs,
  (forM l1 f w).2 = Ok bs -> (f a (forM l1 f w).1).2 = Throw e ->
  (forM (l1 ++ a :: l2) f w).2 = Throw e.
Proof.
  induction l1 as [|a1 l1 IH]; intros w bs Hok Hthrow.
  - cbn [app forM] in *. cbn [retM fst] in Hthrow.
    rewrite (bindM_throw _ _ _ _ Hthrow). reflexivity.
  - cbn [app forM] in *. unfold bindM in Hok, Hthrow |- *.
    destruct (f a1 w) as [w1 [b|e1]]; [|discriminate].
    pose proof (IH w1) as IH'.
    destruct (forM l1 f w1) as [w2 [bs'|e2]]; [|discriminate].
    cbn [retM fst snd] in Hthrow, IH'. specialize (IH' bs' eq_refl Hthrow).
    destruct (forM (l1 ++ a :: l2) f w1) as [w3 [x|e3]]; cbn [snd] in IH' |- *;
      congruence.
Qed.

Lemma elem_of_concat {A} (x : A) (row : list A) (rows : list (list A)) :
  x ∈ row -> row ∈ rows -> x ∈ concat rows.
Proof.
  intros Hx Hrow. induction rows as [|r rows IH].
  - apply elem_of_nil in Hrow. contradiction.
  - cbn [concat]. apply elem_of_app. apply elem_of_cons in Hrow as [<- | Hrow].
    + left. exact Hx.
    + right. exact (IH Hrow).
Qed.

Lemma cloth_state_start w0 : cloth_state w0 0 0 [] w0.
Proof.
  split; [|split].
  - exists []. rewrite app_nil_r. auto.
  - exists []. rewrite app_nil_r. auto.
  - intros id Hid. apply elem_of_nil in Hid. contradiction.
Qed.

(** Creating one particle. *)
Lemma clothParticle_step config gy gx w0 nb nc ids w :
  cloth_state w0 nb nc ids w ->
  exists id,
    (clothParticle config gy gx w).2 = Ok id /\
    cloth_state w0 (S nb) nc (ids ++ [id]) (clothParticle config gy gx w).1.
Proof.
  intros ((news & Eo & Hnb & Hcirc) & Hc & Hids).
  unfold clothParticle. cbv zeta.
  set (cfg := {| cfg_mass := Some (1 / 10); cfg_material := _ |}).
  pose proof (addShape_eq circle cfg w) as Eadd. cbv zeta in Eadd.
  destruct (decide (circle = plane)) as [|_]; [discriminate|].
  set (obj := updateGeometry (buildObject circle cfg _)) in Eadd.
  rewrite (bindM_ok _ _ w (length (objects (this w))))
    by (rewrite Eadd; reflexivity).
  rewrite Eadd. cbn [fst].
  set (w1 := {| idCounter := S (idCounter w); this := _ |}).
  assert (Hderef : deref (length (objects (this w))) w1 = (w1, Ok obj)).
  { unfold deref. cbn [w1 this objects].
    rewrite lookup_app_r by lia. rewrite Nat.sub_diag. reflexivity. }
  rewrite (bindM_ok _ _ w1 obj) by (rewrite Hderef; reflexivity).
  rewrite Hderef. cbn [fst retM snd].
  exists (o_id obj). split; [reflexivity|].
  split; [|split]; cbn [w1 this objects constraints objectMap].
  - exists (news ++ [obj]). rewrite Eo, <- app_assoc.
    split; [reflexivity|]. split; [rewrite length_app; cbn; lia|].
    apply Forall_app. split; [exact Hcirc|]. constructor; [|constructor].
    destruct (updateGeometry_mass_fields (buildObject circle cfg
                ("obj_" +:+ pretty (S (idCounter w)))))
      as (_ & _ & _ & _ & _ & Et & _ & _ & _ & Er).
    fold obj in Et, Er. rewrite Et, Er. split; [reflexivity|].
    cbn [buildObject radius cfg cfg_radius]. apply orElse_supplied. lra.
  - exact Hc.
  - intros id Hid. destruct (decide (id = o_id obj)) as [-> | Hne].
    + exists (length (objects (this w))), obj. rewrite lookup_insert_eq.
      split; [reflexivity|]. rewrite lookup_app_r by lia.
      rewrite Nat.sub_diag. reflexivity.
    + apply elem_of_app in Hid as [Hid | Hid];
        [|apply list_elem_of_singleton in Hid; contradiction].
      destruct (Hids id Hid) as (r & o & Hr & Ho).
      exists r, o. rewrite lookup_insert_ne by congruence.
      split; [exact Hr|]. rewrite lookup_app_l; [exact Ho|].
      exact (lookup_lt_Some _ _ _ Ho).
Qed.

(** Linking two particles that were created. *)
Lemma clothLink_step idA idB w0 nb nc ids w :
  cloth_state w0 nb nc ids w -> idA ∈ ids -> idB ∈ ids ->
  (connect idA idB clothConfig w).2 = Ok tt /\
  cloth_state w0 nb (S nc) ids (connect idA idB clothConfig w).1.
Proof.
  intros (Ho & (newc & Ec & Hnc & Hst) & Hids) HA HB.
  destruct (Hids idA HA) as (a & A & Ha & HoA).
  destruct (Hids idB HB) as (b & B & Hb & HoB).
  rewrite (connect_found idA idB clothConfig w a b A B Ha HoA Hb HoB).
  cbn [fst snd]. split; [reflexivity|].
  split; [exact Ho|]. split; [|exact Hids].
  cbn [this constraints]. eexists (newc ++ [_]). rewrite Ec, <- app_assoc.
  split; [reflexivity|]. split; [rewrite length_app; cbn; lia|].
  apply Forall_app. split; [exact Hst|]. constructor; [|constructor].
  cbn [stiffness clothConfig cc_stiffness]. apply orElse_supplied. lra.
Qed.

Section Grid.
Variable config : SimObjectConfig.
Let segX := orElse (cfg_segmentsX config) 10.
Let segY := orElse (cfg_segmentsY config) 10.
Let N := upto segX.
Let M := upto segY.

(** The first pair of loops: the particles. *)
Lemma cloth_particles w :
  exists grid,
    (forM (seq 0 M) (fun gy => forM (seq 0 N) (clothParticle config gy)) w).2
      = Ok grid /\
    length grid = M /\ Forall (fun row => length row = N) grid /\
    cloth_state w (M * N) 0 (concat grid)
      (forM (seq 0 M) (fun gy => forM (seq 0 N) (clothParticle config gy)) w).1.
Proof.
  destruct (forM_inv (seq 0 M) (fun gy => forM (seq 0 N) (clothParticle config gy))
              (fun rows w' => Forall (fun row => length row = N) rows /\
                              cloth_state w (length rows * N) 0 (concat rows) w')) with (w := w)
    as (grid & Eg & Hlen & Hrows & Hst).
  - intros rows gy w' _ [Hrows Hst].
    destruct (forM_inv (seq 0 N) (clothParticle config gy)
                (fun row w'' => cloth_state w (length rows * N + length row) 0
                                  (concat rows ++ row) w'')) with (w := w')
      as (row & Er & Hl & Hst').
    + intros row gx w'' _ Hw''.
      destruct (clothParticle_step config gy gx _ _ _ _ _ Hw'') as (id & Eid & Hid).
      exists id. split; [exact Eid|].
      rewrite length_app, app_assoc. cbn [length].
      replace (length rows * N + (length row + 1))%nat
        with (S (length rows * N + length row)) by lia.
      exact Hid.
    + rewrite app_nil_r, Nat.add_0_r. exact Hst.
    + exists row. split; [exact Er|]. rewrite length_seq in Hl. split.
      * apply Forall_app. split; [exact Hrows|]. constructor; [exact Hl | constructor].
      * rewrite length_app, concat_app. cbn [length concat]. rewrite app_nil_r.
        replace ((length rows + 1) * N)%nat with (length rows * N + length row)%nat
          by lia.
        exact Hst'.
  - split; [constructor|]. apply cloth_state_start.
  - exists grid. rewrite length_seq in Hlen. rewrite Hlen in Hst.
    split; [exact Eg|]. split; [exact Hlen|]. split; [exact Hrows | exact Hst].
Qed.

Variable grid : list (list string).
Hypothesis grid_rows : length grid = M.
Hypothesis grid_cols : Forall (fun row => length row = N) grid.

Lemma grid_lookup gy gx :
  (gy < M)%nat -> (gx < N)%nat ->
  exists row id, grid !! gy = Some row /\ row !! gx = Some id /\ id ∈ concat grid.
Proof.
  intros Hgy Hgx.
  destruct (lookup_lt_is_Some_2 grid gy) as [row Hrow]; [lia|].
  pose proof (Forall_lookup_1 _ _ _ _ grid_cols Hrow) as Hl. cbn beta in Hl.
  destruct (lookup_lt_is_Some_2 row gx) as [id Hid]; [lia|].
  exists row, id. split; [exact Hrow|]. split; [exact Hid|].
  exact (elem_of_concat _ _ _ (list_elem_of_lookup_2 _ _ _ Hid)
           (list_elem_of_lookup_2 _ _ _ Hrow)).
Qed.

(** The links of one particle, when the row below exists or is not asked
    for. *)
Lemma clothLinks_step w0 nb nc w gy gx :
  cloth_state w0 nb nc (concat grid) w ->
  (gy < M)%nat -> (gx < N)%nat ->
  ((S gy < M)%nat \/ ~ INR gy < segY) ->
  (clothLinks config grid gy gx w).2 = Ok tt /\
  cloth_state w0 nb
    (nc + (if decide (S gx < N)%nat then 1 else 0)
        + (if decide (S gy < M)%nat then 1 else 0))
    (concat grid) (clothLinks config grid gy gx w).1.
Proof.
  intros Hst Hgy Hgx Hlast.
  destruct (grid_lookup gy gx Hgy Hgx) as (row & here & Hrow & Hhere & Hin).
  unfold clothLinks. cbv zeta. fold segX segY.
  rewrite Hrow. cbn [mbind option_bind]. rewrite Hhere.
  pose proof (Forall_lookup_1 _ _ _ _ grid_cols Hrow) as Hl. cbn beta in Hl.
  (* the link to the right *)
  set (right := if decide (INR gx < segX)
                then connectTo here (row !! S gx) clothConfig else retM tt).
  assert (Hright : (right w).2 = Ok tt /\
            cloth_state w0 nb (nc + (if decide (S gx < N)%nat then 1 else 0))
              (concat grid) (right w).1).
  { subst right. destruct (decide (S gx < N)%nat) as [Hin' | Hout].
    - assert (Hlt : INR gx < segX).
      { apply (upto_spec segX (S gx)) in Hin'. rewrite S_INR in Hin'. lra. }
      destruct (decide (INR gx < segX)); [|contradiction].
      destruct (grid_lookup gy (S gx) Hgy Hin') as (row' & idB & Hrow' & HidB & HinB).
      assert (row' = row) as -> by congruence. rewrite HidB. cbn [connectTo].
      replace (nc + 1)%nat with (S nc) by lia.
      apply (clothLink_step here idB); assumption.
    - rewrite Nat.add_0_r.
      destruct (decide (INR gx < segX)); [|split; [reflexivity | exact Hst]].
      rewrite (lookup_ge_None_2 row (S gx)) by lia. cbn [connectTo].
      split; [reflexivity | exact Hst]. }
  destruct Hright as [Er Hst1].
  rewrite (bindM_ok _ _ w tt Er).
  (* the link to the row below *)
  destruct (decide (S gy < M)%nat) as [Hin' | Hout].
  - assert (Hlt : INR gy < segY).
    { apply (upto_spec segY (S gy)) in Hin'. rewrite S_INR in Hin'. lra. }
    destruct (decide (INR gy < segY)); [|contradiction].
    destruct (grid_lookup (S gy) gx Hin' Hgx) as (below & idB & Hbelow & HidB & HinB).
    rewrite Hbelow, HidB. cbn [connectTo].
    replace (nc + (if decide (S gx < N)%nat then 1 else 0) + 1)%nat
      with (S (nc + (if decide (S gx < N)%nat then 1 else 0))) by lia.
    apply (clothLink_step here idB); assumption.
  - rewrite Nat.add_0_r. destruct Hlast as [Hlast | Hlast]; [contradiction|].
    destruct (decide (INR gy < segY)); [contradiction|].
    split; [reflexivity | exact Hst1].
Qed.

(** The links of one row. *)
Lemma clothLinks_row w0 nb nc w gy :
  cloth_state w0 nb nc (concat grid) w ->
  (gy < M)%nat -> ((S gy < M)%nat \/ ~ INR gy < segY) ->
  exists us,
    (forM (seq 0 N) (clothLinks config grid gy) w).2 = Ok us /\
    cloth_state w0 nb
      (nc + (N - 1) + (if decide (S gy < M)%nat then N else 0))
      (concat grid) (forM (seq 0 N) (clothLinks config grid gy) w).1.
Proof.
  intros Hst Hgy Hlast.
  destruct (forM_inv (seq 0 N) (clothLinks config grid gy)
              (fun us w' =>
                 (length us <= N)%nat /\
                 cloth_state w0 nb
                   (nc + Nat.min (length us) (N - 1)
                       + (if decide (S gy < M)%nat then length us else 0))
                   (concat grid) w')) with (w := w)
    as (us & Eus & Hlen & _ & Hst').
  - intros us gx w' Hgx [_ Hw'].
    apply lookup_seq in Hgx as [Egx Hlt]. cbn in Egx. subst gx.
    destruct (clothLinks_step w0 nb _ w' gy (length us) Hw' Hgy Hlt Hlast) as [E Hs].
    exists tt. split; [exact E|]. rewrite length_app. cbn [length].
    split; [lia|].
    replace (nc + Nat.min (length us + 1) (N - 1)
               + (if decide (S gy < M)%nat then (length us + 1)%nat else 0%nat))%nat
      with (nc + Nat.min (length us) (N - 1)
               + (if decide (S gy < M)%nat then length us else 0%nat)
               + (if decide (S (length us) < N)%nat then 1 else 0)
               + (if decide (S gy < M)%nat then 1 else 0))%nat;
      [exact Hs|].
    destruct (decide (S (length us) < N)%nat), (decide (S gy < M)%nat); lia.
  - split; [cbn; lia|]. cbn [length].
    replace (nc + Nat.min 0 (N - 1) + (if decide (S gy < M)%nat then 0 else 0))%nat
      with nc by (destruct (decide (S gy < M)%nat); lia).
    exact Hst.
  - exists us. split; [exact Eus|]. rewrite length_seq in Hlen. rewrite Hlen in Hst'.
    replace (Nat.min N (N - 1)) with (N - 1)%nat in Hst' by lia. exact Hst'.
Qed.

(** The second pair of loops, for a whole number of rows. *)
Lemma clothLinks_all w0 nb w :
  cloth_state w0 nb 0 (concat grid) w ->
  (forall gy, (gy < M)%nat -> (S gy < M)%nat \/ ~ INR gy < segY) ->
  exists us,
    (forM (seq 0 M) (fun gy => forM (seq 0 N) (clothLinks config grid gy)) w).2
      = Ok us /\
    cloth_state w0 nb (M * (N - 1) + (M - 1) * N) (concat grid)
      (forM (seq 0 M) (fun gy => forM (seq 0 N) (clothLinks config grid gy)) w).1.
Proof.
  intros Hst Hlast.
  destruct (forM_inv (seq 0 M) (fun gy => forM (seq 0 N) (clothLinks config grid gy))
              (fun us w' =>
                 (length us <= M)%nat /\
                 cloth_state w0 nb
                   (length us * (N - 1) + Nat.min (length us) (M - 1) * N)
                   (concat grid) w')) with (w := w)
    as (us & Eus & Hlen & _ & Hst').
  - intros us gy w' Hgy [_ Hw'].
    apply lookup_seq in Hgy as [Egy Hlt]. cbn in Egy. subst gy.
    destruct (clothLinks_row w0 nb _ w' (length us) Hw' Hlt (Hlast _ Hlt))
      as (row & E & Hs).
    exists row. split; [exact E|]. rewrite length_app. cbn [length].
    split; [lia|].
    replace ((length us + 1) * (N - 1) + Nat.min (length us + 1) (M - 1) * N)%nat
      with (length us * (N - 1) + Nat.min (length us) (M - 1) * N + (N - 1)
            + (if decide (S (length us) < M)%nat then N else 0))%nat;
      [exact Hs|].
    destruct (decide (S (length us) < M)%nat).
    + rewrite !Nat.min_l by lia. lia.
    + rewrite !Nat.min_r by lia. lia.
  - split; [cbn; lia|]. cbn [length]. exact Hst.
  - exists us. split; [exact Eus|]. rewrite length_seq in Hlen. rewrite Hlen in Hst'.
    replace (Nat.min M (M - 1)) with (M - 1)%nat in Hst' by lia. exact Hst'.
Qed.

(** The second pair of loops, when the number of rows asked for is not a
    whole number: the particles of the last row look for a row below that
    was not created. *)
Lemma clothLinks_throw w0 nb w :
  cloth_state w0 nb 0 (concat grid) w ->
  (0 < M)%nat -> (0 < N)%nat -> INR (M - 1) < segY ->
  (forM (seq 0 M) (fun gy => forM (seq 0 N) (clothLinks config grid gy)) w).2
    = Throw TypeError.
Proof.
  intros Hst HM HN Hfrac.
  replace (seq 0 M) with (seq 0 (M - 1) ++ (M - 1)%nat :: [])
    by (replace M with (M - 1 + 1)%nat at 3 by lia; rewrite seq_app; reflexivity).
  destruct (forM_inv (seq 0 (M - 1))
              (fun gy => forM (seq 0 N) (clothLinks config grid gy))
              (fun us w' => exists nc, cloth_state w0 nb nc (concat grid) w'))
    with (w := w) as (us & Eus & _ & (nc & Hst')).
  - intros us gy w' Hgy [nc Hw'].
    apply lookup_seq in Hgy as [Egy Hlt]. cbn in Egy. subst gy.
    destruct (clothLinks_row w0 nb nc w' (length us) Hw') as (row & E & Hs);
      [lia | left; lia|].
    exists row. split; [exact E|]. eexists. exact Hs.
  - exists 0%nat. exact Hst.
  - apply (forM_throw_at _ _ _ _ _ _ us Eus).
    set (w1 := (forM (seq 0 (M - 1)) _ w).1) in *.
    replace (seq 0 N) with ([] ++ 0%nat :: seq 1 (N - 1))
      by (destruct N; [lia|]; cbn; rewrite Nat.sub_0_r; reflexivity).
    apply (forM_throw_at _ _ _ _ [] w1 []); [reflexivity|].
    cbn [forM retM fst].
    destruct (grid_lookup (M - 1) 0) as (row & here & Hrow & Hhere & Hin); [lia | lia|].
    unfold clothLinks. cbv zeta. fold segX segY.
    rewrite Hrow. cbn [mbind option_bind]. rewrite Hhere.
    set (right := if decide (INR 0 < segX)
                  then connectTo here (row !! 1%nat) clothConfig else retM tt).
    assert (Hright : (right w1).2 = Ok tt).
    { subst right. destruct (decide (INR 0 < segX)); [|reflexivity].
      destruct (row !! 1%nat) as [idB|] eqn:EB; cbn [connectTo]; [|reflexivity].
      apply (clothLink_step here idB w0 nb nc (concat grid) w1 Hst' Hin).
      exact (elem_of_concat _ _ _ (list_elem_of_lookup_2 _ _ _ EB)
               (list_elem_of_lookup_2 _ _ _ Hrow)). }
    rewrite (bindM_ok _ _ w1 tt Hright).
    destruct (decide (INR (M - 1) < segY)); [|contradiction].
    rewrite (lookup_ge_None_2 grid (S (M - 1))) by lia. reflexivity.
Qed.

End Grid.

(** X26: [add('cloth', ..)] with whole numbers [n] of columns and [m] of rows of
    cells (the defaults are 10 and 10, which also replace a 0) succeeds: it
    appends [(n + 1) * (m + 1)] circles of radius 0.1 to the bodies and
    [n * (m + 1) + m * (n + 1)] links of stiffness 0.8 to the constraints,
    and returns a handle to a body of the list. *)
Theorem cloth_grid_counts (n m : nat) (config : SimObjectConfig) (w : World) :
  orElse (cfg_segmentsX config) 10 = INR n ->
  orElse (cfg_segmentsY config) 10 = INR m ->
  exists r news newc,
    (add cloth config w).2 = Ok (Some r) /\
    is_Some (objects (this (add cloth config w).1) !! r) /\
    objects (this (add cloth config w).1) = objects (this w) ++ news /\
    length news = ((n + 1) * (m + 1))%nat /\
    Forall (fun o => o_type o = circle /\ radius o = 1 / 10) news /\
    constraints (this (add cloth config w).1) = constraints (this w) ++ newc /\
    length newc = (n * (m + 1) + m * (n + 1))%nat /\
    Forall (fun c => stiffness c = 8 / 10) newc.
Proof.
  intros HX HY.
  assert (HN : upto (orElse (cfg_segmentsX config) 10) = S n)
    by (rewrite HX; apply upto_INR).
  assert (HM : upto (orElse (cfg_segmentsY config) 10) = S m)
    by (rewrite HY; apply upto_INR).
  unfold add. destruct (decide (cloth = cloth)) as [_|]; [|contradiction].
  rewrite addCloth_unfold.
  destruct (cloth_particles config w) as (grid & Eg & Hrows & Hcols & Hst).
  rewrite (bindM_ok _ _ w grid Eg).
  set (w1 := (forM _ _ w).1) in *.
  destruct (clothLinks_all config grid Hrows Hcols w _ w1 Hst) as (us & Eus & Hst2).
  { intros gy Hgy. rewrite HM in *. destruct (decide (S gy < S m)%nat); [left; assumption|].
    right. rewrite HY. assert (gy = m) as -> by lia. lra. }
  rewrite (bindM_ok _ _ w1 us Eus).
  set (w2 := (forM _ _ w1).1) in *.
  destruct (grid_lookup config grid Hrows Hcols 0 0) as (row0 & id0 & Hrow0 & Hid0 & Hin0);
    [lia | lia |].
  rewrite Hrow0. cbn [fst snd]. rewrite Hid0. cbn [mbind option_bind].
  destruct Hst2 as ((news & Eo & Hnb & Hcirc) & (newc & Ec & Hnc & Hstiff) & Hids).
  destruct (Hids id0 Hin0) as (r & o & Hr & Ho).
  exists r, news, newc. rewrite Hr.
  split; [reflexivity|]. split; [eexists; exact Ho|].
  split; [exact Eo|]. split; [rewrite Hnb, HN, HM; lia|].
  split; [exact Hcirc|]. split; [exact Ec|].
  split; [|exact Hstiff].
  rewrite Hnc, HN, HM. cbn [Nat.sub]. rewrite !Nat.sub_0_r. lia.
Qed.

Lemma cloth_grid_counts_witness :
  exists r news newc,
    (add cloth cfg0 Examples.world0).2 = Ok (Some r) /\
    objects (this (add cloth cfg0 Examples.world0).1)
      = objects (this Examples.world0) ++ news /\
    length news = 121%nat /\
    constraints (this (add cloth cfg0 Examples.world0).1)
      = constraints (this Examples.world0) ++ newc /\
    length newc = 220%nat.
Proof.
  destruct (cloth_grid_counts 10 10 cfg0 Examples.world0)
    as (r & news & newc & E & _ & Eo & Hn & _ & Ec & Hc & _).
  - cbn [cfg0 cfg_segmentsX]. rewrite orElse_None. cbn. ring.
  - cbn [cfg0 cfg_segmentsY]. rewrite orElse_None. cbn. ring.
  - exists r, news, newc. repeat split; assumption.
Defined.

(** X27: [add('cloth', ..)] throws a [TypeError] when the number of rows asked
    for is negative, and also when it is positive but not a whole number
    and at least one column is asked for: in the first case no row is
    created and the handle [grid[0][0]] cannot be read; in the second the
    particles are created, and the links of the last row look for a row
    below it. *)
Theorem cloth_bad_rows_throw (config : SimObjectConfig) (w : World) :
  orElse (cfg_segmentsY config) 10 < 0 \/
  (IZR (Int_part (orElse (cfg_segmentsY config) 10)) <> orElse (cfg_segmentsY config) 10 /\
   0 < orElse (cfg_segmentsX config) 10) ->
  (add cloth config w).2 = Throw TypeError.
Proof.
  intros Hbad.
  unfold add. destruct (decide (cloth = cloth)) as [_|]; [|contradiction].
  rewrite addCloth_unfold.
  destruct (cloth_particles config w) as (grid & Eg & Hrows & Hcols & Hst).
  rewrite (bindM_ok _ _ w grid Eg).
  set (w1 := (forM _ _ w).1) in *.
  set (segY := orElse (cfg_segmentsY config) 10) in *.
  set (segX := orElse (cfg_segmentsX config) 10) in *.
  destruct (base_Int_part segY) as [Hfl1 Hfl2].
  destruct (decide (segY < 0)) as [Hneg | Hpos].
  - assert (HM : upto segY = 0%nat).
    { unfold upto. assert (Int_part segY < 0)%Z; [|lia].
      apply lt_IZR. lra. }
    rewrite HM in Hrows |- *. cbn [seq forM]. unfold bindM, retM.
    destruct grid; [reflexivity | discriminate].
  - destruct Hbad as [Hneg | [Hfrac HX]]; [contradiction|].
    assert (HM : (0 < upto segY)%nat) by (apply (upto_spec segY 0); cbn; lra).
    assert (HN : (0 < upto segX)%nat) by (apply (upto_spec segX 0); cbn; lra).
    rewrite (bindM_throw _ _ w1 TypeError); [reflexivity|].
    apply (clothLinks_throw config grid Hrows Hcols w _ w1 Hst).
    + exact HM.
    + exact HN.
    + fold segY. unfold upto in *. rewrite INR_IZR_INZ.
      replace (Z.of_nat (Z.to_nat (Int_part segY + 1) - 1)) with (Int_part segY) by lia.
      lra.
Qed.

Lemma cloth_bad_rows_throw_witness :
  (add cloth
     {| cfg_mass := None; cfg_material := None; cfg_x := None; cfg_y := None;
        cfg_width := None; cfg_height := None; cfg_radius := None;
        cfg_fixed := None; cfg_color := None; cfg_vx := None; cfg_vy := None;
        cfg_angle := None; cfg_segmentsX := None; cfg_segmentsY := Some (-1);
        cfg_pinTop := None |} Examples.world0).2 = Throw TypeError.
Proof.
  apply cloth_bad_rows_throw. left. cbn [cfg_segmentsY].
  rewrite orElse_supplied by lra. lra.
Defined.

End Cloth.

(** ** The friction step of the resolution *)

Section Friction.
Import CollisionSystem.

Lemma unit_sq n : Vec2.len n = 1 -> x n * x n + y n * y n = 1.
Proof.
  intros H. unfold Vec2.len in H.
  assert (H0 : 0 <= x n * x n + y n * y n) by nra.
  rewrite <- (sqrt_sqrt _ H0), H. ring.
Qed.

Lemma tangent_of_unit_normal n :
  Vec2.len n = 1 -> Vec2.normalize (Vec2.perp n) = Vec2.perp n.
Proof.
  intros H. pose proof (unit_sq n H) as Hn.
  apply (normalize_eq _ _ 1); cbn [Vec2.perp x y]; [lra | ring | ring | nra].
Qed.

(** X28: The friction step multiplies the sliding speed.  For a manifold with a
    unit normal over two distinct bodies whose inverse masses do not sum to
    0, the relative velocity of the two bodies along the tangent, read as
    the engine reads velocities ([pos - oldPos]), is after [applyResolution]
    the one before it times [1 + mu] when both bodies are free, and times
    [1 + mu / 2] when one of them is fixed, where [mu] is the smaller of the
    two friction coefficients. *)
Theorem friction_scales_sliding_speed (m : Manifold) (h : Store) (A B : SimObject) :
  h !! m_bodyA m = Some A -> h !! m_bodyB m = Some B ->
  m_bodyA m <> m_bodyB m -> invMass A + invMass B <> 0 ->
  Vec2.len (normal m) = 1 ->
  exists A' B',
    applyResolution m h !! m_bodyA m = Some A' /\
    applyResolution m h !! m_bodyB m = Some B' /\
    Vec2.dot (Vec2.sub (Vec2.sub (pos B') (oldPos B')) (Vec2.sub (pos A') (oldPos A')))
             (Vec2.perp (normal m))
    = (1 + Rmin (friction A) (friction B)
           * ((if fixed A then 0 else 1/2) + (if fixed B then 0 else 1/2)))
      * Vec2.dot (Vec2.sub (Vec2.sub (pos B) (oldPos B)) (Vec2.sub (pos A) (oldPos A)))
                 (Vec2.perp (normal m)).
Proof.
  intros HA HB Hab Hsum Hunit.
  pose proof (unit_sq _ Hunit) as Hn.
  assert (Hba : m_bodyB m <> m_bodyA m) by congruence.
  unfold applyResolution. rewrite HA, HB.
  destruct (decide (invMass A + invMass B = 0)) as [|_]; [contradiction|].
  rewrite (tangent_of_unit_normal _ Hunit).
  destruct (fixed A) eqn:EA, (fixed B) eqn:EB;
    repeat (rewrite ?list_lookup_alter_eq, ?HA, ?HB;
            rewrite ?list_lookup_alter_ne by assumption);
    cbn [fmap option_fmap option_map];
    repeat (rewrite ?list_lookup_alter_eq, ?HA, ?HB;
            rewrite ?list_lookup_alter_ne by assumption);
    cbn [fmap option_fmap option_map];
    eexists; eexists; (split; [reflexivity|]); (split; [reflexivity|]);
    cbn [pos oldPos friction set_pos set_oldPos];
    set (mu := Rmin (friction A) (friction B)); clearbody mu;
    unfold Vec2.dot, Vec2.sub, Vec2.add, Vec2.mul, Vec2.perp; cbn [x y].
  - ring.
  - replace (1 + mu * (0 + 1 / 2))
      with (1 + mu * (1 / 2) * (x (normal m) * x (normal m) + y (normal m) * y (normal m)))
      by (rewrite Hn; field).
    field. exact Hsum.
  - replace (1 + mu * (1 / 2 + 0))
      with (1 + mu * (1 / 2) * (x (normal m) * x (normal m) + y (normal m) * y (normal m)))
      by (rewrite Hn; field).
    field. exact Hsum.
  - replace (1 + mu * (1 / 2 + 1 / 2))
      with (1 + mu * (x (normal m) * x (normal m) + y (normal m) * y (normal m)))
      by (rewrite Hn; field).
    field. exact Hsum.
Qed.

Lemma movingCircle_fields px vx vy id :
  fixed (movingCircle px vx vy id) = false /\
  invMass (movingCircle px vx vy id) = 1 /\
  friction (movingCircle px vx vy id) = 5 / 10 /\
  pos (movingCircle px vx vy id) = mkV px 0 /\
  oldPos (movingCircle px vx vy id) = mkV (px - vx * DT) (0 - vy * DT).
Proof.
  unfold movingCircle, PhysicsEngine.updateGeometry.
  destruct (decide _) as [Hbox|_]; [discriminate Hbox|].
  cbn [PhysicsEngine.buildObject fixed invMass friction pos oldPos cfg_moving
       cfg_fixed cfg_mass cfg_material cfg_x cfg_y cfg_vx cfg_vy truthy MATERIALS
       mat_friction].
  rewrite !orElse_or_zero, !orElse_None.
  split; [reflexivity|]. split.
  { destruct (decide (1 = 0)); [lra | field]. }
  split; [reflexivity|]. split; reflexivity.
Qed.

(** Two circles in contact along the x axis, the second sliding upwards with
    the velocity 1: the sliding speed [DT] becomes [(1 + 1/2) * DT]. *)
Lemma friction_scales_sliding_speed_witness :
  exists A' B',
    applyResolution Examples.manifold01
      [movingCircle 0 0 0 "obj_1"; movingCircle (1/2) 0 1 "obj_2"] !! 0%nat = Some A' /\
    applyResolution Examples.manifold01
      [movingCircle 0 0 0 "obj_1"; movingCircle (1/2) 0 1 "obj_2"] !! 1%nat = Some B' /\
    Vec2.dot
      (Vec2.sub (Vec2.sub (pos (movingCircle (1/2) 0 1 "obj_2"))
                          (oldPos (movingCircle (1/2) 0 1 "obj_2")))
                (Vec2.sub (pos (movingCircle 0 0 0 "obj_1"))
                          (oldPos (movingCircle 0 0 0 "obj_1"))))
      (Vec2.perp (normal Examples.manifold01)) = DT /\
    Vec2.dot (Vec2.sub (Vec2.sub (pos B') (oldPos B')) (Vec2.sub (pos A') (oldPos A')))
             (Vec2.perp (normal Examples.manifold01)) = (1 + 1 / 2) * DT.
Proof.
  destruct (movingCircle_fields 0 0 0 "obj_1") as (FA & IA & MA & PA & OA).
  destruct (movingCircle_fields (1/2) 0 1 "obj_2") as (FB & IB & MB & PB & OB).
  assert (Hbefore :
    Vec2.dot
      (Vec2.sub (Vec2.sub (pos (movingCircle (1/2) 0 1 "obj_2"))
                          (oldPos (movingCircle (1/2) 0 1 "obj_2")))
                (Vec2.sub (pos (movingCircle 0 0 0 "obj_1"))
                          (oldPos (movingCircle 0 0 0 "obj_1"))))
      (Vec2.perp (normal Examples.manifold01)) = DT).
  { rewrite PA, OA, PB, OB.
    unfold Vec2.dot, Vec2.sub, Vec2.perp, Examples.manifold01. cbn [x y normal]. ring. }
  destruct (friction_scales_sliding_speed Examples.manifold01
              [movingCircle 0 0 0 "obj_1"; movingCircle (1/2) 0 1 "obj_2"]
              (movingCircle 0 0 0 "obj_1") (movingCircle (1/2) 0 1 "obj_2")
              eq_refl eq_refl) as (A' & B' & EA & EB & Hfr).
  - cbn. lia.
  - rewrite IA, IB. lra.
  - unfold Vec2.len, Examples.manifold01; cbn [normal x y].
    replace (1 * 1 + 0 * 0) with 1 by ring. apply sqrt_1.
  - exists A', B'. split; [exact EA|]. split; [exact EB|]. split; [exact Hbefore|].
    rewrite Hfr, Hbefore, FA, FB, MA, MB.
    unfold Rmin. destruct (Rle_dec _ _); lra.
Defined.

End Friction.

(** ** The motion of the fluid particles *)

Section FluidMotion.
Import PhysicsEngine.

Lemma zip_with_fuse {A B C D} (f : A -> C -> D) (g : A -> B -> C) :
  forall (la : list A) (lb : list B),
    zip_with f la (zip_with g la lb) = zip_with (fun a b => f a (g a b)) la lb.
Proof.
  induction la as [|a la IH]; intros [|b lb]; cbn [zip_with]; try reflexivity.
  f_equal. apply IH.
Qed.

Lemma zip_with_ext_on {A B C} (P : A -> Prop) (f g : A -> B -> C) :
  (forall a b, P a -> f a b = g a b) ->
  forall (la : list A) (lb : list B),
    Forall P la -> zip_with f la lb = zip_with g la lb.
Proof.
  intros Hfg. induction la as [|a la IH]; intros [|b lb] Hall; cbn [zip_with];
    try reflexivity.
  apply Forall_cons in Hall as [Ha Hall]. rewrite (Hfg a b Ha). f_equal.
  apply IH. exact Hall.
Qed.

Lemma updatePos_clamped dt p v :
  FluidSystem.updatePos dt p v
  = mk4 (Rmin 10 (Rmax (-10) (X p + X v * dt))) (Rmax 0 (Y p + Y v * dt)) (Z p) (W p).
Proof.
  unfold FluidSystem.updatePos, Rmin, Rmax.
  destruct (Rle_dec (-10) (X p + X v * dt));
    destruct (Rle_dec 0 (Y p + Y v * dt));
    repeat (match goal with
            | |- context [Rle_dec ?a ?b] => destruct (Rle_dec a b)
            end);
    repeat (match goal with
            | |- context [decide ?P] => destruct (decide P); cbn [X Y Z W] in *
            end);
    try (exfalso; lra); f_equal; lra.
Qed.

(** X29: How a step moves the fluid.  In a reachable world a step completes and
    moves every particle by the velocity that the same step has just
    computed (the old velocity less [GRAVITY * DT] along y), then clamps
    it to the domain: x to [-10, 10] and y to [0, oo). *)
Theorem fluid_particles_fall (w : World) :
  reachable w ->
  exists e',
    step (this w) = Ok e' /\
    st_particles (getState e')
    = zip_with
        (fun p v =>
           mk4 (Rmin 10 (Rmax (-10) (X p + X v * DT)))
               (Rmax 0 (Y p + (Y v - GRAVITY * DT) * DT)) (Z p) (W p))
        (st_particles (getState (this w)))
        (tex_in (FluidSystem.velState (fluidSystem (this w)))).
Proof.
  intros Hw. destruct (reachable_Inv w Hw) as [Hb Hdom].
  destruct (step_frame (this w) (Forall_body_shape _ Hb)) as (e' & Hstep & _ & Hfl).
  exists e'. split; [exact Hstep|].
  cbn [getState st_particles]. rewrite Hfl.
  unfold FluidSystem.getParticles, GPGPU.readData, FluidSystem.step, GPGPU.run in *.
  cbn [FluidSystem.posState FluidSystem.velState tex_in].
  rewrite zip_with_fuse. apply (zip_with_ext_on in_domain); [|exact Hdom].
  intros p v Hin. rewrite (updateVel_in_domain DT GRAVITY p v Hin).
  rewrite updatePos_clamped. reflexivity.
Qed.

Lemma fluid_particles_fall_witness :
  exists e',
    step (this Examples.world0) = Ok e' /\
    st_particles (getState e')
    = zip_with
        (fun p v =>
           mk4 (Rmin 10 (Rmax (-10) (X p + X v * DT)))
               (Rmax 0 (Y p + (Y v - GRAVITY * DT) * DT)) (Z p) (W p))
        (st_particles (getState (this Examples.world0)))
        (tex_in (FluidSystem.velState (fluidSystem (this Examples.world0)))).
Proof. exact (fluid_particles_fall Examples.world0 world0_reachable). Defined.

End FluidMotion.
